(** * QuickIM: the QPROTO wire codec and the server's session engine

    A shallow embedding of [protocol.py] (binary framing, the message
    variants, [encode_message], [decode_message], [recv_message]) and of
    the connection handling in [server.py] ([ClientSession], the client
    registry, the handlers, the per-connection read loop and its cleanup),
    followed by the properties established about them.

    - Part I: the codec.  Part II: the server, over an abstract store, and
      an in-memory store to run it on.
    - Part III: encoding and decoding (round trip, rejected frames, what
      the decoder and [recv_message] guarantee about a message).
    - Part IV: the effects of the handlers and the invariants of the
      server state.
    - Part V: the handlers in the states the server gets into, and runs of
      whole connections.
    - Part VI: further properties: the domain and the layout of a frame,
      sending and receiving over a stream, what the handlers leave alone,
      whole connections, and the single requests.

    Conventions.
    - A Python [bytes] value is a [list Z] whose elements are meant to lie in
      [0, 255]; a Python [str] is the list of its code points.
    - A Python exception is a value [Raise e] of the [result] type; [None] is
      [None].
    - Object state ([BinaryReader], the server) is threaded explicitly.  A
      handler runs from start to end without another connection's handler
      in between; the one place where the source leaves the registry lock
      in the middle of a handler, [_handle_login], is cut in two there
      ([login_after_check]). *)

From Stdlib Require Import String Ascii.
From Stdlib Require Import ZArith List Bool Lia Arith.
Import ListNotations.

Local Open Scope Z_scope.

(* ================================================================== *)
(** * Part I.  protocol.py                                             *)
(* ================================================================== *)

Module Protocol.

(** ** Exceptions and results *)

Inductive exn : Type :=
| StructError          (* struct.error *)
| ValueError           (* ValueError, raised by the codec and by IntEnum(...) *)
| UnicodeEncodeError   (* str.encode('utf-8') on a lone surrogate *)
| UnicodeDecodeError   (* bytes.decode('utf-8') on malformed input *)
| AttributeError       (* attribute access on None *)
| DatabaseError.       (* an sqlite3 error escaping a Database method *)

Inductive result (A : Type) : Type :=
| Ok (a : A)
| Raise (e : exn).
Arguments Ok {A} a.
Arguments Raise {A} e.

Definition rbind {A B} (r : result A) (k : A -> result B) : result B :=
  match r with
  | Ok a => k a
  | Raise e => Raise e
  end.

Definition rmap {A B} (f : A -> B) (r : result A) : result B :=
  rbind r (fun a => Ok (f a)).

(** ** Constants *)

Definition bytes := list Z.
Definition pystr := list Z.

Definition is_byte (b : Z) : Prop := 0 <= b <= 255.
Definition bytes_ok (bs : bytes) : Prop := Forall is_byte bs.

Definition PROTOCOL_MAGIC : bytes := [81; 80].   (* b'QP' *)
Definition PROTOCOL_VERSION : Z := 1.
Definition HEADER_SIZE : nat := 9.
Definition MAX_MESSAGE_SIZE : Z := 10 * 1024 * 1024.
Definition MAX_AVATAR_SIZE : Z := 512 * 1024.

Definition len {A} (l : list A) : Z := Z.of_nat (length l).

(** Python's [data[a:b]] for [0 <= a <= b]: never raises, silently clips. *)
Definition slice {A} (l : list A) (start stop : nat) : list A :=
  firstn (stop - start) (skipn start l).

Definition bytes_eqb (a b : bytes) : bool :=
  if list_eq_dec Z.eq_dec a b then true else false.

(** ** struct.pack / struct.unpack, big-endian *)

Definition pack_B (v : Z) : result bytes :=
  if (0 <=? v) && (v <=? 255) then Ok [v] else Raise StructError.

Definition pack_H (v : Z) : result bytes :=
  if (0 <=? v) && (v <=? 65535)
  then Ok [v / 256; v mod 256]
  else Raise StructError.

Definition pack_I (v : Z) : result bytes :=
  if (0 <=? v) && (v <=? 4294967295)
  then Ok [v / 16777216; (v / 65536) mod 256; (v / 256) mod 256; v mod 256]
  else Raise StructError.

(** [struct.unpack(fmt, buf)] wants a buffer of exactly the format's size. *)
Definition unpack_H (buf : bytes) : result Z :=
  match buf with
  | [b1; b0] => Ok (b1 * 256 + b0)
  | _ => Raise StructError
  end.

Definition unpack_I (buf : bytes) : result Z :=
  match buf with
  | [b3; b2; b1; b0] => Ok (((b3 * 256 + b2) * 256 + b1) * 256 + b0)
  | _ => Raise StructError
  end.

(** [struct.unpack_from(fmt, data, offset)] wants at least the format's size
    available at [offset]. *)
Definition unpack_from_B (data : bytes) (offset : nat) : result Z :=
  match skipn offset data with
  | b0 :: _ => Ok b0
  | _ => Raise StructError
  end.

Definition unpack_from_H (data : bytes) (offset : nat) : result Z :=
  match skipn offset data with
  | b1 :: b0 :: _ => Ok (b1 * 256 + b0)
  | _ => Raise StructError
  end.

Definition unpack_from_I (data : bytes) (offset : nat) : result Z :=
  match skipn offset data with
  | b3 :: b2 :: b1 :: b0 :: _ => Ok (((b3 * 256 + b2) * 256 + b1) * 256 + b0)
  | _ => Raise StructError
  end.

(** ** UTF-8, as [str.encode('utf-8')] and [bytes.decode('utf-8')] do it *)

Definition is_surrogate (c : Z) : bool := (55296 <=? c) && (c <=? 57343).

(** A code point Python can encode: a Unicode scalar value. *)
Definition scalar_value (c : Z) : Prop :=
  0 <= c <= 1114111 /\ is_surrogate c = false.

Definition utf8_encode_cp (c : Z) : result bytes :=
  if c <? 0 then Raise UnicodeEncodeError
  else if c <? 128 then Ok [c]
  else if c <? 2048 then Ok [192 + c / 64; 128 + c mod 64]
  else if is_surrogate c then Raise UnicodeEncodeError
  else if c <? 65536 then
    Ok [224 + c / 4096; 128 + (c / 64) mod 64; 128 + c mod 64]
  else if c <? 1114112 then
    Ok [240 + c / 262144; 128 + (c / 4096) mod 64;
        128 + (c / 64) mod 64; 128 + c mod 64]
  else Raise UnicodeEncodeError.

Fixpoint utf8_encode (s : pystr) : result bytes :=
  match s with
  | [] => Ok []
  | c :: s' =>
      rbind (utf8_encode_cp c) (fun bs =>
      rbind (utf8_encode s') (fun rest => Ok (bs ++ rest)))
  end.

Definition in_range (lo hi b : Z) : bool := (lo <=? b) && (b <=? hi).
Definition is_cont (b : Z) : bool := in_range 128 191 b.

(** The strict decoder: shortest form only, no surrogates, nothing above
    U+10FFFF, every continuation byte checked. *)
Fixpoint utf8_decode (bs : bytes) : result pystr :=
  match bs with
  | [] => Ok []
  | b0 :: t0 =>
    if in_range 0 127 b0 then
      rmap (cons b0) (utf8_decode t0)
    else if in_range 194 223 b0 then
      match t0 with
      | b1 :: t1 =>
        if is_cont b1
        then rmap (cons ((b0 - 192) * 64 + (b1 - 128))) (utf8_decode t1)
        else Raise UnicodeDecodeError
      | _ => Raise UnicodeDecodeError
      end
    else if in_range 224 239 b0 then
      match t0 with
      | b1 :: b2 :: t2 =>
        if in_range (if b0 =? 224 then 160 else 128)
                    (if b0 =? 237 then 159 else 191) b1
           && is_cont b2
        then rmap (cons (((b0 - 224) * 64 + (b1 - 128)) * 64 + (b2 - 128)))
                  (utf8_decode t2)
        else Raise UnicodeDecodeError
      | _ => Raise UnicodeDecodeError
      end
    else if in_range 240 244 b0 then
      match t0 with
      | b1 :: b2 :: b3 :: t3 =>
        if in_range (if b0 =? 240 then 144 else 128)
                    (if b0 =? 244 then 143 else 191) b1
           && is_cont b2 && is_cont b3
        then rmap (cons ((((b0 - 240) * 64 + (b1 - 128)) * 64
                          + (b2 - 128)) * 64 + (b3 - 128)))
                  (utf8_decode t3)
        else Raise UnicodeDecodeError
      | _ => Raise UnicodeDecodeError
      end
    else Raise UnicodeDecodeError
  end.

(** Number of bytes in the UTF-8 form of a string of scalar values. *)
Definition utf8_cp_len (c : Z) : Z :=
  if c <? 128 then 1 else if c <? 2048 then 2 else if c <? 65536 then 3 else 4.

Fixpoint utf8_len (s : pystr) : Z :=
  match s with
  | [] => 0
  | c :: s' => utf8_cp_len c + utf8_len s'
  end.

(** ** Enumerations *)

Inductive Command : Type :=
| QPROTO_REGISTER | QPROTO_LOGIN | QPROTO_LOGOUT
| QPROTO_MSG_SEND | QPROTO_MSG_RECEIVE | QPROTO_MSG_ACK
| QPROTO_CONTACT_ADD | QPROTO_CONTACT_REMOVE
| QPROTO_CONTACT_LIST_REQ | QPROTO_CONTACT_LIST
| QPROTO_USER_SEARCH | QPROTO_USER_SEARCH_RES
| QPROTO_USER_LIST_REQ | QPROTO_USER_LIST
| QPROTO_PRESENCE
| QPROTO_RESPONSE | QPROTO_ERROR
| QPROTO_EARTHQUAKE_SEND | QPROTO_EARTHQUAKE_RECV
| QPROTO_AVATAR_SET | QPROTO_AVATAR_GET | QPROTO_AVATAR_DATA.

Definition Command_value (c : Command) : Z :=
  match c with
  | QPROTO_REGISTER => 1 | QPROTO_LOGIN => 2 | QPROTO_LOGOUT => 3
  | QPROTO_MSG_SEND => 256 | QPROTO_MSG_RECEIVE => 257 | QPROTO_MSG_ACK => 258
  | QPROTO_CONTACT_ADD => 512 | QPROTO_CONTACT_REMOVE => 513
  | QPROTO_CONTACT_LIST_REQ => 514 | QPROTO_CONTACT_LIST => 515
  | QPROTO_USER_SEARCH => 768 | QPROTO_USER_SEARCH_RES => 769
  | QPROTO_USER_LIST_REQ => 770 | QPROTO_USER_LIST => 771
  | QPROTO_PRESENCE => 1024
  | QPROTO_RESPONSE => 1280 | QPROTO_ERROR => 1281
  | QPROTO_EARTHQUAKE_SEND => 1536 | QPROTO_EARTHQUAKE_RECV => 1537
  | QPROTO_AVATAR_SET => 1792 | QPROTO_AVATAR_GET => 1793
  | QPROTO_AVATAR_DATA => 1794
  end.

Definition all_commands : list Command :=
  [QPROTO_REGISTER; QPROTO_LOGIN; QPROTO_LOGOUT;
   QPROTO_MSG_SEND; QPROTO_MSG_RECEIVE; QPROTO_MSG_ACK;
   QPROTO_CONTACT_ADD; QPROTO_CONTACT_REMOVE;
   QPROTO_CONTACT_LIST_REQ; QPROTO_CONTACT_LIST;
   QPROTO_USER_SEARCH; QPROTO_USER_SEARCH_RES;
   QPROTO_USER_LIST_REQ; QPROTO_USER_LIST;
   QPROTO_PRESENCE;
   QPROTO_RESPONSE; QPROTO_ERROR;
   QPROTO_EARTHQUAKE_SEND; QPROTO_EARTHQUAKE_RECV;
   QPROTO_AVATAR_SET; QPROTO_AVATAR_GET; QPROTO_AVATAR_DATA].

(** [Command(v)]: the member whose value is [v], or [ValueError]. *)
Definition Command_of (v : Z) : result Command :=
  match find (fun c => Command_value c =? v) all_commands with
  | Some c => Ok c
  | None => Raise ValueError
  end.

Inductive ResponseCode : Type := SUCCESS | FAIL.
Definition ResponseCode_value (c : ResponseCode) : Z :=
  match c with SUCCESS => 0 | FAIL => 1 end.
Definition ResponseCode_of (v : Z) : result ResponseCode :=
  if v =? 0 then Ok SUCCESS else if v =? 1 then Ok FAIL else Raise ValueError.

Inductive PresenceStatus : Type := OFFLINE | ONLINE.
Definition PresenceStatus_value (s : PresenceStatus) : Z :=
  match s with OFFLINE => 0 | ONLINE => 1 end.
Definition PresenceStatus_of (v : Z) : result PresenceStatus :=
  if v =? 0 then Ok OFFLINE else if v =? 1 then Ok ONLINE else Raise ValueError.

Inductive AckStatus : Type :=
| DELIVERED | USER_OFFLINE | DELIVERY_FAILED | INVALID_MESSAGE.
Definition AckStatus_value (s : AckStatus) : Z :=
  match s with
  | DELIVERED => 0 | USER_OFFLINE => 1
  | DELIVERY_FAILED => 2 | INVALID_MESSAGE => 3
  end.
Definition AckStatus_of (v : Z) : result AckStatus :=
  if v =? 0 then Ok DELIVERED
  else if v =? 1 then Ok USER_OFFLINE
  else if v =? 2 then Ok DELIVERY_FAILED
  else if v =? 3 then Ok INVALID_MESSAGE
  else Raise ValueError.

Inductive ActionCode : Type :=
| REGISTER | LOGIN | LOGOUT | ADD_CONTACT | REMOVE_CONTACT | AVATAR_SET.
Definition ActionCode_value (a : ActionCode) : Z :=
  match a with
  | REGISTER => 1 | LOGIN => 2 | LOGOUT => 3
  | ADD_CONTACT => 4 | REMOVE_CONTACT => 5 | AVATAR_SET => 6
  end.
Definition ActionCode_of (v : Z) : result ActionCode :=
  if v =? 1 then Ok REGISTER
  else if v =? 2 then Ok LOGIN
  else if v =? 3 then Ok LOGOUT
  else if v =? 4 then Ok ADD_CONTACT
  else if v =? 5 then Ok REMOVE_CONTACT
  else if v =? 6 then Ok AVATAR_SET
  else Raise ValueError.

(** ** BinaryWriter: the state is the buffer *)

Definition BinaryWriter := bytes.

Definition write_uint8 (value : Z) (w : BinaryWriter) : result BinaryWriter :=
  rbind (pack_B value) (fun b => Ok (w ++ b)).

Definition write_uint16 (value : Z) (w : BinaryWriter) : result BinaryWriter :=
  rbind (pack_H value) (fun b => Ok (w ++ b)).

Definition write_uint32 (value : Z) (w : BinaryWriter) : result BinaryWriter :=
  rbind (pack_I value) (fun b => Ok (w ++ b)).

Definition write_string (value : pystr) (w : BinaryWriter)
  : result BinaryWriter :=
  rbind (utf8_encode value) (fun encoded =>
  rbind (write_uint16 (len encoded) w) (fun w' =>
  Ok (w' ++ encoded))).

Definition write_bytes (value : bytes) (w : BinaryWriter)
  : result BinaryWriter :=
  rbind (write_uint32 (len value) w) (fun w' =>
  Ok (w' ++ value)).

(** ** BinaryReader: the data and the current offset *)

Record BinaryReader : Type := mkReader { data : bytes; offset : nat }.

Definition Reader (A : Type) : Type := BinaryReader -> result (A * BinaryReader).

Definition ret {A} (a : A) : Reader A := fun r => Ok (a, r).

Definition bind {A B} (m : Reader A) (k : A -> Reader B) : Reader B :=
  fun r => match m r with
           | Ok (a, r') => k a r'
           | Raise e => Raise e
           end.

(** Lifts a conversion that may raise ([IntEnum(...)], [.decode]). *)
Definition lift {A} (x : result A) : Reader A :=
  fun r => match x with
           | Ok a => Ok (a, r)
           | Raise e => Raise e
           end.

Definition advance (n : nat) : Reader unit :=
  fun r => Ok (tt, mkReader (data r) (offset r + n)).

Declare Scope reader_scope.
Delimit Scope reader_scope with reader.
Notation "x <- m ;; k" := (bind m (fun x => k))
  (at level 61, m at next level, right associativity) : reader_scope.
Notation "m ;;; k" := (bind m (fun _ => k))
  (at level 61, right associativity) : reader_scope.
Local Open Scope reader_scope.

Definition read_uint8 : Reader Z :=
  fun r => rbind (unpack_from_B (data r) (offset r)) (fun value =>
           Ok (value, mkReader (data r) (offset r + 1))).

Definition read_uint16 : Reader Z :=
  fun r => rbind (unpack_from_H (data r) (offset r)) (fun value =>
           Ok (value, mkReader (data r) (offset r + 2))).

Definition read_uint32 : Reader Z :=
  fun r => rbind (unpack_from_I (data r) (offset r)) (fun value =>
           Ok (value, mkReader (data r) (offset r + 4))).

(** The bytes at [offset, offset + length): a slice, so a length that runs
    past the end of the data yields the bytes that are there. *)
Definition peek (length : nat) : Reader bytes :=
  fun r => Ok (slice (data r) (offset r) (offset r + length), r).

Definition read_string : Reader pystr :=
  length <- read_uint16 ;;
  raw <- peek (Z.to_nat length) ;;
  value <- lift (utf8_decode raw) ;;
  advance (Z.to_nat length) ;;;
  ret value.

Definition read_bytes : Reader bytes :=
  length <- read_uint32 ;;
  value <- peek (Z.to_nat length) ;;
  advance (Z.to_nat length) ;;;
  ret value.

(** ** Messages *)

Record ContactInfo : Type :=
  mkContactInfo { username : pystr; status : PresenceStatus }.

Inductive Message : Type :=
| RegisterMessage (username password : pystr)
| LoginMessage (username password : pystr)
| LogoutMessage
| SendMsgMessage (to content msg_id : pystr)
| ReceiveMsgMessage (from_user content msg_id timestamp : pystr)
| MsgAckMessage (msg_id : pystr) (status : AckStatus)
| AddContactMessage (contact : pystr)
| RemoveContactMessage (contact : pystr)
| ContactListReqMessage
| ContactListMessage (contacts : list ContactInfo)
| UserSearchMessage (query : pystr)
| UserSearchResultMessage (users : list pystr)
| PresenceMessage (username : pystr) (status : PresenceStatus)
| ResponseMessage (action : ActionCode) (code : ResponseCode) (message : pystr)
| ErrorMessage (message : pystr)
| EarthquakeSendMessage (to : pystr) (intensity : Z)
| EarthquakeRecvMessage (from_user : pystr) (intensity : Z)
| AvatarSetMessage (avatar_data : bytes)
| AvatarGetMessage (username : pystr)
| AvatarDataMessage (username : pystr) (avatar_data : bytes).

(** The [command] field each constructor passes to [Message.__init__]. *)
Definition command (msg : Message) : Command :=
  match msg with
  | RegisterMessage _ _ => QPROTO_REGISTER
  | LoginMessage _ _ => QPROTO_LOGIN
  | LogoutMessage => QPROTO_LOGOUT
  | SendMsgMessage _ _ _ => QPROTO_MSG_SEND
  | ReceiveMsgMessage _ _ _ _ => QPROTO_MSG_RECEIVE
  | MsgAckMessage _ _ => QPROTO_MSG_ACK
  | AddContactMessage _ => QPROTO_CONTACT_ADD
  | RemoveContactMessage _ => QPROTO_CONTACT_REMOVE
  | ContactListReqMessage => QPROTO_CONTACT_LIST_REQ
  | ContactListMessage _ => QPROTO_CONTACT_LIST
  | UserSearchMessage _ => QPROTO_USER_SEARCH
  | UserSearchResultMessage _ => QPROTO_USER_SEARCH_RES
  | PresenceMessage _ _ => QPROTO_PRESENCE
  | ResponseMessage _ _ _ => QPROTO_RESPONSE
  | ErrorMessage _ => QPROTO_ERROR
  | EarthquakeSendMessage _ _ => QPROTO_EARTHQUAKE_SEND
  | EarthquakeRecvMessage _ _ => QPROTO_EARTHQUAKE_RECV
  | AvatarSetMessage _ => QPROTO_AVATAR_SET
  | AvatarGetMessage _ => QPROTO_AVATAR_GET
  | AvatarDataMessage _ _ => QPROTO_AVATAR_DATA
  end.

(** ** Serialization *)

Fixpoint write_contacts (contacts : list ContactInfo) (w : BinaryWriter)
  : result BinaryWriter :=
  match contacts with
  | [] => Ok w
  | contact :: rest =>
      rbind (write_string (username contact) w) (fun w1 =>
      rbind (write_uint8 (PresenceStatus_value (status contact)) w1) (fun w2 =>
      write_contacts rest w2))
  end.

Fixpoint write_users (users : list pystr) (w : BinaryWriter)
  : result BinaryWriter :=
  match users with
  | [] => Ok w
  | user :: rest => rbind (write_string user w) (write_users rest)
  end.

(** The [isinstance] chain of [encode_message], writing into [writer]. *)
Definition encode_payload (msg : Message) (writer : BinaryWriter)
  : result BinaryWriter :=
  match msg with
  | RegisterMessage username password =>
      rbind (write_string username writer) (write_string password)
  | LoginMessage username password =>
      rbind (write_string username writer) (write_string password)
  | LogoutMessage => Ok writer
  | SendMsgMessage to content msg_id =>
      rbind (write_string to writer) (fun w1 =>
      rbind (write_string content w1) (write_string msg_id))
  | ReceiveMsgMessage from_user content msg_id timestamp =>
      rbind (write_string from_user writer) (fun w1 =>
      rbind (write_string content w1) (fun w2 =>
      rbind (write_string msg_id w2) (write_string timestamp)))
  | MsgAckMessage msg_id status =>
      rbind (write_string msg_id writer) (write_uint8 (AckStatus_value status))
  | AddContactMessage contact => write_string contact writer
  | RemoveContactMessage contact => write_string contact writer
  | ContactListReqMessage => Ok writer
  | ContactListMessage contacts =>
      rbind (write_uint16 (len contacts) writer) (write_contacts contacts)
  | UserSearchMessage query => write_string query writer
  | UserSearchResultMessage users =>
      rbind (write_uint16 (len users) writer) (write_users users)
  | PresenceMessage username status =>
      rbind (write_string username writer)
            (write_uint8 (PresenceStatus_value status))
  | ResponseMessage action code message =>
      rbind (write_uint8 (ActionCode_value action) writer) (fun w1 =>
      rbind (write_uint8 (ResponseCode_value code) w1) (write_string message))
  | ErrorMessage message => write_string message writer
  | EarthquakeSendMessage to intensity =>
      rbind (write_string to writer) (write_uint8 intensity)
  | EarthquakeRecvMessage from_user intensity =>
      rbind (write_string from_user writer) (write_uint8 intensity)
  | AvatarSetMessage avatar_data => write_bytes avatar_data writer
  | AvatarGetMessage username => write_string username writer
  | AvatarDataMessage username avatar_data =>
      rbind (write_string username writer) (write_bytes avatar_data)
  end.

Definition encode_message (msg : Message) : result bytes :=
  rbind (encode_payload msg []) (fun payload =>
  rbind (pack_H (Command_value (command msg))) (fun cmd =>
  rbind (pack_I (len payload)) (fun plen =>
  Ok (PROTOCOL_MAGIC ++ [PROTOCOL_VERSION] ++ cmd ++ plen ++ payload)))).

(** [for _ in range(count)]: one [ContactInfo] per round. *)
Fixpoint read_contacts (count : nat) : Reader (list ContactInfo) :=
  match count with
  | O => ret []
  | S n =>
      name <- read_string ;;
      st <- read_uint8 ;;
      st' <- lift (PresenceStatus_of st) ;;
      rest <- read_contacts n ;;
      ret (mkContactInfo name st' :: rest)
  end.

Fixpoint read_users (count : nat) : Reader (list pystr) :=
  match count with
  | O => ret []
  | S n =>
      user <- read_string ;;
      rest <- read_users n ;;
      ret (user :: rest)
  end.

(** The [cmd == ...] chain of [decode_message]. *)
Definition decode_body (cmd : Command) : Reader Message :=
  match cmd with
  | QPROTO_REGISTER =>
      u <- read_string ;; p <- read_string ;; ret (RegisterMessage u p)
  | QPROTO_LOGIN =>
      u <- read_string ;; p <- read_string ;; ret (LoginMessage u p)
  | QPROTO_LOGOUT => ret LogoutMessage
  | QPROTO_MSG_SEND =>
      t <- read_string ;; c <- read_string ;; i <- read_string ;;
      ret (SendMsgMessage t c i)
  | QPROTO_MSG_RECEIVE =>
      f <- read_string ;; c <- read_string ;; i <- read_string ;;
      ts <- read_string ;;
      ret (ReceiveMsgMessage f c i ts)
  | QPROTO_MSG_ACK =>
      i <- read_string ;; s <- read_uint8 ;; s' <- lift (AckStatus_of s) ;;
      ret (MsgAckMessage i s')
  | QPROTO_CONTACT_ADD => c <- read_string ;; ret (AddContactMessage c)
  | QPROTO_CONTACT_REMOVE => c <- read_string ;; ret (RemoveContactMessage c)
  | QPROTO_CONTACT_LIST_REQ => ret ContactListReqMessage
  | QPROTO_CONTACT_LIST =>
      count <- read_uint16 ;;
      contacts <- read_contacts (Z.to_nat count) ;;
      ret (ContactListMessage contacts)
  | QPROTO_USER_SEARCH => q <- read_string ;; ret (UserSearchMessage q)
  | QPROTO_USER_SEARCH_RES =>
      count <- read_uint16 ;;
      users <- read_users (Z.to_nat count) ;;
      ret (UserSearchResultMessage users)
  | QPROTO_PRESENCE =>
      u <- read_string ;; s <- read_uint8 ;;
      s' <- lift (PresenceStatus_of s) ;;
      ret (PresenceMessage u s')
  | QPROTO_RESPONSE =>
      a <- read_uint8 ;; a' <- lift (ActionCode_of a) ;;
      c <- read_uint8 ;; c' <- lift (ResponseCode_of c) ;;
      m <- read_string ;;
      ret (ResponseMessage a' c' m)
  | QPROTO_ERROR => m <- read_string ;; ret (ErrorMessage m)
  | QPROTO_EARTHQUAKE_SEND =>
      t <- read_string ;; i <- read_uint8 ;; ret (EarthquakeSendMessage t i)
  | QPROTO_EARTHQUAKE_RECV =>
      f <- read_string ;; i <- read_uint8 ;; ret (EarthquakeRecvMessage f i)
  | QPROTO_AVATAR_SET => d <- read_bytes ;; ret (AvatarSetMessage d)
  | QPROTO_AVATAR_GET => u <- read_string ;; ret (AvatarGetMessage u)
  | QPROTO_AVATAR_DATA =>
      u <- read_string ;; d <- read_bytes ;; ret (AvatarDataMessage u d)
  | QPROTO_USER_LIST_REQ | QPROTO_USER_LIST =>
      lift (Raise ValueError)           (* "Unhandled command" *)
  end.

(** [decode_message]: [Ok None] is Python's [return None]. *)
Definition decode_message (data : bytes) : result (option Message) :=
  if (length data <? HEADER_SIZE)%nat then Ok None
  else
    let magic := slice data 0 2 in
    let version := nth 2 data 0 in
    rbind (unpack_H (slice data 3 5)) (fun command =>
    rbind (unpack_I (slice data 5 9)) (fun payload_len =>
    if negb (bytes_eqb magic PROTOCOL_MAGIC) then Raise ValueError
    else if negb (version =? PROTOCOL_VERSION) then Raise ValueError
    else
      let payload :=
        slice data HEADER_SIZE (HEADER_SIZE + Z.to_nat payload_len) in
      let reader := mkReader payload 0 in
      rbind (Command_of command) (fun cmd =>
      rbind (decode_body cmd reader) (fun mr =>
      Ok (Some (fst mr)))))).

(** ** Receiving from a socket

    A socket's inbound side is the bytes still to arrive before the peer
    closes, delivered in chunks; [sock.recv(k)] returns at most [k] bytes of
    the next chunk and [b''] once the stream is exhausted.  A socket error
    is an exhausted stream here: [recv_message] answers [None] to both. *)

Definition Socket := list bytes.

(** [sock.recv(k)]: the received bytes and the remaining stream. *)
Definition sock_recv (k : nat) (sock : Socket) : bytes * Socket :=
  match sock with
  | [] => ([], [])
  | chunk :: rest =>
      if (length chunk <=? k)%nat then (chunk, rest)
      else (firstn k chunk, skipn k chunk :: rest)
  end.

(** [_recv_exactly]: the loop runs at most once per chunk plus once more,
    [fuel] bounds it. *)
Fixpoint recv_exactly_loop (fuel : nat) (n : nat) (acc : bytes) (sock : Socket)
  : option bytes * Socket :=
  if (length acc <? n)%nat then
    match fuel with
    | O => (None, sock)
    | S fuel' =>
        let '(chunk, sock') := sock_recv (n - length acc) sock in
        match chunk with
        | [] => (None, sock')
        | _ => recv_exactly_loop fuel' n (acc ++ chunk) sock'
        end
    end
  else (Some acc, sock).

Definition _recv_exactly (sock : Socket) (n : nat) : option bytes * Socket :=
  recv_exactly_loop (S (n + length sock)) n [] sock.

(** Python truthiness of an [Optional[bytes]]. *)
Definition falsy (b : option bytes) : bool :=
  match b with
  | None => true
  | Some [] => true
  | Some _ => false
  end.

(** The [except (socket.error, OSError, struct.error, ValueError)] clause of
    [recv_message]; the Unicode errors are subclasses of [ValueError]. *)
Definition recv_catches (e : exn) : bool :=
  match e with
  | StructError | ValueError | UnicodeEncodeError | UnicodeDecodeError => true
  | AttributeError | DatabaseError => false
  end.

Definition recv_except {A} (r : result (option A)) : result (option A) :=
  match r with
  | Ok a => Ok a
  | Raise e => if recv_catches e then Ok None else Raise e
  end.

Definition recv_message (sock : Socket) : result (option Message) * Socket :=
  let '(header, sock1) := _recv_exactly sock HEADER_SIZE in
  match header with
  | None => (Ok None, sock1)
  | Some header =>
    if falsy (Some header) then (Ok None, sock1)
    else if negb (bytes_eqb (slice header 0 2) PROTOCOL_MAGIC)
    then (Ok None, sock1)
    else
      match unpack_I (slice header 5 9) with
      | Raise e => (recv_except (Raise e), sock1)
      | Ok payload_len =>
        if MAX_MESSAGE_SIZE <? payload_len then (Ok None, sock1)
        else
          let '(payload, sock2) :=
            if 0 <? payload_len
            then _recv_exactly sock1 (Z.to_nat payload_len)
            else (Some [], sock1) in
          if (0 <? payload_len) && falsy payload then (Ok None, sock2)
          else
            match payload with
            | None => (Ok None, sock2)
            | Some payload =>
                (recv_except (decode_message (header ++ payload)), sock2)
            end
      end
  end.

(** ** Valid field values

    What a message's fields have to satisfy to be sent: strings are made of
    Unicode scalar values and take at most 65535 bytes in UTF-8, a blob fits
    in a frame, a [uint8] field is in [0, 255].  Enumeration fields are in
    range by their type. *)

Definition string_ok (s : pystr) : Prop :=
  Forall scalar_value s /\ utf8_len s <= 65535.

Definition blob_ok (b : bytes) : Prop := len b <= MAX_MESSAGE_SIZE.

Definition uint8_ok (v : Z) : Prop := 0 <= v <= 255.

Definition fields_ok (msg : Message) : Prop :=
  match msg with
  | RegisterMessage u p => string_ok u /\ string_ok p
  | LoginMessage u p => string_ok u /\ string_ok p
  | LogoutMessage => True
  | SendMsgMessage t c i => string_ok t /\ string_ok c /\ string_ok i
  | ReceiveMsgMessage f c i ts =>
      string_ok f /\ string_ok c /\ string_ok i /\ string_ok ts
  | MsgAckMessage i _ => string_ok i
  | AddContactMessage c => string_ok c
  | RemoveContactMessage c => string_ok c
  | ContactListReqMessage => True
  | ContactListMessage cs => Forall (fun c => string_ok (username c)) cs
  | UserSearchMessage q => string_ok q
  | UserSearchResultMessage us => Forall string_ok us
  | PresenceMessage u _ => string_ok u
  | ResponseMessage _ _ m => string_ok m
  | ErrorMessage m => string_ok m
  | EarthquakeSendMessage t i => string_ok t /\ uint8_ok i
  | EarthquakeRecvMessage f i => string_ok f /\ uint8_ok i
  | AvatarSetMessage d => blob_ok d
  | AvatarGetMessage u => string_ok u
  | AvatarDataMessage u d => string_ok u /\ blob_ok d
  end.

(** The number of entries of a list-carrying message, which goes into a
    two-byte count. *)
Definition entry_count (msg : Message) : Z :=
  match msg with
  | ContactListMessage cs => len cs
  | UserSearchResultMessage us => len us
  | _ => 0
  end.

(** The size of the payload a message encodes to. *)
Definition string_size (s : pystr) : Z := 2 + utf8_len s.

Fixpoint contacts_size (cs : list ContactInfo) : Z :=
  match cs with
  | [] => 0
  | c :: cs' => string_size (username c) + 1 + contacts_size cs'
  end.

Fixpoint users_size (us : list pystr) : Z :=
  match us with
  | [] => 0
  | u :: us' => string_size u + users_size us'
  end.

Definition payload_size (msg : Message) : Z :=
  match msg with
  | RegisterMessage u p => string_size u + string_size p
  | LoginMessage u p => string_size u + string_size p
  | LogoutMessage => 0
  | SendMsgMessage t c i => string_size t + string_size c + string_size i
  | ReceiveMsgMessage f c i ts =>
      string_size f + string_size c + string_size i + string_size ts
  | MsgAckMessage i _ => string_size i + 1
  | AddContactMessage c => string_size c
  | RemoveContactMessage c => string_size c
  | ContactListReqMessage => 0
  | ContactListMessage cs => 2 + contacts_size cs
  | UserSearchMessage q => string_size q
  | UserSearchResultMessage us => 2 + users_size us
  | PresenceMessage u _ => string_size u + 1
  | ResponseMessage _ _ m => 2 + string_size m
  | ErrorMessage m => string_size m
  | EarthquakeSendMessage t _ => string_size t + 1
  | EarthquakeRecvMessage f _ => string_size f + 1
  | AvatarSetMessage d => 4 + len d
  | AvatarGetMessage u => string_size u
  | AvatarDataMessage u d => string_size u + 4 + len d
  end.

(** A message the wire format can carry: valid fields, a count that fits
    its two bytes and a payload length that fits its four. *)
Definition encodable (msg : Message) : Prop :=
  fields_ok msg /\ entry_count msg <= 65535 /\ payload_size msg <= 4294967295.

(** ** Reading back what was written

    [reads rd e a]: wherever the bytes [e] sit in the data, the reader [rd]
    started at their first byte returns [a] and stops right after them. *)
Definition reads {A} (rd : Reader A) (e : bytes) (a : A) : Prop :=
  forall pre post,
    rd (mkReader (pre ++ e ++ post) (length pre))
    = Ok (a, mkReader (pre ++ e ++ post) (length pre + length e)).

(** Whether [decode_message] returned a message. *)
Definition is_message (r : result (option Message)) : Prop :=
  exists msg, r = Ok (Some msg).

(** A reader that raises nothing but what [recv_message] catches. *)
Definition raises_caught {A} (rd : Reader A) : Prop :=
  forall r e, rd r = Raise e -> recv_catches e = true.

(** ** What the encoder takes

    The string fields and the [uint8] fields of a message, in the order
    [encode_message] writes them. *)
Definition strings_of (msg : Message) : list pystr :=
  match msg with
  | RegisterMessage u p => [u; p]
  | LoginMessage u p => [u; p]
  | LogoutMessage => []
  | SendMsgMessage t c i => [t; c; i]
  | ReceiveMsgMessage f c i ts => [f; c; i; ts]
  | MsgAckMessage i _ => [i]
  | AddContactMessage c => [c]
  | RemoveContactMessage c => [c]
  | ContactListReqMessage => []
  | ContactListMessage cs => map username cs
  | UserSearchMessage q => [q]
  | UserSearchResultMessage us => us
  | PresenceMessage u _ => [u]
  | ResponseMessage _ _ m => [m]
  | ErrorMessage m => [m]
  | EarthquakeSendMessage t _ => [t]
  | EarthquakeRecvMessage f _ => [f]
  | AvatarSetMessage _ => []
  | AvatarGetMessage u => [u]
  | AvatarDataMessage u _ => [u]
  end.

Definition uint8s_of (msg : Message) : list Z :=
  match msg with
  | EarthquakeSendMessage _ i => [i]
  | EarthquakeRecvMessage _ i => [i]
  | _ => []
  end.

(** What [encode_message] needs of a message. *)
Definition wire_ok (msg : Message) : Prop :=
  Forall string_ok (strings_of msg)
  /\ Forall uint8_ok (uint8s_of msg)
  /\ entry_count msg <= 65535
  /\ payload_size msg <= 4294967295.

(** The exceptions of the encoder: [struct.error] from a [pack],
    [UnicodeEncodeError] from [str.encode]. *)
Definition encoder_exn (e : exn) : Prop :=
  e = StructError \/ e = UnicodeEncodeError.

(** ** Sending to a socket

    The outbound side of a connection: the bytes written to it so far, and
    how many more it takes before a write fails ([None]: it never does). *)
Record OutSocket : Type := mkOut { written : bytes; room : option nat }.

(** [sock.sendall(data)]: [true] when all of [data] was written, [false]
    when [socket.error] was raised, after the part that still went
    through. *)
Definition sendall (data : bytes) (sock : OutSocket) : bool * OutSocket :=
  match room sock with
  | None => (true, mkOut (written sock ++ data) None)
  | Some k =>
      if (length data <=? k)%nat
      then (true, mkOut (written sock ++ data) (Some (k - length data)%nat))
      else (false, mkOut (written sock ++ firstn k data) (Some 0%nat))
  end.

(** [send_message]: the [except] clause catches the socket's errors, not
    those of [encode_message]. *)
Definition send_message (sock : OutSocket) (msg : Message)
  : result bool * OutSocket :=
  match encode_message msg with
  | Raise e => (Raise e, sock)
  | Ok data =>
      match sendall data sock with
      | (true, sock') => (Ok true, sock')
      | (false, sock') => (Ok false, sock')
      end
  end.

(** The bytes [bs] are what a socket still delivers before the peer
    closes, in chunks of any sizes; [recv] returns [b''] only once they are
    used up. *)
Definition arrives (bs : bytes) (sock : Socket) : Prop :=
  concat sock = bs /\ Forall (fun chunk => chunk <> []) sock.

(** ** How far a reader has got

    The number of bytes of the data that lie before the reader's offset. *)
Definition consumed (r : BinaryReader) : Z :=
  Z.of_nat (Nat.min (offset r) (length (data r))).

(** ** Sample messages and frames *)

(** A contact list with a name of one-, two-, three- and four-byte
    characters and an empty name. *)
Definition demo_contacts : Message :=
  ContactListMessage
    [mkContactInfo [97; 233; 8364; 128512] ONLINE; mkContactInfo [] OFFLINE].

(** A contact list with one entry more than a two-byte count can tell. *)
Definition too_many : nat := Z.to_nat 65536.
Definition crowd : Message :=
  ContactListMessage (repeat (mkContactInfo [] OFFLINE) too_many).

(** An ERROR frame whose 3-byte payload declares a string of 5 bytes and
    holds one, [b'a']. *)
Definition short_error_frame : bytes :=
  [81; 80; 1;  5; 1;  0; 0; 0; 3;  0; 5; 97].

(** An AVATAR_SET frame whose 5-byte payload declares a blob of 100 bytes
    and holds one. *)
Definition short_avatar_frame : bytes :=
  [81; 80; 1;  7; 0;  0; 0; 0; 5;  0; 0; 0; 100; 7].

(** The frame of [demo_contacts]. *)
Definition demo_frame : bytes :=
  [81; 80; 1;  2; 3;  0; 0; 0; 18;
   0; 2;  0; 10; 97; 195; 169; 226; 130; 172; 240; 159; 152; 128;  1;
   0; 0;  0].

(** The frame of a logout request, and the same header with the command
    code of [QPROTO_USER_LIST_REQ]. *)
Definition logout_frame : bytes := [81; 80; 1;  0; 3;  0; 0; 0; 0].
Definition user_list_req_frame : bytes := [81; 80; 1;  3; 2;  0; 0; 0; 0].

(** The header of an AVATAR_SET frame that announces 2^32 - 1 payload
    bytes. *)
Definition huge_header : bytes := [81; 80; 1;  7; 0;  255; 255; 255; 255].

(** A reader at the start of a string field that declares five bytes and
    holds one. *)
Definition short_field : BinaryReader := mkReader [0; 5; 97] 0.

End Protocol.

(* ================================================================== *)
(** * Part II.  server.py                                              *)
(* ================================================================== *)

Module Server.
Import Protocol.

(** ** Python strings *)

(** A string literal of the source, as its code points. *)
Definition lit (s : string) : pystr :=
  map (fun a => Z.of_nat (nat_of_ascii a)) (list_ascii_of_string s).

Definition str_eqb (a b : pystr) : bool :=
  if list_eq_dec Z.eq_dec a b then true else false.

(** [str.isspace] for one character: the code points [str.strip()] drops. *)
Definition is_space (c : Z) : bool :=
  in_range 9 13 c || in_range 28 32 c || (c =? 133) || (c =? 160)
  || (c =? 5760) || in_range 8192 8202 c || (c =? 8232) || (c =? 8233)
  || (c =? 8239) || (c =? 8287) || (c =? 12288).

Fixpoint lstrip (s : pystr) : pystr :=
  match s with
  | [] => []
  | c :: s' => if is_space c then lstrip s' else s
  end.

(** [s.strip()] *)
Definition strip (s : pystr) : pystr := rev (lstrip (rev (lstrip s))).

(** ** What the server takes from outside

    [Database] runs SQL through [sqlite3] and hashes through [hashlib]; what
    a statement finds is the store's business.  The interface below is what
    the methods of [Database] get out of the store (the wrappers further
    down turn that into the values the methods return), together with the
    clock and the one Unicode table the handlers consult. *)

Inductive RegisterOutcome := RegInserted | RegIntegrityError | RegException.
Inductive AuthOutcome :=
| AuthMatch (id : Z) | AuthNoRow | AuthMismatch | AuthException.
Inductive AddOutcome :=
| AddInserted | AddNoUser | AddSelf | AddIntegrityError | AddException.
Inductive RemoveOutcome :=
| RemDeleted | RemNoUser | RemNoRow | RemException.

Class Environment : Type := {
  DB : Type;
  store_register : DB -> pystr -> pystr -> DB * RegisterOutcome;
  store_authenticate : DB -> pystr -> pystr -> AuthOutcome;
  store_add_contact : DB -> option Z -> pystr -> DB * AddOutcome;
  store_remove_contact : DB -> option Z -> pystr -> DB * RemoveOutcome;
  store_get_contacts : DB -> option Z -> result (list pystr);
  store_search_users : DB -> pystr -> option Z -> result (list pystr);
  store_set_avatar : DB -> option Z -> bytes -> DB * bool;
  store_get_avatar : DB -> pystr -> result (option bytes);
  (** [datetime.now().isoformat()], by the number of effects so far *)
  now_isoformat : nat -> pystr;
  (** [str.isalnum] for one character (the Unicode database) *)
  char_isalnum : Z -> bool
}.

(** [str.isalnum]: non-empty and every character alphanumeric. *)
Definition isalnum `{Environment} (s : pystr) : bool :=
  match s with
  | [] => false
  | _ => forallb char_isalnum s
  end.

(** ** Sessions, the registry and the server state *)

(** A [ClientSession] object is known by its identity. *)
Definition sid := nat.

Record ClientSession : Type := mkSession {
  username : option pystr;
  user_id : option Z;
  authenticated : bool
}.

(** [ClientSession.__init__] *)
Definition new_session : ClientSession := mkSession None None false.

(** [self.clients]: a dict, which keeps insertion order. *)
Definition Registry := list (pystr * sid).

Fixpoint dict_get (d : Registry) (k : pystr) : option sid :=
  match d with
  | [] => None
  | (k', v) :: d' => if str_eqb k' k then Some v else dict_get d' k
  end.

Definition dict_contains (d : Registry) (k : pystr) : bool :=
  match dict_get d k with Some _ => true | None => false end.

(** [d[k] = v]: in place when the key is there, at the end otherwise. *)
Fixpoint dict_set (d : Registry) (k : pystr) (v : sid) : Registry :=
  match d with
  | [] => [(k, v)]
  | (k', v') :: d' =>
      if str_eqb k' k then (k', v) :: d' else (k', v') :: dict_set d' k v
  end.

(** [del d[k]] for a key that is there. *)
Fixpoint dict_del (d : Registry) (k : pystr) : Registry :=
  match d with
  | [] => []
  | (k', v') :: d' => if str_eqb k' k then d' else (k', v') :: dict_del d' k
  end.

(** A dict holds a key once. *)
Definition dict_wf (d : Registry) : Prop := NoDup (map fst d).

(** How many entries a registry has for a key. *)
Definition dict_count (d : Registry) (k : pystr) : nat :=
  List.length (filter (fun kv => str_eqb (fst kv) k) d).

(** What the server does that a peer or the store can observe, oldest
    first. *)
Inductive Event : Type :=
| EvSend (to : sid) (msg : Message) (delivered : bool)
    (* [session.send(msg)] reached the socket; [delivered] is its result *)
| EvLookup (name : pystr)       (* [name in self.clients], [self.clients.get] *)
| EvInsert (name : pystr) (s : sid)           (* [self.clients[name] = s] *)
| EvRemove (name : pystr)                     (* [del self.clients[name]] *)
| EvAuthenticate (name : pystr) (success : bool)  (* [authenticate_user] *)
| EvClose (s : sid).                          (* [session.close()] *)

Section ServerState.
Context `{Environment}.

Record World : Type := mkWorld {
  db : DB;
  sessions : sid -> ClientSession;
  clients : Registry;
  (** whether [sendall] on that session's socket goes through *)
  sock_ok : sid -> bool;
  log : list Event
}.

(** ** The state-and-exception monad of a handler

    A raised exception leaves the state as it was when it was raised. *)

Definition M (A : Type) : Type := World -> result A * World.

Definition mret {A} (a : A) : M A := fun w => (Ok a, w).

Definition mbind {A B} (m : M A) (k : A -> M B) : M B :=
  fun w => match m w with
           | (Ok a, w') => k a w'
           | (Raise e, w') => (Raise e, w')
           end.

Definition raise {A} (e : exn) : M A := fun w => (Raise e, w).

(** [try: m  except Exception: pass] *)
Definition try_except (m : M unit) : M unit :=
  fun w => match m w with
           | (Ok a, w') => (Ok a, w')
           | (Raise _, w') => (Ok tt, w')
           end.

(** [try: m  finally: f] *)
Definition try_finally {A} (m : M A) (f : M unit) : M A :=
  fun w => match m w with
           | (r, w') =>
               match f w' with
               | (Ok _, w'') => (r, w'')
               | (Raise e, w'') => (Raise e, w'')
               end
           end.

End ServerState.

Declare Scope server_scope.
Delimit Scope server_scope with server.
Notation "x <- m ;; k" := (mbind m (fun x => k))
  (at level 61, m at next level, right associativity) : server_scope.
Notation "m ;;; k" := (mbind m (fun _ => k))
  (at level 61, right associativity) : server_scope.

Local Open Scope server_scope.

Section Handlers.
Context `{Environment}.

(** ** Primitive effects *)

Definition emit (e : Event) : M unit :=
  fun w => (Ok tt, mkWorld (db w) (sessions w) (clients w) (sock_ok w)
                           (log w ++ [e])).

Definition get_session (s : sid) : M ClientSession :=
  fun w => (Ok (sessions w s), w).

Definition set_session (s : sid) (cs : ClientSession) : M unit :=
  fun w => (Ok tt, mkWorld (db w)
                           (fun s' => if Nat.eqb s' s then cs else sessions w s')
                           (clients w) (sock_ok w) (log w)).

Definition get_clients : M Registry := fun w => (Ok (clients w), w).

Definition set_clients (d : Registry) : M unit :=
  fun w => (Ok tt, mkWorld (db w) (sessions w) d (sock_ok w) (log w)).

Definition set_db (d : DB) : M unit :=
  fun w => (Ok tt, mkWorld d (sessions w) (clients w) (sock_ok w) (log w)).

(** [datetime.now().isoformat()] *)
Definition now : M pystr :=
  fun w => (Ok (now_isoformat (List.length (log w))), w).

(** [ClientSession.send], through [send_message]: the message is encoded
    first, and an exception of the encoder is not among those
    [send_message] catches; a socket error makes the result [False]. *)
Definition send (to : sid) (msg : Message) : M bool :=
  fun w => match encode_message msg with
           | Raise e => (Raise e, w)
           | Ok _ =>
               let delivered := sock_ok w to in
               (Ok delivered, snd (emit (EvSend to msg delivered) w))
           end.

(** [ClientSession.close]: later writes to the socket fail. *)
Definition close (s : sid) : M unit :=
  fun w => (Ok tt, mkWorld (db w) (sessions w) (clients w)
                           (fun s' => if Nat.eqb s' s then false
                                      else sock_ok w s')
                           (log w ++ [EvClose s])).

(** [with self.clients_lock: name in self.clients] *)
Definition registry_contains (name : pystr) : M bool :=
  emit (EvLookup name) ;;;
  d <- get_clients ;;
  mret (dict_contains d name).

(** [with self.clients_lock: self.clients.get(name)] *)
Definition registry_get (name : pystr) : M (option sid) :=
  emit (EvLookup name) ;;;
  d <- get_clients ;;
  mret (dict_get d name).

(** [with self.clients_lock: self.clients[name] = session] *)
Definition registry_set (name : pystr) (s : sid) : M unit :=
  emit (EvInsert name s) ;;;
  d <- get_clients ;;
  set_clients (dict_set d name s).

(** [del self.clients[name]] *)
Definition registry_del (name : pystr) : M unit :=
  emit (EvRemove name) ;;;
  d <- get_clients ;;
  set_clients (dict_del d name).

(** ** The methods of [Database] *)

Definition register_user (username password : pystr) : M (bool * pystr) :=
  fun w =>
    let '(d, o) := store_register (db w) username password in
    let r := match o with
             | RegInserted => (true, lit "Registration successful")
             | RegIntegrityError => (false, lit "Username already exists")
             | RegException => (false, lit "Registration failed")
             end in
    (Ok r, snd (set_db d w)).

Definition authenticate_user (username password : pystr)
  : M (bool * pystr * option Z) :=
  fun w =>
    let r := match store_authenticate (db w) username password with
             | AuthMatch id => (true, lit "Login successful", Some id)
             | AuthNoRow => (false, lit "User not found", None)
             | AuthMismatch => (false, lit "Invalid password", None)
             | AuthException => (false, lit "Authentication failed", None)
             end in
    (Ok r, snd (emit (EvAuthenticate username (fst (fst r))) w)).

Definition add_contact (user_id : option Z) (contact_username : pystr)
  : M (bool * pystr) :=
  fun w =>
    let '(d, o) := store_add_contact (db w) user_id contact_username in
    let r := match o with
             | AddInserted => (true, lit "Contact added")
             | AddNoUser => (false, lit "User not found")
             | AddSelf => (false, lit "Cannot add yourself")
             | AddIntegrityError => (false, lit "Contact already exists")
             | AddException => (false, lit "Failed to add contact")
             end in
    (Ok r, snd (set_db d w)).

Definition remove_contact (user_id : option Z) (contact_username : pystr)
  : M (bool * pystr) :=
  fun w =>
    let '(d, o) := store_remove_contact (db w) user_id contact_username in
    let r := match o with
             | RemDeleted => (true, lit "Contact removed")
             | RemNoUser => (false, lit "User not found")
             | RemNoRow => (false, lit "Contact not in list")
             | RemException => (false, lit "Failed to remove contact")
             end in
    (Ok r, snd (set_db d w)).

Definition get_contacts (user_id : option Z) : M (list pystr) :=
  fun w => (store_get_contacts (db w) user_id, w).

Definition search_users (query : pystr) (exclude_user_id : option Z)
  : M (list pystr) :=
  fun w => (store_search_users (db w) query exclude_user_id, w).

Definition set_avatar (user_id : option Z) (avatar_data : bytes) : M bool :=
  fun w =>
    let '(d, ok) := store_set_avatar (db w) user_id avatar_data in
    (Ok ok, snd (set_db d w)).

Definition get_avatar (username : pystr) : M (option bytes) :=
  fun w => (store_get_avatar (db w) username, w).

(** ** Builders *)

Definition build_response := ResponseMessage.
Definition build_presence := PresenceMessage.
Definition build_contact_list := ContactListMessage.
Definition build_msg_ack := MsgAckMessage.
Definition build_error := ErrorMessage.
Definition build_receive_msg := ReceiveMsgMessage.
Definition build_user_search_result := UserSearchResultMessage.
Definition build_earthquake_recv := EarthquakeRecvMessage.
Definition build_avatar_data := AvatarDataMessage.

(** Sends a message one of whose fields is [session.username]: when that is
    [None] the encoder raises on it. *)
Definition send_named (to : sid) (name : option pystr) (mk : pystr -> Message)
  : M bool :=
  match name with
  | Some n => send to (mk n)
  | None => raise AttributeError
  end.

(** [not s] for a string. *)
Definition str_empty (s : pystr) : bool :=
  match s with [] => true | _ => false end.

(** ** Presence broadcast and cleanup *)

Fixpoint broadcast_loop (items : Registry) (own : pystr) (presence_msg : Message)
  : M unit :=
  match items with
  | [] => mret tt
  | (username, client_session) :: rest =>
      (if negb (str_eqb username own)
       then send client_session presence_msg ;;; mret tt
       else mret tt) ;;;
      broadcast_loop rest own presence_msg
  end.

Definition _broadcast_presence (session : sid) (status : PresenceStatus)
  : M unit :=
  cs <- get_session session ;;
  if negb (authenticated cs) then mret tt
  else
    d <- get_clients ;;
    match username cs with
    | Some name => broadcast_loop d name (build_presence name status)
    | None =>
        (* every key differs from [None], and the first send raises *)
        match d with
        | [] => mret tt
        | _ :: _ => raise AttributeError
        end
    end.

Definition _cleanup_session (session : sid) : M unit :=
  cs <- get_session session ;;
  (match username cs with
   | Some name =>
       if authenticated cs && negb (str_empty name) then
         present <- registry_contains name ;;
         (if present then registry_del name else mret tt) ;;;
         _broadcast_presence session OFFLINE
       else mret tt
   | None => mret tt
   end) ;;;
  close session.

(** ** Handlers *)

Definition _handle_register (session : sid) (msg_username msg_password : pystr)
  : M unit :=
  let username := strip msg_username in
  let password := msg_password in
  if (len username <? 3) || (20 <? len username) then
    send session (build_response REGISTER FAIL
                    (lit "Username must be 3-20 characters")) ;;; mret tt
  else if len password <? 4 then
    send session (build_response REGISTER FAIL
                    (lit "Password must be at least 4 characters")) ;;; mret tt
  else if negb (isalnum username) then
    send session (build_response REGISTER FAIL
                    (lit "Username must be alphanumeric")) ;;; mret tt
  else
    r <- register_user username password ;;
    send session (build_response REGISTER
                    (if fst r then SUCCESS else FAIL) (snd r)) ;;;
    mret tt.

(** [_handle_login] from the call of [authenticate_user] on, that is after
    the first [with self.clients_lock] block has been left. *)
Definition login_after_check (session : sid) (username password : pystr)
  : M unit :=
  r <- authenticate_user username password ;;
  let '(success, message, uid) := r in
  if success then
    set_session session (mkSession (Some username) uid true) ;;;
    registry_set username session ;;;
    send session (build_response LOGIN SUCCESS message) ;;;
    _broadcast_presence session ONLINE
  else
    send session (build_response LOGIN FAIL message) ;;; mret tt.

Definition _handle_login (session : sid) (msg_username msg_password : pystr)
  : M unit :=
  let username := strip msg_username in
  let password := msg_password in
  present <- registry_contains username ;;
  if present then
    send session (build_response LOGIN FAIL
                    (lit "User already logged in")) ;;; mret tt
  else login_after_check session username password.

Definition _handle_logout (session : sid) : M unit :=
  cs <- get_session session ;;
  if authenticated cs then
    send session (build_response LOGOUT SUCCESS (lit "Goodbye!")) ;;; mret tt
  else mret tt.

Definition not_authenticated (session : sid) : M unit :=
  send session (build_error (lit "Not authenticated")) ;;; mret tt.

Definition _handle_send_msg (session : sid) (msg_to msg_content msg_msg_id : pystr)
  : M unit :=
  cs <- get_session session ;;
  if negb (authenticated cs) then not_authenticated session
  else
    let recipient := strip msg_to in
    let content := msg_content in
    let msg_id := msg_msg_id in
    if str_empty recipient || str_empty content then
      send session (build_msg_ack msg_id INVALID_MESSAGE) ;;; mret tt
    else
      recipient_session <- registry_get recipient ;;
      match recipient_session with
      | Some rs =>
          timestamp <- now ;;
          delivered <- send_named rs (username cs) (fun from_user =>
                         build_receive_msg from_user content msg_id timestamp) ;;
          send session (build_msg_ack msg_id
                          (if delivered then DELIVERED
                           else DELIVERY_FAILED)) ;;;
          mret tt
      | None =>
          send session (build_msg_ack msg_id USER_OFFLINE) ;;; mret tt
      end.

Fixpoint contact_statuses (contact_usernames : list pystr)
  : M (list ContactInfo) :=
  match contact_usernames with
  | [] => mret []
  | name :: rest =>
      online <- registry_contains name ;;
      tl <- contact_statuses rest ;;
      mret (mkContactInfo name (if online then ONLINE else OFFLINE) :: tl)
  end.

Definition _handle_get_contacts (session : sid) : M unit :=
  cs <- get_session session ;;
  if negb (authenticated cs) then not_authenticated session
  else
    contact_usernames <- get_contacts (user_id cs) ;;
    contacts <- contact_statuses contact_usernames ;;
    send session (build_contact_list contacts) ;;; mret tt.

Definition _handle_add_contact (session : sid) (msg_contact : pystr) : M unit :=
  cs <- get_session session ;;
  if negb (authenticated cs) then not_authenticated session
  else
    let contact := strip msg_contact in
    if str_empty contact then
      send session (build_response ADD_CONTACT FAIL
                      (lit "Invalid username")) ;;; mret tt
    else
      r <- add_contact (user_id cs) contact ;;
      send session (build_response ADD_CONTACT
                      (if fst r then SUCCESS else FAIL) (snd r)) ;;;
      if fst r then _handle_get_contacts session else mret tt.

Definition _handle_remove_contact (session : sid) (msg_contact : pystr)
  : M unit :=
  cs <- get_session session ;;
  if negb (authenticated cs) then not_authenticated session
  else
    r <- remove_contact (user_id cs) (strip msg_contact) ;;
    send session (build_response REMOVE_CONTACT
                    (if fst r then SUCCESS else FAIL) (snd r)) ;;;
    if fst r then _handle_get_contacts session else mret tt.

Definition _handle_search_user (session : sid) (msg_query : pystr) : M unit :=
  cs <- get_session session ;;
  if negb (authenticated cs) then not_authenticated session
  else
    let query := strip msg_query in
    if len query <? 1 then
      send session (build_user_search_result []) ;;; mret tt
    else
      users <- search_users query (user_id cs) ;;
      send session (build_user_search_result users) ;;; mret tt.

Definition _handle_earthquake (session : sid) (msg_to : pystr)
  (msg_intensity : Z) : M unit :=
  cs <- get_session session ;;
  if negb (authenticated cs) then not_authenticated session
  else
    let recipient := strip msg_to in
    let intensity := Z.max 1 (Z.min 10 msg_intensity) in
    recipient_session <- registry_get recipient ;;
    match recipient_session with
    | Some rs =>
        send_named rs (username cs) (fun from_user =>
          build_earthquake_recv from_user intensity) ;;;
        mret tt
    | None =>
        send session (build_error (lit "User is offline")) ;;; mret tt
    end.

Definition _handle_avatar_set (session : sid) (msg_avatar_data : bytes)
  : M unit :=
  cs <- get_session session ;;
  if negb (authenticated cs) then not_authenticated session
  else if MAX_AVATAR_SIZE <? len msg_avatar_data then
    send session (build_response AVATAR_SET FAIL
                    (lit "Avatar too large (max 512KB)")) ;;; mret tt
  else
    ok <- set_avatar (user_id cs) msg_avatar_data ;;
    if ok then
      send session (build_response AVATAR_SET SUCCESS
                      (lit "Avatar updated")) ;;; mret tt
    else
      send session (build_response AVATAR_SET FAIL
                      (lit "Failed to update avatar")) ;;; mret tt.

Definition _handle_avatar_get (session : sid) (msg_username : pystr) : M unit :=
  cs <- get_session session ;;
  if negb (authenticated cs) then not_authenticated session
  else
    let username := strip msg_username in
    avatar_data <- get_avatar username ;;
    send session (build_avatar_data username
                    (match avatar_data with
                     | Some (b :: bs) => b :: bs
                     | _ => []
                     end)) ;;;
    mret tt.

(** ** The read loop of a connection *)

(** The [isinstance] chain of [_handle_client]: the handler a received
    message goes to. *)
Definition dispatch (session : sid) (msg : Message) : M unit :=
  match msg with
  | RegisterMessage u p => _handle_register session u p
  | LoginMessage u p => _handle_login session u p
  | LogoutMessage => _handle_logout session
  | SendMsgMessage t c i => _handle_send_msg session t c i
  | AddContactMessage c => _handle_add_contact session c
  | RemoveContactMessage c => _handle_remove_contact session c
  | ContactListReqMessage => _handle_get_contacts session
  | UserSearchMessage q => _handle_search_user session q
  | EarthquakeSendMessage t i => _handle_earthquake session t i
  | AvatarSetMessage d => _handle_avatar_set session d
  | AvatarGetMessage u => _handle_avatar_get session u
  | _ => send session (build_error (lit "Unknown command")) ;;; mret tt
  end.

(** Whether the loop leaves after the message ([break]). *)
Definition breaks (msg : Message) : bool :=
  match msg with LogoutMessage => true | _ => false end.

(** [while True] over what the successive calls of [recv_message] return;
    after the last listed result the peer has closed and [recv_message]
    returns [None]. *)
Fixpoint read_loop (session : sid) (inbox : list (option Message)) : M unit :=
  match inbox with
  | [] => mret tt
  | None :: _ => mret tt
  | Some msg :: rest =>
      dispatch session msg ;;;
      if breaks msg then mret tt else read_loop session rest
  end.

Definition _handle_client (session : sid) (inbox : list (option Message))
  : M unit :=
  try_finally (try_except (read_loop session inbox))
              (_cleanup_session session).

(** ** Observing a run *)

(** The state with more events in its log. *)
Definition logged (w : World) (evs : list Event) : World :=
  mkWorld (db w) (sessions w) (clients w) (sock_ok w) (log w ++ evs).

(** Runs a computation and keeps the state. *)
Definition exec {A} (m : M A) (w : World) : World := snd (m w).

(** The sends of a presence broadcast: one per registry entry whose key is
    not [own], in registry order. *)
Definition presence_events (w : World) (d : Registry) (own : pystr)
  (msg : Message) : list Event :=
  map (fun kv => EvSend (snd kv) msg (sock_ok w (snd kv)))
      (filter (fun kv => negb (str_eqb (fst kv) own)) d).

(** The commands whose handlers start with the [session.authenticated]
    guard. *)
Definition needs_login (msg : Message) : bool :=
  match msg with
  | SendMsgMessage _ _ _ | AddContactMessage _ | RemoveContactMessage _
  | ContactListReqMessage | UserSearchMessage _ | EarthquakeSendMessage _ _
  | AvatarSetMessage _ | AvatarGetMessage _ => true
  | _ => false
  end.

(** The message kinds that fall to the [else] branch of [_handle_client]. *)
Definition unhandled (msg : Message) : bool :=
  match msg with
  | ReceiveMsgMessage _ _ _ _ | MsgAckMessage _ _ | ContactListMessage _
  | UserSearchResultMessage _ | PresenceMessage _ _ | ResponseMessage _ _ _
  | ErrorMessage _ | EarthquakeRecvMessage _ _ | AvatarDataMessage _ _ => true
  | _ => false
  end.

(** "Handling the login, the server authenticates against the store": the
    effects the login adds to the log include the authentication. *)
Definition authenticates (w : World) (s : sid) (mu mp : pystr) : Prop :=
  exists ok,
    In (EvAuthenticate (strip mu) ok)
       (skipn (List.length (log w)) (log (exec (_handle_login s mu mp) w))).

(** "The message is answered with the authentication-required error and
    the loop goes on with the frames that follow." *)
Definition kept_open_with_auth_error (w : World) (s : sid) (msg : Message)
  (rest : list (option Message)) : Prop :=
  read_loop s (Some msg :: rest) w
  = read_loop s rest
      (logged w [EvSend s (ErrorMessage (lit "Not authenticated"))
                        (sock_ok w s)]).

(** The messages that got through to a session, in a log. *)
Definition delivered_to (s : sid) (l : list Event) : list Message :=
  flat_map (fun e => match e with
                     | EvSend to msg true => if Nat.eqb to s then [msg] else []
                     | _ => []
                     end) l.

(** The names inserted into and removed from the registry, and the names
    announced OFFLINE, in a log. *)
Definition inserted_names (l : list Event) : list pystr :=
  flat_map (fun e => match e with EvInsert n _ => [n] | _ => [] end) l.

Definition removed_names (l : list Event) : list pystr :=
  flat_map (fun e => match e with EvRemove n => [n] | _ => [] end) l.

Definition offline_names (l : list Event) : list pystr :=
  flat_map (fun e => match e with
                     | EvSend _ (PresenceMessage n OFFLINE) _ => [n]
                     | _ => []
                     end) l.

(** ** Invariants *)

(** Every name a session is logged in under is one the encoder accepts. *)
Definition names_ok (w : World) : Prop :=
  forall s u, username (sessions w s) = Some u -> string_ok u.

(** A session that is authenticated has a name. *)
Definition auth_named (w : World) : Prop :=
  forall s, authenticated (sessions w s) = true ->
            exists u, username (sessions w s) = Some u.

Definition server_inv (w : World) : Prop :=
  dict_wf (clients w) /\ names_ok w /\ auth_named w.

(** A computation that keeps the invariant, whether it returns or raises. *)
Definition stable {A} (m : M A) : Prop :=
  forall w, server_inv w -> server_inv (snd (m w)).

(** What [recv_message] returned to a read loop: messages with valid
    fields. *)
Definition inbox_ok (inbox : list (option Message)) : Prop :=
  Forall (fun o => match o with Some msg => fields_ok msg | None => True end)
         inbox.

(** The states the server gets into: it starts with an empty registry and
    sessions as [ClientSession.__init__] makes them; then connections, in
    any order, have a received message handled or are cleaned up, and
    sockets start or stop taking writes as the network pleases. *)
Inductive reachable : World -> Prop :=
| reach_start w :
    clients w = [] ->
    (forall s, sessions w s = new_session) ->
    reachable w
| reach_dispatch w s msg :
    reachable w -> fields_ok msg -> reachable (exec (dispatch s msg) w)
| reach_cleanup w s :
    reachable w -> reachable (exec (_cleanup_session s) w)
| reach_network w ok :
    reachable w ->
    reachable (mkWorld (db w) (sessions w) (clients w) ok (log w)).

(** ** What a handler leaves alone, and what a connection asks for *)

(** A computation that leaves a part [f] of the state as it was, whether
    it returns or raises. *)
Definition keeps {A X} (f : World -> X) (m : M A) : Prop :=
  forall w, f (exec m w) = f w.

(** The one request that logs a session in. *)
Definition is_login (msg : Message) : bool :=
  match msg with LoginMessage _ _ => true | _ => false end.

(** The requests whose handlers write to the store. *)
Definition writes_store (msg : Message) : bool :=
  match msg with
  | RegisterMessage _ _ | AddContactMessage _ | RemoveContactMessage _
  | AvatarSetMessage _ => true
  | _ => false
  end.

(** How many login requests a connection makes. *)
Definition login_count (inbox : list (option Message)) : nat :=
  List.length (filter (fun o => match o with
                                | Some msg => is_login msg
                                | None => false
                                end) inbox).

(** No login request of the connection is for the empty name. *)
Definition logins_named (inbox : list (option Message)) : Prop :=
  Forall (fun o => match o with
                   | Some (LoginMessage u _) => strip u <> []
                   | _ => True
                   end) inbox.

(** No request of the connection is one that writes to the store. *)
Definition read_only (inbox : list (option Message)) : Prop :=
  Forall (fun o => match o with
                   | Some msg => writes_store msg = false
                   | None => True
                   end) inbox.

(** Every registry entry has a valid name for its key and leads to a
    session that has logged in. *)
Definition registry_ok (w : World) : Prop :=
  forall name s, In (name, s) (clients w) ->
                 string_ok name /\ authenticated (sessions w s) = true.

End Handlers.

(** ** An in-memory store

    One instance of [Environment], used to run the server on concrete
    inputs: the [users] and [contacts] tables as lists.  A row keeps the
    password where the database keeps its salted hash; matching a password
    is comparing it. *)

Module MemStore.

Record UserRow : Type := mkUser {
  row_id : Z;
  row_username : pystr;
  row_password : pystr;
  row_avatar : option bytes
}.

Record Tables : Type := mkTables {
  users : list UserRow;
  contacts : list (Z * Z)          (* user_id, contact_id *)
}.

Definition find_user (t : Tables) (name : pystr) : option UserRow :=
  find (fun r => str_eqb (row_username r) name) (users t).

Definition get_user_id (t : Tables) (name : pystr) : option Z :=
  option_map row_id (find_user t name).

Definition register (t : Tables) (name password : pystr)
  : Tables * RegisterOutcome :=
  match find_user t name with
  | Some _ => (t, RegIntegrityError)
  | None =>
      (mkTables (users t ++ [mkUser (len (users t) + 1) name password None])
                (contacts t),
       RegInserted)
  end.

Definition authenticate (t : Tables) (name password : pystr) : AuthOutcome :=
  match find_user t name with
  | None => AuthNoRow
  | Some r =>
      if str_eqb (row_password r) password then AuthMatch (row_id r)
      else AuthMismatch
  end.

Definition has_edge (t : Tables) (u c : Z) : bool :=
  existsb (fun e => (fst e =? u) && (snd e =? c)) (contacts t).

Definition add_edge (t : Tables) (uid : option Z) (name : pystr)
  : Tables * AddOutcome :=
  match get_user_id t name, uid with
  | None, _ => (t, AddNoUser)
  | Some c, Some u =>
      if c =? u then (t, AddSelf)
      else if has_edge t u c then (t, AddIntegrityError)
      else (mkTables (users t) (contacts t ++ [(u, c)]), AddInserted)
  | Some _, None => (t, AddException)
  end.

Definition remove_edge (t : Tables) (uid : option Z) (name : pystr)
  : Tables * RemoveOutcome :=
  match get_user_id t name, uid with
  | None, _ => (t, RemNoUser)
  | Some c, Some u =>
      if has_edge t u c
      then (mkTables (users t)
              (filter (fun e => negb ((fst e =? u) && (snd e =? c)))
                      (contacts t)),
            RemDeleted)
      else (t, RemNoRow)
  | Some _, None => (t, RemNoRow)
  end.

Definition username_of (t : Tables) (id : Z) : list pystr :=
  map row_username (filter (fun r => row_id r =? id) (users t)).

Definition list_contacts (t : Tables) (uid : option Z) : result (list pystr) :=
  match uid with
  | Some u =>
      Ok (flat_map (fun e => if fst e =? u then username_of t (snd e) else [])
                   (contacts t))
  | None => Ok []
  end.

Fixpoint is_prefix (p s : pystr) : bool :=
  match p, s with
  | [], _ => true
  | _, [] => false
  | a :: p', b :: s' => (a =? b) && is_prefix p' s'
  end.

Fixpoint contains_str (s q : pystr) : bool :=
  is_prefix q s || match s with [] => false | _ :: s' => contains_str s' q end.

Definition search (t : Tables) (query : pystr) (exclude : option Z)
  : result (list pystr) :=
  Ok (firstn 20
        (map row_username
           (filter (fun r =>
                      contains_str (row_username r) query
                      && negb (match exclude with
                               | Some u => row_id r =? u
                               | None => false
                               end))
                   (users t)))).

Definition store_avatar (t : Tables) (uid : option Z) (blob : bytes)
  : Tables * bool :=
  (mkTables
     (map (fun r =>
             if match uid with Some u => row_id r =? u | None => false end
             then mkUser (row_id r) (row_username r) (row_password r)
                         (Some blob)
             else r)
          (users t))
     (contacts t),
   true).

Definition load_avatar (t : Tables) (name : pystr) : result (option bytes) :=
  Ok (match find_user t name with
      | Some r =>
          match row_avatar r with
          | Some (b :: bs) => Some (b :: bs)
          | _ => None
          end
      | None => None
      end).

Definition ascii_alnum (c : Z) : bool :=
  in_range 48 57 c || in_range 65 90 c || in_range 97 122 c.

#[export] Instance mem_env : Environment := {
  DB := Tables;
  store_register := register;
  store_authenticate := authenticate;
  store_add_contact := add_edge;
  store_remove_contact := remove_edge;
  store_get_contacts := list_contacts;
  store_search_users := search;
  store_set_avatar := store_avatar;
  store_get_avatar := load_avatar;
  now_isoformat := fun _ => lit "2024-05-01T12:00:00.000000";
  char_isalnum := ascii_alnum
}.

(** Three registered accounts. *)
Definition alice : pystr := lit "alice".
Definition bob : pystr := lit "bob".
Definition carol : pystr := lit "carol".

Definition demo_tables : Tables :=
  mkTables [mkUser 1 alice (lit "pw-a") None;
            mkUser 2 bob (lit "pw-b") None;
            mkUser 3 carol (lit "pw-c") None] [].

(** A server that has just started: nobody is logged in, every socket
    works. *)
Definition fresh_world : World :=
  mkWorld demo_tables (fun _ => new_session) [] (fun _ => true) [].

Definition pw_a : pystr := lit "pw-a".
Definition pw_b : pystr := lit "pw-b".

(** alice is logged in on session 1. *)
Definition w_alice : World :=
  exec (_handle_login 1%nat alice pw_a) fresh_world.

(** alice is logged in on session 1 and bob on session 2. *)
Definition w_alice_bob : World :=
  exec (_handle_login 2%nat bob pw_b) w_alice.

(** A connection that logs in as alice, then as bob, and is closed by the
    peer. *)
Definition relogin_inbox : list (option Message) :=
  [Some (LoginMessage alice pw_a); Some (LoginMessage bob pw_b); None].

Definition hi : pystr := lit "hi".
Definition m1 : pystr := lit "m1".

(** alice, on session 1, has added bob, who is logged in on session 2. *)
Definition w_friends : World := exec (_handle_add_contact 1%nat bob) w_alice_bob.

(** A connection that logs in as bob, sends alice a message, and is closed
    by the peer. *)
Definition visit_inbox : list (option Message) :=
  [Some (LoginMessage bob pw_b); Some (SendMsgMessage alice hi m1); None].

End MemStore.

End Server.

(* ================================================================== *)
(** * Part III.  Properties of the codec                               *)
(* ================================================================== *)

Module CodecProofs.
Import Protocol.

(** ** Arithmetic of the big-endian formats *)

Ltac zdm := Z.div_mod_to_equations; lia.

Lemma in_range_true lo hi b : lo <= b <= hi -> in_range lo hi b = true.
Proof.
  intros [Hlo Hhi]. unfold in_range.
  apply andb_true_intro. split; apply Z.leb_le; assumption.
Qed.

Lemma in_range_false lo hi b : b < lo \/ hi < b -> in_range lo hi b = false.
Proof.
  intros Hout. unfold in_range. apply andb_false_iff.
  destruct Hout; [left | right]; apply Z.leb_gt; assumption.
Qed.

Lemma pack_H_ok v : 0 <= v <= 65535 -> pack_H v = Ok [v / 256; v mod 256].
Proof.
  intros Hv. unfold pack_H. fold (in_range 0 65535 v).
  now rewrite in_range_true.
Qed.

Lemma pack_I_ok v :
  0 <= v <= 4294967295 ->
  pack_I v = Ok [v / 16777216; (v / 65536) mod 256; (v / 256) mod 256; v mod 256].
Proof.
  intros Hv. unfold pack_I. fold (in_range 0 4294967295 v).
  now rewrite in_range_true.
Qed.

Lemma pack_B_ok v : 0 <= v <= 255 -> pack_B v = Ok [v].
Proof.
  intros Hv. unfold pack_B. fold (in_range 0 255 v).
  now rewrite in_range_true.
Qed.

Lemma be16_join v : v / 256 * 256 + v mod 256 = v.
Proof. zdm. Qed.

Lemma be32_join v :
  ((v / 16777216 * 256 + (v / 65536) mod 256) * 256 + (v / 256) mod 256) * 256
  + v mod 256 = v.
Proof. zdm. Qed.

Lemma Ok_inj {A} (a b : A) : Ok a = Ok b -> a = b.
Proof. congruence. Qed.

(** ** UTF-8: decoding what was encoded *)

Lemma utf8_decode_1 b0 t :
  0 <= b0 <= 127 ->
  utf8_decode (b0 :: t) = rmap (cons b0) (utf8_decode t).
Proof.
  intros Hb0. cbn [utf8_decode].
  now rewrite (in_range_true 0 127 b0) by lia.
Qed.

Lemma utf8_decode_2 b0 b1 t :
  194 <= b0 <= 223 -> 128 <= b1 <= 191 ->
  utf8_decode (b0 :: b1 :: t)
  = rmap (cons ((b0 - 192) * 64 + (b1 - 128))) (utf8_decode t).
Proof.
  intros Hb0 Hb1.
  destruct t as [| x t'];
    cbn [utf8_decode];
    rewrite (in_range_false 0 127 b0) by lia;
    rewrite (in_range_true 194 223 b0) by lia;
    unfold is_cont; now rewrite (in_range_true 128 191 b1) by lia.
Qed.

Lemma utf8_decode_3 b0 b1 b2 t :
  224 <= b0 <= 239 ->
  (if b0 =? 224 then 160 else 128) <= b1 <= (if b0 =? 237 then 159 else 191) ->
  128 <= b2 <= 191 ->
  utf8_decode (b0 :: b1 :: b2 :: t)
  = rmap (cons (((b0 - 224) * 64 + (b1 - 128)) * 64 + (b2 - 128)))
         (utf8_decode t).
Proof.
  intros Hb0 Hb1 Hb2.
  destruct t as [| x t'];
    cbn [utf8_decode];
    rewrite (in_range_false 0 127 b0) by lia;
    rewrite (in_range_false 194 223 b0) by lia;
    rewrite (in_range_true 224 239 b0) by lia;
    unfold is_cont;
    rewrite (in_range_true _ _ b1 Hb1);
    now rewrite (in_range_true 128 191 b2) by lia.
Qed.

Lemma utf8_decode_4 b0 b1 b2 b3 t :
  240 <= b0 <= 244 ->
  (if b0 =? 240 then 144 else 128) <= b1 <= (if b0 =? 244 then 143 else 191) ->
  128 <= b2 <= 191 -> 128 <= b3 <= 191 ->
  utf8_decode (b0 :: b1 :: b2 :: b3 :: t)
  = rmap (cons ((((b0 - 240) * 64 + (b1 - 128)) * 64 + (b2 - 128)) * 64
                + (b3 - 128)))
         (utf8_decode t).
Proof.
  intros Hb0 Hb1 Hb2 Hb3.
  destruct t as [| x t'];
    cbn [utf8_decode];
    rewrite (in_range_false 0 127 b0) by lia;
    rewrite (in_range_false 194 223 b0) by lia;
    rewrite (in_range_false 224 239 b0) by lia;
    rewrite (in_range_true 240 244 b0) by lia;
    unfold is_cont;
    rewrite (in_range_true _ _ b1 Hb1);
    rewrite (in_range_true 128 191 b2) by lia;
    now rewrite (in_range_true 128 191 b3) by lia.
Qed.

Lemma utf8_decode_encode_cp c bs rest :
  utf8_encode_cp c = Ok bs ->
  utf8_decode (bs ++ rest) = rmap (cons c) (utf8_decode rest).
Proof.
  unfold utf8_encode_cp.
  destruct (Z.ltb_spec c 0) as [Hneg | Hnn]; [discriminate |].
  destruct (Z.ltb_spec c 128) as [H1 | H1].
  { intros E; apply Ok_inj in E; subst bs. cbn [app].
    apply utf8_decode_1. lia. }
  destruct (Z.ltb_spec c 2048) as [H2 | H2].
  { intros E; apply Ok_inj in E; subst bs. cbn [app].
    rewrite utf8_decode_2 by zdm. do 2 f_equal. zdm. }
  destruct (is_surrogate c) eqn:Hsur; [discriminate |].
  unfold is_surrogate in Hsur. apply andb_false_iff in Hsur.
  rewrite !Z.leb_gt in Hsur.
  destruct (Z.ltb_spec c 65536) as [H3 | H3].
  { intros E; apply Ok_inj in E; subst bs. cbn [app].
    rewrite utf8_decode_3.
    - do 2 f_equal. zdm.
    - zdm.
    - destruct (Z.eqb_spec (224 + c / 4096) 224);
        destruct (Z.eqb_spec (224 + c / 4096) 237); zdm.
    - zdm. }
  destruct (Z.ltb_spec c 1114112) as [H4 | H4]; [| discriminate].
  intros E; apply Ok_inj in E; subst bs. cbn [app].
  rewrite utf8_decode_4.
  - do 2 f_equal. zdm.
  - zdm.
  - destruct (Z.eqb_spec (240 + c / 262144) 240);
      destruct (Z.eqb_spec (240 + c / 262144) 244); zdm.
  - zdm.
  - zdm.
Qed.

Lemma utf8_encode_cp_len c bs :
  utf8_encode_cp c = Ok bs -> len bs = utf8_cp_len c.
Proof.
  unfold utf8_encode_cp, utf8_cp_len.
  destruct (c <? 0); [discriminate |].
  destruct (c <? 128); [now intros [= <-] |].
  destruct (c <? 2048); [now intros [= <-] |].
  destruct (is_surrogate c); [discriminate |].
  destruct (c <? 65536); [now intros [= <-] |].
  destruct (c <? 1114112); [now intros [= <-] | discriminate].
Qed.

Lemma utf8_encode_cp_ok c :
  scalar_value c -> exists bs, utf8_encode_cp c = Ok bs.
Proof.
  intros [Hrange Hsur]. unfold utf8_encode_cp. rewrite Hsur.
  destruct (Z.ltb_spec c 0); [lia |].
  destruct (c <? 128); [eauto |].
  destruct (c <? 2048); [eauto |].
  destruct (c <? 65536); [eauto |].
  destruct (Z.ltb_spec c 1114112); [eauto | lia].
Qed.

Lemma len_app {A} (a b : list A) : len (a ++ b) = len a + len b.
Proof. unfold len. rewrite length_app. lia. Qed.

Lemma len_nonneg {A} (a : list A) : 0 <= len a.
Proof. unfold len. lia. Qed.

(** A string of scalar values encodes, to [utf8_len] bytes that decode back
    to it. *)
Lemma utf8_roundtrip s :
  Forall scalar_value s ->
  exists bs, utf8_encode s = Ok bs /\ utf8_decode bs = Ok s
             /\ len bs = utf8_len s.
Proof.
  induction 1 as [| c s' Hc _ IH].
  - exists []. now repeat split.
  - destruct IH as (rest & Henc & Hdec & Hlen).
    destruct (utf8_encode_cp_ok c Hc) as [bs Hbs].
    exists (bs ++ rest). cbn [utf8_encode utf8_len].
    rewrite Hbs, Henc. cbn [rbind]. repeat split.
    + rewrite (utf8_decode_encode_cp c bs rest Hbs), Hdec. reflexivity.
    + rewrite len_app, Hlen, (utf8_encode_cp_len c bs Hbs). reflexivity.
Qed.


(** ** Reading back what was written *)

Lemma skipn_pre {A} (pre x : list A) : skipn (length pre) (pre ++ x) = x.
Proof. induction pre as [| a pre IH]; [reflexivity | exact IH]. Qed.

Lemma firstn_pre {A} (x post : list A) : firstn (length x) (x ++ post) = x.
Proof.
  induction x as [| a x IH]; [reflexivity |].
  cbn [length app firstn]. now rewrite IH.
Qed.

Lemma slice_at {A} (pre e post : list A) :
  slice (pre ++ e ++ post) (length pre) (length pre + length e) = e.
Proof.
  unfold slice. rewrite skipn_pre.
  replace (length pre + length e - length pre)%nat with (length e) by lia.
  apply firstn_pre.
Qed.

Lemma to_nat_len {A} (l : list A) : Z.to_nat (len l) = length l.
Proof. unfold len. apply Nat2Z.id. Qed.

Lemma reads_ret {A} (a : A) : reads (ret a) [] a.
Proof.
  intros pre post. unfold ret. cbn [length]. now rewrite Nat.add_0_r.
Qed.

Lemma reads_bind {A B} (m : Reader A) (k : A -> Reader B) e1 e2 a b :
  reads m e1 a -> reads (k a) e2 b -> reads (bind m k) (e1 ++ e2) b.
Proof.
  intros Hm Hk pre post. unfold bind.
  rewrite <- (app_assoc e1 e2 post).
  rewrite (Hm pre (e2 ++ post)).
  rewrite <- length_app.
  rewrite (app_assoc pre e1 (e2 ++ post)).
  rewrite (Hk (pre ++ e1) post).
  rewrite !length_app. now rewrite Nat.add_assoc.
Qed.

Lemma reads_lift {A B} (x : result A) (k : A -> Reader B) e a b :
  x = Ok a -> reads (k a) e b -> reads (bind (lift x) k) e b.
Proof.
  intros -> Hk pre post. unfold bind, lift. apply Hk.
Qed.

Lemma reads_uint8 v : reads read_uint8 [v] v.
Proof.
  intros pre post. unfold read_uint8, unpack_from_B. cbn [data offset].
  now rewrite skipn_pre.
Qed.

Lemma reads_uint16 v : reads read_uint16 [v / 256; v mod 256] v.
Proof.
  intros pre post. unfold read_uint16, unpack_from_H. cbn [data offset].
  rewrite skipn_pre. cbn [app rbind length]. now rewrite be16_join.
Qed.

Lemma reads_uint32 v :
  reads read_uint32
        [v / 16777216; (v / 65536) mod 256; (v / 256) mod 256; v mod 256] v.
Proof.
  intros pre post. unfold read_uint32, unpack_from_I. cbn [data offset].
  rewrite skipn_pre. cbn [app rbind length]. now rewrite be32_join.
Qed.

(** The raw bytes of a length-prefixed field. *)
Lemma reads_take n e :
  n = length e ->
  reads (value <- peek n ;; advance n ;;; ret value)%reader e e.
Proof.
  intros -> pre post. unfold bind, peek, advance, ret. cbn [data offset].
  now rewrite slice_at.
Qed.

Lemma reads_take_decode n e s :
  n = length e -> utf8_decode e = Ok s ->
  reads (raw <- peek n ;; value <- lift (utf8_decode raw) ;;
         advance n ;;; ret value)%reader e s.
Proof.
  intros -> Hdec pre post. unfold bind, peek, advance, ret, lift.
  cbn [data offset]. now rewrite slice_at, Hdec.
Qed.

Lemma string_codec s :
  string_ok s ->
  exists e, (forall w, write_string s w = Ok (w ++ e))
            /\ reads read_string e s
            /\ len e = string_size s.
Proof.
  intros [Hscalar Hlen].
  destruct (utf8_roundtrip s Hscalar) as (bs & Henc & Hdec & Hbs).
  exists ([len bs / 256; len bs mod 256] ++ bs). repeat split.
  - intros w. unfold write_string, write_uint16. rewrite Henc. cbn [rbind].
    rewrite pack_H_ok by (pose proof (len_nonneg bs); lia).
    cbn [rbind]. now rewrite <- app_assoc.
  - unfold read_string. eapply reads_bind; [apply reads_uint16 |].
    apply reads_take_decode; [now rewrite to_nat_len | exact Hdec].
  - rewrite len_app, Hbs. reflexivity.
Qed.

Lemma bytes_codec b :
  len b <= 4294967295 ->
  exists e, (forall w, write_bytes b w = Ok (w ++ e))
            /\ reads read_bytes e b
            /\ len e = 4 + len b.
Proof.
  intros Hlen.
  exists ([len b / 16777216; (len b / 65536) mod 256; (len b / 256) mod 256;
           len b mod 256] ++ b).
  repeat split.
  - intros w. unfold write_bytes, write_uint32.
    rewrite pack_I_ok by (pose proof (len_nonneg b); lia).
    cbn [rbind]. now rewrite <- app_assoc.
  - unfold read_bytes. eapply reads_bind; [apply reads_uint32 |].
    apply reads_take. now rewrite to_nat_len.
  - rewrite len_app. reflexivity.
Qed.

Lemma uint8_codec v :
  uint8_ok v ->
  (forall w, write_uint8 v w = Ok (w ++ [v])) /\ reads read_uint8 [v] v.
Proof.
  intros Hv. split; [| apply reads_uint8].
  intros w. unfold write_uint8. now rewrite pack_B_ok by exact Hv.
Qed.


Lemma PresenceStatus_of_value s :
  PresenceStatus_of (PresenceStatus_value s) = Ok s.
Proof. now destruct s. Qed.

Lemma AckStatus_of_value s : AckStatus_of (AckStatus_value s) = Ok s.
Proof. now destruct s. Qed.

Lemma ActionCode_of_value a : ActionCode_of (ActionCode_value a) = Ok a.
Proof. now destruct a. Qed.

Lemma ResponseCode_of_value c : ResponseCode_of (ResponseCode_value c) = Ok c.
Proof. now destruct c. Qed.

Lemma Command_of_value c : Command_of (Command_value c) = Ok c.
Proof. now destruct c. Qed.

Lemma Command_value_range c : 0 <= Command_value c <= 65535.
Proof. destruct c; cbn; lia. Qed.

Lemma PresenceStatus_value_range s : uint8_ok (PresenceStatus_value s).
Proof. destruct s; cbn; unfold uint8_ok; lia. Qed.

Lemma AckStatus_value_range s : uint8_ok (AckStatus_value s).
Proof. destruct s; cbn; unfold uint8_ok; lia. Qed.

Lemma ActionCode_value_range a : uint8_ok (ActionCode_value a).
Proof. destruct a; cbn; unfold uint8_ok; lia. Qed.

Lemma ResponseCode_value_range c : uint8_ok (ResponseCode_value c).
Proof. destruct c; cbn; unfold uint8_ok; lia. Qed.

Lemma contacts_codec cs :
  Forall (fun c => string_ok (username c)) cs ->
  exists e, (forall w, write_contacts cs w = Ok (w ++ e))
            /\ reads (read_contacts (length cs)) e cs
            /\ len e = contacts_size cs.
Proof.
  induction 1 as [| c cs' Hc _ IH].
  - exists []. repeat split.
    + intros w. cbn. now rewrite app_nil_r.
    + apply reads_ret.
  - destruct IH as (rest & Hw & Hr & Hl).
    destruct (string_codec _ Hc) as (e & Hwe & Hre & Hle).
    destruct (uint8_codec _ (PresenceStatus_value_range (status c)))
      as [Hws Hrs].
    exists (e ++ [PresenceStatus_value (status c)] ++ rest). repeat split.
    + intros w. cbn [write_contacts]. rewrite Hwe. cbn [rbind].
      rewrite Hws. cbn [rbind]. rewrite Hw. now rewrite <- !app_assoc.
    + cbn [length read_contacts].
      eapply reads_bind; [exact Hre |].
      eapply reads_bind; [exact Hrs |].
      eapply reads_lift; [apply PresenceStatus_of_value |].
      rewrite <- (app_nil_r rest).
      eapply reads_bind; [exact Hr |].
      destruct c. apply reads_ret.
    + rewrite !len_app, Hle, Hl. cbn [contacts_size]. unfold len.
      cbn [length]. lia.
Qed.

Lemma users_codec us :
  Forall string_ok us ->
  exists e, (forall w, write_users us w = Ok (w ++ e))
            /\ reads (read_users (length us)) e us
            /\ len e = users_size us.
Proof.
  induction 1 as [| u us' Hu _ IH].
  - exists []. repeat split.
    + intros w. cbn. now rewrite app_nil_r.
    + apply reads_ret.
  - destruct IH as (rest & Hw & Hr & Hl).
    destruct (string_codec _ Hu) as (e & Hwe & Hre & Hle).
    exists (e ++ rest). repeat split.
    + intros w. cbn [write_users]. rewrite Hwe. cbn [rbind].
      rewrite Hw. now rewrite <- !app_assoc.
    + cbn [length read_users].
      eapply reads_bind; [exact Hre |].
      rewrite <- (app_nil_r rest).
      eapply reads_bind; [exact Hr |].
      apply reads_ret.
    + rewrite !len_app, Hle, Hl. reflexivity.
Qed.

(** Names the encoding of a string field. *)
Ltac str_codec H e :=
  destruct (string_codec _ H) as (e & ?Hw & ?Hr & ?Hl).

Ltac u8_codec H :=
  destruct (uint8_codec _ H) as [?Hw ?Hr].

Ltac reads_steps :=
  repeat first
    [ apply reads_ret
    | eapply reads_bind; [eassumption |]
    | eapply reads_lift;
      [first [ apply PresenceStatus_of_value | apply AckStatus_of_value
             | apply ActionCode_of_value | apply ResponseCode_of_value ] |] ].

Ltac writes_steps :=
  cbn [encode_payload];
  repeat match goal with
    | Hw : forall w, ?f w = Ok _ |- context [?f ?x] =>
        rewrite (Hw x); cbn [rbind]
    end;
  cbn [app]; rewrite <- ?app_assoc, ?app_nil_r; reflexivity.

Ltac len_steps :=
  rewrite ?len_app;
  repeat match goal with H : len _ = _ |- _ => rewrite H; clear H end;
  cbn [payload_size]; unfold len; cbn [length]; lia.

(** The payload of an encodable message: the encoder produces it, the body
    decoder reads the message back from it, and it has the expected size. *)
Lemma utf8_len_nonneg s : 0 <= utf8_len s.
Proof.
  induction s as [| c s IH]; cbn [utf8_len]; [lia |].
  unfold utf8_cp_len. destruct (c <? 128), (c <? 2048), (c <? 65536); lia.
Qed.

Ltac codec_done :=
  split; [reads_steps | split; [intros w; writes_steps | len_steps]].

Lemma payload_codec msg :
  fields_ok msg -> entry_count msg <= 65535 -> payload_size msg <= 4294967295 ->
  exists p, reads (decode_body (command msg)) p msg
            /\ (forall w, encode_payload msg w = Ok (w ++ p))
            /\ len p = payload_size msg.
Proof.
  intros Hf Hcount Hsize.
  destruct msg as [u p | u p | | t c i | f c i ts | i st | c | c | | cs | q
                  | us | u st | a rc m | m | t v | f v | d | u | u d];
    cbn [fields_ok command decode_body entry_count payload_size] in *.
  - (* RegisterMessage *)
    destruct Hf as [Hu Hp]. str_codec Hu eu. str_codec Hp ep.
    exists (eu ++ ep ++ []). codec_done.
  - (* LoginMessage *)
    destruct Hf as [Hu Hp]. str_codec Hu eu. str_codec Hp ep.
    exists (eu ++ ep ++ []). codec_done.
  - (* LogoutMessage *)
    exists []. codec_done.
  - (* SendMsgMessage *)
    destruct Hf as (Ht & Hc & Hi).
    str_codec Ht et. str_codec Hc ec. str_codec Hi ei.
    exists (et ++ ec ++ ei ++ []). codec_done.
  - (* ReceiveMsgMessage *)
    destruct Hf as (Hfr & Hc & Hi & Hts).
    str_codec Hfr ef. str_codec Hc ec. str_codec Hi ei. str_codec Hts ets.
    exists (ef ++ ec ++ ei ++ ets ++ []). codec_done.
  - (* MsgAckMessage *)
    str_codec Hf ei. u8_codec (AckStatus_value_range st).
    exists (ei ++ [AckStatus_value st] ++ []). codec_done.
  - (* AddContactMessage *)
    str_codec Hf ec. exists (ec ++ []). codec_done.
  - (* RemoveContactMessage *)
    str_codec Hf ec. exists (ec ++ []). codec_done.
  - (* ContactListReqMessage *)
    exists []. codec_done.
  - (* ContactListMessage *)
    destruct (contacts_codec cs Hf) as (e & Hw & Hr & Hl).
    exists ([len cs / 256; len cs mod 256] ++ e ++ []).
    split; [| split].
    + eapply reads_bind; [apply reads_uint16 |].
      rewrite to_nat_len. reads_steps.
    + intros w. cbn [encode_payload]. unfold write_uint16.
      rewrite pack_H_ok by (pose proof (len_nonneg cs); lia).
      cbn [rbind]. rewrite Hw. now rewrite <- !app_assoc, app_nil_r.
    + len_steps.
  - (* UserSearchMessage *)
    str_codec Hf eqr. exists (eqr ++ []). codec_done.
  - (* UserSearchResultMessage *)
    destruct (users_codec us Hf) as (e & Hw & Hr & Hl).
    exists ([len us / 256; len us mod 256] ++ e ++ []).
    split; [| split].
    + eapply reads_bind; [apply reads_uint16 |].
      rewrite to_nat_len. reads_steps.
    + intros w. cbn [encode_payload]. unfold write_uint16.
      rewrite pack_H_ok by (pose proof (len_nonneg us); lia).
      cbn [rbind]. rewrite Hw. now rewrite <- !app_assoc, app_nil_r.
    + len_steps.
  - (* PresenceMessage *)
    str_codec Hf eu. u8_codec (PresenceStatus_value_range st).
    exists (eu ++ [PresenceStatus_value st] ++ []). codec_done.
  - (* ResponseMessage *)
    str_codec Hf em.
    u8_codec (ActionCode_value_range a). u8_codec (ResponseCode_value_range rc).
    exists ([ActionCode_value a] ++ [ResponseCode_value rc] ++ em ++ []).
    codec_done.
  - (* ErrorMessage *)
    str_codec Hf em. exists (em ++ []). codec_done.
  - (* EarthquakeSendMessage *)
    destruct Hf as [Ht Hv]. str_codec Ht et. u8_codec Hv.
    exists (et ++ [v] ++ []). codec_done.
  - (* EarthquakeRecvMessage *)
    destruct Hf as [Hfr Hv]. str_codec Hfr ef. u8_codec Hv.
    exists (ef ++ [v] ++ []). codec_done.
  - (* AvatarSetMessage *)
    assert (Hb : len d <= 4294967295) by lia.
    destruct (bytes_codec d Hb) as (e & Hw & Hr & Hl).
    exists (e ++ []). codec_done.
  - (* AvatarGetMessage *)
    str_codec Hf eu. exists (eu ++ []). codec_done.
  - (* AvatarDataMessage *)
    destruct Hf as [Hu _].
    assert (Hb : len d <= 4294967295).
    { pose proof (utf8_len_nonneg u). unfold string_size in Hsize. lia. }
    destruct (bytes_codec d Hb) as (ed & Hwd & Hrd & Hld).
    str_codec Hu eu. exists (eu ++ ed ++ []). codec_done.
Qed.


(** ** Frames *)

Lemma frame_shape (data : bytes) :
  (HEADER_SIZE <= length data)%nat ->
  exists m1 m0 v c1 c0 l3 l2 l1 l0 payload,
    data = m1 :: m0 :: v :: c1 :: c0 :: l3 :: l2 :: l1 :: l0 :: payload.
Proof.
  unfold HEADER_SIZE. intros Hlen.
  do 9 (destruct data as [| ? data]; [cbn [length] in Hlen; lia |]).
  repeat eexists.
Qed.

(** What [decode_message] does with a frame that has a full header. *)
Lemma decode_message_header m1 m0 v c1 c0 l3 l2 l1 l0 payload :
  decode_message (m1 :: m0 :: v :: c1 :: c0 :: l3 :: l2 :: l1 :: l0 :: payload)
  = if negb (bytes_eqb [m1; m0] PROTOCOL_MAGIC) then Raise ValueError
    else if negb (v =? PROTOCOL_VERSION) then Raise ValueError
    else
      rbind (Command_of (c1 * 256 + c0)) (fun cmd =>
      rbind (decode_body cmd
               (mkReader
                  (firstn (Z.to_nat (((l3 * 256 + l2) * 256 + l1) * 256 + l0))
                          payload) 0))
            (fun mr => Ok (Some (fst mr)))).
Proof.
  unfold decode_message, slice, HEADER_SIZE.
  cbn [length Nat.ltb Nat.leb skipn firstn Nat.sub nth unpack_H unpack_I rbind].
  replace (9 + Z.to_nat (((l3 * 256 + l2) * 256 + l1) * 256 + l0) - 9)%nat
    with (Z.to_nat (((l3 * 256 + l2) * 256 + l1) * 256 + l0)) by lia.
  reflexivity.
Qed.

Lemma reads_whole {A} (rd : Reader A) (p : bytes) (a : A) :
  reads rd p a -> rd (mkReader p 0) = Ok (a, mkReader p (length p)).
Proof.
  intros Hr. specialize (Hr [] []). cbn [app length Nat.add] in Hr.
  now rewrite app_nil_r in Hr.
Qed.

Lemma magic_eqb_refl : bytes_eqb [81; 80] PROTOCOL_MAGIC = true.
Proof. reflexivity. Qed.


Lemma encode_message_frame msg p :
  (forall w, encode_payload msg w = Ok (w ++ p)) ->
  len p <= 4294967295 ->
  encode_message msg
  = Ok (81 :: 80 :: 1
        :: Command_value (command msg) / 256
        :: Command_value (command msg) mod 256
        :: len p / 16777216 :: (len p / 65536) mod 256
        :: (len p / 256) mod 256 :: len p mod 256 :: p).
Proof.
  intros Hp Hlen. unfold encode_message.
  rewrite (Hp []). cbn [app rbind].
  rewrite pack_H_ok by apply Command_value_range. cbn [rbind].
  rewrite pack_I_ok by (pose proof (len_nonneg p); lia).
  reflexivity.
Qed.

(** An encodable message does encode. *)
Lemma encode_message_ok msg :
  encodable msg -> exists frame, encode_message msg = Ok frame.
Proof.
  intros (Hf & Hcount & Hsize).
  destruct (payload_codec msg Hf Hcount Hsize) as (p & _ & Hw & Hl).
  eexists. apply (encode_message_frame msg p Hw). lia.
Qed.

(** C1 (as amended).  Every message with valid field values whose list, if
    it carries one, has at most 65535 entries and whose payload takes at
    most 2^32 - 1 bytes encodes to a frame, and decoding that frame gives
    the message back.  Strings and blobs of length zero and strings of
    65535 bytes are among them. *)
Theorem decode_encode_roundtrip msg :
  encodable msg ->
  exists frame,
    encode_message msg = Ok frame /\ decode_message frame = Ok (Some msg).
Proof.
  intros (Hf & Hcount & Hsize).
  destruct (payload_codec msg Hf Hcount Hsize) as (p & Hr & Hw & Hl).
  eexists. split.
  - apply (encode_message_frame msg p Hw). lia.
  - rewrite decode_message_header.
    rewrite magic_eqb_refl. cbn [negb].
    change (1 =? PROTOCOL_VERSION) with true. cbn [negb].
    rewrite be16_join, Command_of_value. cbn [rbind].
    rewrite be32_join, to_nat_len, firstn_all.
    rewrite (reads_whole _ _ _ Hr). reflexivity.
Qed.


Lemma decode_encode_roundtrip_witness :
  encodable demo_contacts
  /\ exists frame,
       encode_message demo_contacts = Ok frame
       /\ decode_message frame = Ok (Some demo_contacts).
Proof.
  assert (He : encodable demo_contacts).
  { unfold encodable, demo_contacts, fields_ok, string_ok, scalar_value.
    cbn. repeat (first [split | constructor]); vm_compute; discriminate. }
  split; [exact He | exact (decode_encode_roundtrip demo_contacts He)].
Defined.

Lemma crowd_fields_ok : fields_ok crowd.
Proof.
  cbn [fields_ok crowd]. apply Forall_forall. intros c Hin.
  apply repeat_spec in Hin. subst c. split; [constructor | cbn; lia].
Qed.

Lemma crowd_not_encoded : encode_message crowd = Raise StructError.
Proof.
  unfold encode_message, crowd. cbn [encode_payload].
  unfold write_uint16, len. rewrite repeat_length. unfold too_many.
  rewrite Z2Nat.id by lia. reflexivity.
Qed.

(** C1, counterexample.  A contact list of 65536 entries has valid field
    values (empty names, status OFFLINE), yet [encode_message] raises on
    it: the count does not fit its two bytes. *)
Lemma roundtrip_fails_on_long_list :
  ~ (forall msg, fields_ok msg ->
       exists frame,
         encode_message msg = Ok frame
         /\ decode_message frame = Ok (Some msg)).
Proof.
  intros Hclaim.
  destruct (Hclaim crowd crowd_fields_ok) as (frame & Henc & _).
  rewrite crowd_not_encoded in Henc. discriminate.
Qed.

(** ** Rejected frames *)

Lemma decode_short_frame data :
  (length data < HEADER_SIZE)%nat -> decode_message data = Ok None.
Proof.
  intros Hlen. unfold decode_message.
  apply Nat.ltb_lt in Hlen. now rewrite Hlen.
Qed.

Lemma decode_wrong_magic data :
  (HEADER_SIZE <= length data)%nat ->
  slice data 0 2 <> PROTOCOL_MAGIC ->
  decode_message data = Raise ValueError.
Proof.
  intros Hlen Hmagic.
  destruct (frame_shape data Hlen)
    as (m1 & m0 & v & c1 & c0 & l3 & l2 & l1 & l0 & p & ->).
  rewrite decode_message_header.
  unfold bytes_eqb. destruct (list_eq_dec Z.eq_dec [m1; m0] PROTOCOL_MAGIC).
  - now exfalso.
  - reflexivity.
Qed.

Lemma decode_wrong_version data :
  (HEADER_SIZE <= length data)%nat ->
  nth 2 data 0 <> PROTOCOL_VERSION ->
  decode_message data = Raise ValueError.
Proof.
  intros Hlen Hversion.
  destruct (frame_shape data Hlen)
    as (m1 & m0 & v & c1 & c0 & l3 & l2 & l1 & l0 & p & ->).
  rewrite decode_message_header. cbn [nth] in Hversion.
  destruct (negb (bytes_eqb [m1; m0] PROTOCOL_MAGIC)); [reflexivity |].
  destruct (Z.eqb_spec v PROTOCOL_VERSION); [now exfalso | reflexivity].
Qed.

Lemma decode_unknown_command data :
  (HEADER_SIZE <= length data)%nat ->
  (forall c, Command_value c <> nth 3 data 0 * 256 + nth 4 data 0) ->
  decode_message data = Raise ValueError.
Proof.
  intros Hlen Hcmd.
  destruct (frame_shape data Hlen)
    as (m1 & m0 & v & c1 & c0 & l3 & l2 & l1 & l0 & p & ->).
  rewrite decode_message_header. cbn [nth] in Hcmd.
  destruct (negb (bytes_eqb [m1; m0] PROTOCOL_MAGIC)); [reflexivity |].
  destruct (negb (v =? PROTOCOL_VERSION)); [reflexivity |].
  unfold Command_of.
  destruct (find _ all_commands) as [c |] eqn:Hfind; [| reflexivity].
  apply find_some in Hfind. destruct Hfind as [_ Heq].
  apply Z.eqb_eq in Heq. now destruct (Hcmd c).
Qed.

(** A short header, a wrong magic, a wrong version or an unknown command
    code never gives a message. *)
Lemma decode_rejects_bad_header data :
  (length data < HEADER_SIZE)%nat
  \/ slice data 0 2 <> PROTOCOL_MAGIC
  \/ nth 2 data 0 <> PROTOCOL_VERSION
  \/ (forall c, Command_value c <> nth 3 data 0 * 256 + nth 4 data 0) ->
  ~ is_message (decode_message data).
Proof.
  intros Hbad [msg Hmsg].
  destruct (Nat.lt_ge_cases (length data) HEADER_SIZE) as [Hshort | Hfull].
  - rewrite (decode_short_frame data Hshort) in Hmsg. discriminate.
  - destruct Hbad as [Hs | [Hm | [Hv | Hc]]].
    + lia.
    + rewrite (decode_wrong_magic data Hfull Hm) in Hmsg. discriminate.
    + rewrite (decode_wrong_version data Hfull Hv) in Hmsg. discriminate.
    + rewrite (decode_unknown_command data Hfull Hc) in Hmsg. discriminate.
Qed.

(** An integer field that is cut short raises: [struct.unpack_from] checks
    the buffer. *)
Lemma skipn_past {A} (l : list A) n : (length l <= n)%nat -> skipn n l = [].
Proof. apply skipn_all2. Qed.

Lemma read_uint8_past r :
  (length (data r) <= offset r)%nat -> read_uint8 r = Raise StructError.
Proof.
  intros Hpast. unfold read_uint8, unpack_from_B.
  now rewrite skipn_past.
Qed.

Lemma read_uint16_past r :
  (length (data r) <= offset r)%nat -> read_uint16 r = Raise StructError.
Proof.
  intros Hpast. unfold read_uint16, unpack_from_H.
  now rewrite skipn_past.
Qed.

Lemma read_uint32_past r :
  (length (data r) <= offset r)%nat -> read_uint32 r = Raise StructError.
Proof.
  intros Hpast. unfold read_uint32, unpack_from_I.
  now rewrite skipn_past.
Qed.

(** Where [read_string] leaves the reader: past the declared length,
    whatever the data held. *)
Lemma read_string_offset r s r' :
  read_string r = Ok (s, r') ->
  exists declared,
    unpack_from_H (data r) (offset r) = Ok declared
    /\ data r' = data r
    /\ offset r' = (offset r + 2 + Z.to_nat declared)%nat.
Proof.
  unfold read_string, bind, read_uint16, peek, lift, advance, ret.
  destruct (unpack_from_H (data r) (offset r)) as [declared |];
    cbn [rbind data offset]; [| discriminate].
  destruct (utf8_decode _); [| discriminate].
  intros E. apply Ok_inj in E. inversion E; subst. eauto.
Qed.

(** X1.  A string whose declared length runs to the end of the data or
    past it is not refused by [read_string] itself: the reader is left at
    or past the end, and the next read of an integer or of a string raises
    [struct.error]. *)
Lemma overrun_caught_by_next_read r s r' declared :
  read_string r = Ok (s, r') ->
  unpack_from_H (data r) (offset r) = Ok declared ->
  (length (data r) <= offset r + 2 + Z.to_nat declared)%nat ->
  read_uint8 r' = Raise StructError
  /\ read_uint16 r' = Raise StructError
  /\ read_string r' = Raise StructError.
Proof.
  intros Hread Hdecl Hover.
  destruct (read_string_offset r s r' Hread) as (d & Hd & Hdata & Hoff).
  rewrite Hdecl in Hd. apply Ok_inj in Hd. subst d.
  assert (Hpast : (length (data r') <= offset r')%nat)
    by (rewrite Hdata, Hoff; exact Hover).
  repeat split.
  - now apply read_uint8_past.
  - now apply read_uint16_past.
  - unfold read_string, bind. now rewrite read_uint16_past.
Qed.

(** C2, the failing inputs.  A frame whose payload declares a 5-byte string
    and holds one byte of it decodes to [ErrorMessage "a"]; a frame that
    declares a 100-byte blob and holds one byte decodes to an
    [AvatarSetMessage] of that byte.  Neither is rejected. *)
Theorem decode_accepts_overrunning_length :
  decode_message short_error_frame = Ok (Some (ErrorMessage [97]))
  /\ decode_message short_avatar_frame = Ok (Some (AvatarSetMessage [7])).
Proof. split; reflexivity. Qed.

End CodecProofs.

Module WireProofs.
Import Protocol CodecProofs.

(** ** What the decoder returns is valid *)

Lemma in_range_spec lo hi b : in_range lo hi b = true <-> lo <= b <= hi.
Proof.
  unfold in_range. rewrite andb_true_iff, !Z.leb_le. tauto.
Qed.

Lemma rmap_cons_inv c (r : result pystr) s :
  rmap (cons c) r = Ok s -> exists s', r = Ok s' /\ s = c :: s'.
Proof.
  destruct r as [s' |]; cbn; [| discriminate].
  intros E. apply Ok_inj in E. eauto.
Qed.

Lemma scalar_below_surrogates c : 0 <= c < 55296 -> scalar_value c.
Proof.
  intros Hc. split; [lia |].
  unfold is_surrogate. apply andb_false_iff. left. apply Z.leb_gt. lia.
Qed.

Lemma scalar_above_surrogates c : 57343 < c <= 1114111 -> scalar_value c.
Proof.
  intros Hc. split; [lia |].
  unfold is_surrogate. apply andb_false_iff. right. apply Z.leb_gt. lia.
Qed.

(** The strict decoder yields scalar values only, and as many bytes went in
    as their UTF-8 forms take. *)
Lemma utf8_decode_valid_upto n : forall bs s,
  (length bs <= n)%nat ->
  utf8_decode bs = Ok s ->
  Forall scalar_value s /\ utf8_len s = len bs.
Proof.
  induction n as [| n IH]; intros bs s Hn Hdec.
  - destruct bs; [| cbn [length] in Hn; lia].
    cbn in Hdec. apply Ok_inj in Hdec. subst s. now split.
  - destruct bs as [| b0 t0].
    { cbn in Hdec. apply Ok_inj in Hdec. subst s. now split. }
    cbn [utf8_decode] in Hdec. cbn [length] in Hn.
    destruct (in_range 0 127 b0) eqn:R1.
    { apply in_range_spec in R1.
      apply rmap_cons_inv in Hdec. destruct Hdec as (s' & Hs' & ->).
      destruct (IH t0 s' ltac:(lia) Hs') as [Hall Hlen].
      split.
      - constructor; [apply scalar_below_surrogates; lia | exact Hall].
      - cbn [utf8_len]. rewrite Hlen. unfold utf8_cp_len, len. cbn [length].
        destruct (Z.ltb_spec b0 128); lia. }
    destruct (in_range 194 223 b0) eqn:R2.
    { apply in_range_spec in R2.
      destruct t0 as [| b1 t1]; [discriminate |].
      unfold is_cont in Hdec.
      destruct (in_range 128 191 b1) eqn:C1; [| discriminate].
      apply in_range_spec in C1.
      apply rmap_cons_inv in Hdec. destruct Hdec as (s' & Hs' & ->).
      cbn [length] in Hn.
      destruct (IH t1 s' ltac:(lia) Hs') as [Hall Hlen].
      split.
      - constructor; [apply scalar_below_surrogates; lia | exact Hall].
      - cbn [utf8_len]. rewrite Hlen. unfold utf8_cp_len, len. cbn [length].
        destruct (Z.ltb_spec ((b0 - 192) * 64 + (b1 - 128)) 128);
          destruct (Z.ltb_spec ((b0 - 192) * 64 + (b1 - 128)) 2048); lia. }
    destruct (in_range 224 239 b0) eqn:R3.
    { apply in_range_spec in R3.
      destruct t0 as [| b1 [| b2 t2]]; try discriminate.
      unfold is_cont in Hdec.
      destruct (in_range _ _ b1) eqn:C1; [| discriminate].
      destruct (in_range 128 191 b2) eqn:C2; [| discriminate].
      apply in_range_spec in C1. apply in_range_spec in C2.
      cbn [andb] in Hdec.
      apply rmap_cons_inv in Hdec. destruct Hdec as (s' & Hs' & ->).
      cbn [length] in Hn.
      destruct (IH t2 s' ltac:(lia) Hs') as [Hall Hlen].
      set (c := ((b0 - 224) * 64 + (b1 - 128)) * 64 + (b2 - 128)).
      assert (Hc : 2048 <= c < 55296 \/ 57343 < c <= 65535).
      { subst c.
        destruct (Z.eqb_spec b0 224); destruct (Z.eqb_spec b0 237); lia. }
      split.
      - constructor; [| exact Hall].
        destruct Hc; [apply scalar_below_surrogates
                     | apply scalar_above_surrogates]; lia.
      - cbn [utf8_len]. rewrite Hlen. unfold utf8_cp_len, len. cbn [length].
        fold c.
        destruct (Z.ltb_spec c 128); destruct (Z.ltb_spec c 2048);
          destruct (Z.ltb_spec c 65536); lia. }
    destruct (in_range 240 244 b0) eqn:R4; [| discriminate].
    apply in_range_spec in R4.
    destruct t0 as [| b1 [| b2 [| b3 t3]]]; try discriminate.
    unfold is_cont in Hdec.
    destruct (in_range _ _ b1) eqn:C1; [| discriminate].
    destruct (in_range 128 191 b2) eqn:C2; [| discriminate].
    destruct (in_range 128 191 b3) eqn:C3; [| discriminate].
    apply in_range_spec in C1. apply in_range_spec in C2.
    apply in_range_spec in C3.
    cbn [andb] in Hdec.
    apply rmap_cons_inv in Hdec. destruct Hdec as (s' & Hs' & ->).
    cbn [length] in Hn.
    destruct (IH t3 s' ltac:(lia) Hs') as [Hall Hlen].
    set (c := (((b0 - 240) * 64 + (b1 - 128)) * 64 + (b2 - 128)) * 64
              + (b3 - 128)).
    assert (Hc : 65536 <= c <= 1114111).
    { subst c.
      destruct (Z.eqb_spec b0 240); destruct (Z.eqb_spec b0 244); lia. }
    split.
    + constructor; [apply scalar_above_surrogates; lia | exact Hall].
    + cbn [utf8_len]. rewrite Hlen. unfold utf8_cp_len, len. cbn [length].
      fold c.
      destruct (Z.ltb_spec c 128); destruct (Z.ltb_spec c 2048);
        destruct (Z.ltb_spec c 65536); lia.
Qed.

Lemma utf8_decode_valid bs s :
  utf8_decode bs = Ok s -> Forall scalar_value s /\ utf8_len s = len bs.
Proof. apply (utf8_decode_valid_upto (length bs)). lia. Qed.


Lemma bytes_ok_skipn n (l : bytes) : bytes_ok l -> bytes_ok (skipn n l).
Proof.
  unfold bytes_ok. revert l. induction n as [| n IH]; intros l Hl; [exact Hl |].
  destruct l as [| b l]; [constructor |].
  cbn [skipn]. apply IH. now inversion Hl.
Qed.

Lemma bytes_ok_firstn n (l : bytes) : bytes_ok l -> bytes_ok (firstn n l).
Proof.
  unfold bytes_ok. revert l. induction n as [| n IH]; intros l Hl;
    [constructor |].
  destruct l as [| b l]; [constructor |].
  cbn [firstn]. inversion Hl; subst. constructor; [assumption | now apply IH].
Qed.

Lemma bytes_ok_slice (l : bytes) a b : bytes_ok l -> bytes_ok (slice l a b).
Proof.
  intros Hl. unfold slice. now apply bytes_ok_firstn, bytes_ok_skipn.
Qed.

Lemma len_slice_le {A} (l : list A) a n :
  len (slice l a (a + n)) <= Z.of_nat n.
Proof.
  unfold slice, len. replace (a + n - a)%nat with n by lia.
  pose proof (firstn_le_length n (skipn a l)). lia.
Qed.

Lemma len_slice_le_data {A} (l : list A) a b : len (slice l a b) <= len l.
Proof.
  unfold slice, len. rewrite length_firstn, length_skipn. lia.
Qed.

Lemma unpack_from_B_range d off v :
  bytes_ok d -> unpack_from_B d off = Ok v -> 0 <= v <= 255.
Proof.
  intros Hd. unfold unpack_from_B.
  pose proof (bytes_ok_skipn off d Hd) as Hs.
  destruct (skipn off d) as [| b0 t]; [discriminate |].
  intros E. apply Ok_inj in E. subst v. now inversion Hs.
Qed.

Lemma unpack_from_H_range d off v :
  bytes_ok d -> unpack_from_H d off = Ok v -> 0 <= v <= 65535.
Proof.
  intros Hd. unfold unpack_from_H.
  pose proof (bytes_ok_skipn off d Hd) as Hs.
  destruct (skipn off d) as [| b1 [| b0 t]]; try discriminate.
  intros E. apply Ok_inj in E. subst v.
  inversion Hs as [| ? ? H1 Hs']; subst. inversion Hs' as [| ? ? H0 _]; subst.
  unfold is_byte in *. lia.
Qed.

(** *** Inverting the reader monad *)

Lemma bind_inv {A B} (m : Reader A) (k : A -> Reader B) r b r' :
  bind m k r = Ok (b, r') ->
  exists a r1, m r = Ok (a, r1) /\ k a r1 = Ok (b, r').
Proof.
  unfold bind. destruct (m r) as [[a r1] |]; [eauto | discriminate].
Qed.

Lemma ret_inv {A} (a b : A) r r' : ret a r = Ok (b, r') -> b = a /\ r' = r.
Proof. unfold ret. intros E. apply Ok_inj in E. now inversion E. Qed.

Lemma lift_inv {A} (x : result A) a r r' :
  lift x r = Ok (a, r') -> x = Ok a /\ r' = r.
Proof.
  unfold lift. destruct x; [| discriminate].
  intros E. apply Ok_inj in E. now inversion E.
Qed.

Lemma read_uint8_inv r v r' :
  read_uint8 r = Ok (v, r') ->
  unpack_from_B (data r) (offset r) = Ok v /\ data r' = data r.
Proof.
  unfold read_uint8. destruct (unpack_from_B _ _); cbn [rbind]; [| discriminate].
  intros E. apply Ok_inj in E. now inversion E.
Qed.

Lemma read_uint16_inv r v r' :
  read_uint16 r = Ok (v, r') ->
  unpack_from_H (data r) (offset r) = Ok v /\ data r' = data r.
Proof.
  unfold read_uint16. destruct (unpack_from_H _ _); cbn [rbind]; [| discriminate].
  intros E. apply Ok_inj in E. now inversion E.
Qed.

(** A string that was read is valid, whatever else the data holds. *)
Lemma read_string_valid r s r' :
  bytes_ok (data r) ->
  read_string r = Ok (s, r') ->
  string_ok s /\ data r' = data r.
Proof.
  intros Hd Hread. unfold read_string in Hread.
  apply bind_inv in Hread. destruct Hread as (n & r1 & Hn & Hread).
  apply read_uint16_inv in Hn. destruct Hn as [Hn Hd1].
  apply (unpack_from_H_range _ _ _ Hd) in Hn.
  apply bind_inv in Hread. destruct Hread as (raw & r2 & Hraw & Hread).
  unfold peek in Hraw. apply Ok_inj in Hraw. inversion Hraw; subst raw r2.
  apply bind_inv in Hread. destruct Hread as (v & r3 & Hv & Hread).
  apply lift_inv in Hv. destruct Hv as [Hv ->].
  apply bind_inv in Hread. destruct Hread as ([] & r4 & Hadv & Hread).
  unfold advance in Hadv. apply Ok_inj in Hadv. inversion Hadv; subst r4.
  apply ret_inv in Hread. destruct Hread as [-> ->].
  cbn [data]. split; [| exact Hd1].
  destruct (utf8_decode_valid _ _ Hv) as [Hall Hlen].
  split; [exact Hall |].
  rewrite Hlen. pose proof (len_slice_le (data r1) (offset r1) (Z.to_nat n)).
  lia.
Qed.

Lemma read_bytes_valid r b r' :
  read_bytes r = Ok (b, r') ->
  len b <= len (data r) /\ data r' = data r.
Proof.
  intros Hread. unfold read_bytes in Hread.
  apply bind_inv in Hread. destruct Hread as (n & r1 & Hn & Hread).
  unfold read_uint32 in Hn.
  destruct (unpack_from_I _ _); cbn [rbind] in Hn; [| discriminate].
  apply Ok_inj in Hn. inversion Hn; subst n r1. clear Hn.
  apply bind_inv in Hread. destruct Hread as (raw & r2 & Hraw & Hread).
  unfold peek in Hraw. apply Ok_inj in Hraw. inversion Hraw; subst raw r2.
  apply bind_inv in Hread. destruct Hread as ([] & r4 & Hadv & Hread).
  unfold advance in Hadv. apply Ok_inj in Hadv. inversion Hadv; subst r4.
  apply ret_inv in Hread. destruct Hread as [-> ->].
  cbn [data offset]. split; [apply len_slice_le_data | reflexivity].
Qed.

Lemma read_uint8_valid r v r' :
  bytes_ok (data r) ->
  read_uint8 r = Ok (v, r') -> uint8_ok v /\ data r' = data r.
Proof.
  intros Hd Hread. apply read_uint8_inv in Hread.
  destruct Hread as [Hv Hd']. split; [| exact Hd'].
  exact (unpack_from_B_range _ _ _ Hd Hv).
Qed.

Lemma read_contacts_valid n : forall r cs r',
  bytes_ok (data r) ->
  read_contacts n r = Ok (cs, r') ->
  Forall (fun c => string_ok (username c)) cs /\ data r' = data r.
Proof.
  induction n as [| n IH]; intros r cs r' Hd Hread; cbn [read_contacts] in Hread.
  - apply ret_inv in Hread. destruct Hread as [-> ->]. now split.
  - apply bind_inv in Hread. destruct Hread as (name & r1 & Hname & Hread).
    destruct (read_string_valid _ _ _ Hd Hname) as [Hok Hd1].
    apply bind_inv in Hread. destruct Hread as (st & r2 & Hst & Hread).
    apply read_uint8_inv in Hst. destruct Hst as [_ Hd2].
    apply bind_inv in Hread. destruct Hread as (st' & r3 & Hst' & Hread).
    apply lift_inv in Hst'. destruct Hst' as [_ ->].
    apply bind_inv in Hread. destruct Hread as (rest & r4 & Hrest & Hread).
    apply ret_inv in Hread. destruct Hread as [-> ->].
    assert (Hd2' : bytes_ok (data r2)) by (rewrite Hd2, Hd1; exact Hd).
    destruct (IH _ _ _ Hd2' Hrest) as [Hall Hd4].
    split; [constructor; assumption | congruence].
Qed.

Lemma read_users_valid n : forall r us r',
  bytes_ok (data r) ->
  read_users n r = Ok (us, r') ->
  Forall string_ok us /\ data r' = data r.
Proof.
  induction n as [| n IH]; intros r us r' Hd Hread; cbn [read_users] in Hread.
  - apply ret_inv in Hread. destruct Hread as [-> ->]. now split.
  - apply bind_inv in Hread. destruct Hread as (u & r1 & Hu & Hread).
    destruct (read_string_valid _ _ _ Hd Hu) as [Hok Hd1].
    apply bind_inv in Hread. destruct Hread as (rest & r4 & Hrest & Hread).
    apply ret_inv in Hread. destruct Hread as [-> ->].
    assert (Hd1' : bytes_ok (data r1)) by (rewrite Hd1; exact Hd).
    destruct (IH _ _ _ Hd1' Hrest) as [Hall Hd4].
    split; [constructor; assumption | congruence].
Qed.

(** Peels the reads off a successful run of a decoder, keeping what is
    known about each value read. *)
Ltac peel Hd :=
  repeat match goal with
    | H : bind _ _ _ = Ok _ |- _ =>
        let a := fresh "a" in
        let r1 := fresh "r" in
        let Ha := fresh "Ha" in
        apply bind_inv in H; destruct H as (a & r1 & Ha & H)
    | H : ret _ _ = Ok _ |- _ =>
        apply ret_inv in H; destruct H as [-> ->]
    | H : lift _ _ = Ok _ |- _ =>
        apply lift_inv in H; destruct H as [? ->]
    | H : read_string ?r = Ok (_, ?r') |- _ =>
        let Hs := fresh "Hs" in
        let Hr := fresh "Hr" in
        assert (Hr : bytes_ok (data r)) by congruence;
        destruct (read_string_valid _ _ _ Hr H) as [Hs ?]; clear H
    | H : read_uint8 ?r = Ok (_, ?r') |- _ =>
        let Hs := fresh "Hs" in
        let Hr := fresh "Hr" in
        assert (Hr : bytes_ok (data r)) by congruence;
        destruct (read_uint8_valid _ _ _ Hr H) as [Hs ?]; clear H
    | H : read_uint16 ?r = Ok (_, ?r') |- _ =>
        apply read_uint16_inv in H; destruct H as [_ ?]
    | H : read_bytes ?r = Ok (_, ?r') |- _ =>
        apply read_bytes_valid in H; destruct H as [? ?]
    | H : read_contacts _ ?r = Ok (_, ?r') |- _ =>
        let Hr := fresh "Hr" in
        assert (Hr : bytes_ok (data r)) by congruence;
        destruct (read_contacts_valid _ _ _ _ Hr H) as [? ?]; clear H
    | H : read_users _ ?r = Ok (_, ?r') |- _ =>
        let Hr := fresh "Hr" in
        assert (Hr : bytes_ok (data r)) by congruence;
        destruct (read_users_valid _ _ _ _ Hr H) as [? ?]; clear H
    end.

(** Every decoded body has valid fields. *)
Lemma decode_body_fields_ok cmd r msg r' :
  bytes_ok (data r) ->
  len (data r) <= MAX_MESSAGE_SIZE ->
  decode_body cmd r = Ok (msg, r') ->
  fields_ok msg.
Proof.
  intros Hd Hmax Hdec.
  destruct cmd; cbn [decode_body] in Hdec; peel Hd;
    try discriminate; cbn [fields_ok]; unfold blob_ok;
    repeat match goal with |- _ /\ _ => split end;
    try assumption; try exact I;
    try (repeat match goal with H : data _ = data _ |- _ => rewrite H in * end;
         lia).
Qed.


(** Every decoded frame of at most the maximal size has valid fields: what
    a handler is given satisfies what the encoder asks of a string. *)
Lemma decode_message_fields_ok frame msg :
  bytes_ok frame ->
  len frame <= Z.of_nat HEADER_SIZE + MAX_MESSAGE_SIZE ->
  decode_message frame = Ok (Some msg) ->
  fields_ok msg.
Proof.
  intros Hok Hmax Hdec.
  destruct (Nat.lt_ge_cases (length frame) HEADER_SIZE) as [Hshort | Hfull].
  { rewrite (decode_short_frame frame Hshort) in Hdec. discriminate. }
  destruct (frame_shape frame Hfull)
    as (m1 & m0 & v & c1 & c0 & l3 & l2 & l1 & l0 & p & ->).
  rewrite decode_message_header in Hdec.
  destruct (negb (bytes_eqb [m1; m0] PROTOCOL_MAGIC)); [discriminate |].
  destruct (negb (v =? PROTOCOL_VERSION)); [discriminate |].
  destruct (Command_of (c1 * 256 + c0)) as [cmd |]; [| discriminate].
  cbn [rbind] in Hdec.
  destruct (decode_body cmd _) as [[msg' r'] |] eqn:Hbody; [| discriminate].
  cbn [rbind fst] in Hdec. apply Ok_inj in Hdec. inversion Hdec; subst msg'.
  apply (decode_body_fields_ok _ _ _ _) with (3 := Hbody); cbn [data].
  - apply bytes_ok_firstn.
    unfold bytes_ok in *. do 9 (inversion Hok as [| ? ? _ Hok']; subst;
                                clear Hok; rename Hok' into Hok).
    exact Hok.
  - unfold len in *. cbn [length] in Hmax. unfold HEADER_SIZE in Hmax.
    rewrite length_firstn. lia.
Qed.

(** ** Receiving *)

Lemma sock_recv_ok k sock chunk sock' :
  Forall bytes_ok sock ->
  sock_recv k sock = (chunk, sock') ->
  bytes_ok chunk /\ (length chunk <= k)%nat /\ Forall bytes_ok sock'.
Proof.
  intros Hsock. unfold sock_recv.
  destruct sock as [| c rest].
  - intros E. inversion E; subst.
    split; [constructor | split; [cbn [length]; lia | constructor]].
  - inversion Hsock as [| ? ? Hc Hrest]; subst.
    destruct (Nat.leb_spec (length c) k) as [Hle | Hgt]; intros E;
      inversion E; subst.
    + now repeat split.
    + repeat split.
      * now apply bytes_ok_firstn.
      * apply firstn_le_length.
      * constructor; [now apply bytes_ok_skipn | exact Hrest].
Qed.

Lemma recv_exactly_loop_ok fuel : forall n acc sock bs sock',
  (length acc <= n)%nat ->
  bytes_ok acc ->
  Forall bytes_ok sock ->
  recv_exactly_loop fuel n acc sock = (Some bs, sock') ->
  bytes_ok bs /\ length bs = n /\ Forall bytes_ok sock'.
Proof.
  induction fuel as [| fuel IH]; intros n acc sock bs sock' Hlen Hacc Hsock;
    cbn [recv_exactly_loop];
    destruct (Nat.ltb_spec (length acc) n) as [Hlt | Hge].
  - discriminate.
  - intros E. inversion E; subst. repeat split; [assumption | lia | assumption].
  - destruct (sock_recv (n - length acc) sock) as [chunk sock1] eqn:Hrecv.
    destruct (sock_recv_ok _ _ _ _ Hsock Hrecv) as (Hchunk & Hk & Hsock1).
    destruct chunk as [| b chunk']; [discriminate |].
    apply IH.
    + rewrite length_app. lia.
    + unfold bytes_ok in *. now apply Forall_app.
    + exact Hsock1.
  - intros E. inversion E; subst. repeat split; [assumption | lia | assumption].
Qed.

Lemma recv_exactly_ok sock n bs sock' :
  Forall bytes_ok sock ->
  _recv_exactly sock n = (Some bs, sock') ->
  bytes_ok bs /\ length bs = n /\ Forall bytes_ok sock'.
Proof.
  intros Hsock. unfold _recv_exactly.
  apply recv_exactly_loop_ok; [cbn; lia | constructor | exact Hsock].
Qed.

(** What [recv_message] hands to the read loop was decoded from a frame of
    bytes within the size limit, so its fields are valid. *)
Lemma recv_message_fields_ok sock msg sock' :
  Forall bytes_ok sock ->
  recv_message sock = (Ok (Some msg), sock') ->
  fields_ok msg.
Proof.
  intros Hsock. unfold recv_message.
  destruct (_recv_exactly sock HEADER_SIZE) as [[header |] sock1] eqn:Hhead;
    [| discriminate].
  destruct (recv_exactly_ok _ _ _ _ Hsock Hhead) as (Hh & Hhlen & Hsock1).
  destruct (falsy (Some header)); [discriminate |].
  destruct (negb (bytes_eqb _ _)); [discriminate |].
  destruct (unpack_I (slice header 5 9)) as [plen | e];
    [| unfold recv_except; destruct (recv_catches e); discriminate].
  destruct (Z.ltb_spec MAX_MESSAGE_SIZE plen) as [Hbig | Hsmall];
    [discriminate |].
  destruct (Z.ltb_spec 0 plen) as [Hpos | Hzero].
  - destruct (_recv_exactly sock1 (Z.to_nat plen)) as [[payload |] sock2]
      eqn:Hpay; cbn [andb falsy].
    + destruct (recv_exactly_ok _ _ _ _ Hsock1 Hpay) as (Hp & Hplen & _).
      destruct payload as [| b payload']; [discriminate |].
      intros E. inversion E as [[Hdec Hs]]. clear E.
      unfold recv_except in Hdec.
      destruct (decode_message (header ++ b :: payload')) as [[m |] | e] eqn:Hd;
        try discriminate; [| destruct (recv_catches e); discriminate].
      apply Ok_inj in Hdec. inversion Hdec; subst m.
      apply (decode_message_fields_ok _ _) with (3 := Hd).
      * unfold bytes_ok in *. now apply Forall_app.
      * unfold len. rewrite length_app, Hhlen, Hplen. lia.
    + discriminate.
  - cbn [andb]. intros E. inversion E as [[Hdec Hs]]. clear E.
    unfold recv_except in Hdec.
    destruct (decode_message (header ++ [])) as [[m |] | e] eqn:Hd;
      try discriminate; [| destruct (recv_catches e); discriminate].
    apply Ok_inj in Hdec. inversion Hdec; subst m.
    apply (decode_message_fields_ok _ _) with (3 := Hd).
    + unfold bytes_ok in *. apply Forall_app. split; [exact Hh | constructor].
    + unfold len. rewrite length_app, Hhlen. cbn [length].
      unfold MAX_MESSAGE_SIZE. lia.
Qed.

(** A chunk of just the size asked for is what [_recv_exactly] returns. *)
Lemma recv_exactly_whole_chunk chunk rest :
  chunk <> [] ->
  _recv_exactly (chunk :: rest) (length chunk) = (Some chunk, rest).
Proof.
  intros Hne. unfold _recv_exactly. cbn [Nat.add recv_exactly_loop].
  destruct (Nat.ltb_spec (@length Z []) (length chunk)) as [_ | Hle];
    [| destruct chunk; [contradiction | cbn [length] in Hle; lia]].
  unfold sock_recv. cbn [length]. rewrite Nat.sub_0_r, Nat.leb_refl.
  destruct chunk as [| b chunk']; [contradiction |].
  cbn [app]. set (fuel := (length (b :: chunk') + _)%nat).
  destruct fuel; cbn [recv_exactly_loop]; now rewrite Nat.ltb_irrefl.
Qed.

(** A frame that announces more than the maximal payload is dropped
    without its payload being read. *)
Lemma recv_message_oversize header rest :
  length header = HEADER_SIZE ->
  (exists plen, unpack_I (slice header 5 9) = Ok plen
                /\ MAX_MESSAGE_SIZE < plen) ->
  recv_message (header :: rest) = (Ok None, rest).
Proof.
  intros Hlen (plen & Hplen & Hbig). unfold recv_message.
  rewrite <- Hlen. rewrite recv_exactly_whole_chunk
    by (intros ->; discriminate Hlen).
  destruct header as [| b header']; [discriminate Hlen |].
  cbn [falsy].
  destruct (negb (bytes_eqb _ _)); [reflexivity |].
  rewrite Hplen. apply Z.ltb_lt in Hbig. now rewrite Hbig.
Qed.

(** ** [recv_message] always returns *)

(** More fuel than the stream has chunks changes nothing: the loop of
    [_recv_exactly] ends of its own. *)
Lemma recv_exactly_fuel fuel : forall fuel' n acc sock,
  (length sock < fuel)%nat -> (length sock < fuel')%nat ->
  (length acc <= n)%nat ->
  recv_exactly_loop fuel n acc sock = recv_exactly_loop fuel' n acc sock.
Proof.
  induction fuel as [| fuel IH]; intros fuel' n acc sock Hf Hf' Hacc;
    [lia |].
  destruct fuel' as [| fuel']; [lia |].
  cbn [recv_exactly_loop].
  destruct (Nat.ltb_spec (length acc) n) as [Hlt | Hge]; [| reflexivity].
  unfold sock_recv. destruct sock as [| chunk rest]; [reflexivity |].
  cbn [length] in Hf, Hf'.
  destruct (Nat.leb_spec (length chunk) (n - length acc)) as [Hle | Hgt].
  - destruct chunk as [| b chunk']; [reflexivity |].
    apply IH; [lia | lia | rewrite length_app; lia].
  - destruct (firstn (n - length acc) chunk) as [| b chunk'] eqn:Hfirst;
      [reflexivity |].
    assert (Hfull : length (acc ++ b :: chunk') = n).
    { rewrite length_app, <- Hfirst, length_firstn. lia. }
    destruct fuel, fuel'; cbn [recv_exactly_loop];
      rewrite Hfull, Nat.ltb_irrefl; reflexivity.
Qed.

Lemma utf8_decode_raises bs e :
  utf8_decode bs = Raise e -> e = UnicodeDecodeError.
Proof.
  remember (length bs) as n eqn:Hn.
  assert (Hle : (length bs <= n)%nat) by lia. clear Hn.
  revert bs Hle. induction n as [| n IH]; intros bs Hle.
  - destruct bs; [discriminate | cbn [length] in Hle; lia].
  - destruct bs as [| b0 t0]; [discriminate |].
    cbn [length] in Hle. cbn [utf8_decode].
    assert (Htail : forall c t, (length t <= n)%nat ->
              rmap (cons c) (utf8_decode t) = Raise e ->
              e = UnicodeDecodeError).
    { intros c t Ht. destruct (utf8_decode t) as [s |] eqn:Hd; cbn.
      - discriminate.
      - intros E. inversion E; subst. now apply (IH t). }
    destruct (in_range 0 127 b0); [apply Htail; lia |].
    destruct (in_range 194 223 b0).
    { destruct t0 as [| b1 t1]; [congruence |].
      destruct (is_cont b1); [| congruence].
      apply Htail. cbn [length] in Hle. lia. }
    destruct (in_range 224 239 b0).
    { destruct t0 as [| b1 [| b2 t2]]; try congruence.
      destruct (_ && _); [| congruence].
      apply Htail. cbn [length] in Hle. lia. }
    destruct (in_range 240 244 b0); [| congruence].
    destruct t0 as [| b1 [| b2 [| b3 t3]]]; try congruence.
    destruct (_ && _); [| congruence].
    apply Htail. cbn [length] in Hle. lia.
Qed.

Lemma caught_bind {A B} (m : Reader A) (k : A -> Reader B) :
  raises_caught m -> (forall a, raises_caught (k a)) ->
  raises_caught (bind m k).
Proof.
  intros Hm Hk r e. unfold bind.
  destruct (m r) as [[a r1] | e1] eqn:Hmr.
  - apply Hk.
  - intros E. inversion E; subst. exact (Hm r e Hmr).
Qed.

Lemma caught_ret {A} (a : A) : raises_caught (ret a).
Proof. intros r e. discriminate. Qed.

Lemma caught_peek n : raises_caught (peek n).
Proof. intros r e. discriminate. Qed.

Lemma caught_advance n : raises_caught (advance n).
Proof. intros r e. discriminate. Qed.

Lemma caught_lift {A} (x : result A) :
  (forall e, x = Raise e -> recv_catches e = true) -> raises_caught (lift x).
Proof.
  intros Hx r e. unfold lift. destruct x as [a | e1]; [discriminate |].
  intros E. inversion E; subst. now apply Hx.
Qed.

Lemma caught_read_uint8 : raises_caught read_uint8.
Proof.
  intros r e. unfold read_uint8, unpack_from_B.
  destruct (skipn _ _); cbn [rbind]; [| discriminate].
  now intros [= <-].
Qed.

Lemma caught_read_uint16 : raises_caught read_uint16.
Proof.
  intros r e. unfold read_uint16, unpack_from_H.
  destruct (skipn _ _) as [| b1 [| b0 t]]; cbn [rbind];
    try discriminate; now intros [= <-].
Qed.

Lemma caught_read_uint32 : raises_caught read_uint32.
Proof.
  intros r e. unfold read_uint32, unpack_from_I.
  destruct (skipn _ _) as [| b3 [| b2 [| b1 [| b0 t]]]]; cbn [rbind];
    try discriminate; now intros [= <-].
Qed.

Lemma caught_read_string : raises_caught read_string.
Proof.
  unfold read_string.
  apply caught_bind; [apply caught_read_uint16 | intros n].
  apply caught_bind; [apply caught_peek | intros raw].
  apply caught_bind.
  - apply caught_lift. intros e He.
    now rewrite (utf8_decode_raises raw e He).
  - intros v. apply caught_bind; [apply caught_advance | intros _].
    apply caught_ret.
Qed.

Lemma caught_read_bytes : raises_caught read_bytes.
Proof.
  unfold read_bytes.
  apply caught_bind; [apply caught_read_uint32 | intros n].
  apply caught_bind; [apply caught_peek | intros raw].
  apply caught_bind; [apply caught_advance | intros _].
  apply caught_ret.
Qed.

Lemma caught_enum {A} (x : result A) :
  x = Raise ValueError \/ (exists a, x = Ok a) -> raises_caught (lift x).
Proof.
  intros Hx. apply caught_lift. intros e He.
  destruct Hx as [-> | [a ->]]; [| discriminate].
  now inversion He.
Qed.

Lemma PresenceStatus_of_cases v :
  PresenceStatus_of v = Raise ValueError
  \/ exists a, PresenceStatus_of v = Ok a.
Proof.
  unfold PresenceStatus_of. destruct (v =? 0); [eauto |].
  destruct (v =? 1); eauto.
Qed.

Lemma AckStatus_of_cases v :
  AckStatus_of v = Raise ValueError \/ exists a, AckStatus_of v = Ok a.
Proof.
  unfold AckStatus_of.
  destruct (v =? 0); [eauto |]. destruct (v =? 1); [eauto |].
  destruct (v =? 2); [eauto |]. destruct (v =? 3); eauto.
Qed.

Lemma ActionCode_of_cases v :
  ActionCode_of v = Raise ValueError \/ exists a, ActionCode_of v = Ok a.
Proof.
  unfold ActionCode_of.
  destruct (v =? 1); [eauto |]. destruct (v =? 2); [eauto |].
  destruct (v =? 3); [eauto |]. destruct (v =? 4); [eauto |].
  destruct (v =? 5); [eauto |]. destruct (v =? 6); eauto.
Qed.

Lemma ResponseCode_of_cases v :
  ResponseCode_of v = Raise ValueError \/ exists a, ResponseCode_of v = Ok a.
Proof.
  unfold ResponseCode_of. destruct (v =? 0); [eauto |].
  destruct (v =? 1); eauto.
Qed.

Ltac caught_steps :=
  repeat first
    [ apply caught_ret
    | apply caught_read_string | apply caught_read_bytes
    | apply caught_read_uint8 | apply caught_read_uint16
    | apply caught_enum;
      first [ apply PresenceStatus_of_cases | apply AckStatus_of_cases
            | apply ActionCode_of_cases | apply ResponseCode_of_cases
            | now left ]
    | assumption
    | lazymatch goal with
      | |- raises_caught (bind _ _) => apply caught_bind; [| intros ?]
      end ].

Lemma caught_read_contacts n : raises_caught (read_contacts n).
Proof. induction n as [| n IH]; cbn [read_contacts]; caught_steps. Qed.

Lemma caught_read_users n : raises_caught (read_users n).
Proof. induction n as [| n IH]; cbn [read_users]; caught_steps. Qed.

Lemma caught_decode_body cmd : raises_caught (decode_body cmd).
Proof.
  destruct cmd; cbn [decode_body]; caught_steps;
    first [apply caught_read_contacts | apply caught_read_users].
Qed.

(** What [decode_message] raises is what [recv_message] catches. *)
Lemma decode_message_raises frame e :
  decode_message frame = Raise e -> recv_catches e = true.
Proof.
  destruct (Nat.lt_ge_cases (length frame) HEADER_SIZE) as [Hshort | Hfull].
  { rewrite (decode_short_frame frame Hshort). discriminate. }
  destruct (frame_shape frame Hfull)
    as (m1 & m0 & v & c1 & c0 & l3 & l2 & l1 & l0 & p & ->).
  rewrite decode_message_header.
  destruct (negb _); [now intros [= <-] |].
  destruct (negb _); [now intros [= <-] |].
  unfold Command_of. destruct (find _ _) as [cmd |]; cbn [rbind];
    [| now intros [= <-]].
  destruct (decode_body cmd _) as [[msg r'] | e'] eqn:Hbody; cbn [rbind];
    [discriminate |].
  intros [= <-]. exact (caught_decode_body cmd _ _ Hbody).
Qed.

(** X2.  [recv_message] returns a message or [None] and never raises,
    whatever the socket delivers: what [_recv_exactly], [struct.unpack] and
    [decode_message] raise is caught by its [except] clause. *)
Lemma recv_message_returns sock :
  exists r sock', recv_message sock = (Ok r, sock').
Proof.
  unfold recv_message.
  destruct (_recv_exactly sock HEADER_SIZE) as [[header |] sock1]; [| eauto].
  destruct (falsy (Some header)); [eauto |].
  destruct (negb _); [eauto |].
  destruct (unpack_I _) as [plen | e] eqn:Hplen.
  - destruct (MAX_MESSAGE_SIZE <? plen); [eauto |].
    destruct (if 0 <? plen then _ else _) as [payload sock2].
    destruct (_ && _); [eauto |].
    destruct payload as [payload |]; [| eauto].
    unfold recv_except.
    destruct (decode_message _) as [m | e] eqn:Hdec; [eauto |].
    rewrite (decode_message_raises _ _ Hdec). eauto.
  - unfold recv_except.
    assert (e = StructError) as ->.
    { unfold unpack_I in Hplen.
      destruct (slice header 5 9) as [| ? [| ? [| ? [| ? [| ? ?]]]]];
        now inversion Hplen. }
    cbn. eauto.
Qed.

End WireProofs.

(* ================================================================== *)
(** * Part IV.  Properties of the server                               *)
(* ================================================================== *)

Module ServerProofs.
Import Protocol Server CodecProofs.
Local Open Scope server_scope.

(** ** Strings *)

Lemma str_eqb_eq a b : str_eqb a b = true <-> a = b.
Proof.
  unfold str_eqb. destruct (list_eq_dec Z.eq_dec a b); split; congruence.
Qed.

Lemma str_eqb_refl a : str_eqb a a = true.
Proof. now apply str_eqb_eq. Qed.

Lemma str_eqb_neq a b : str_eqb a b = false <-> a <> b.
Proof.
  unfold str_eqb. destruct (list_eq_dec Z.eq_dec a b); split; congruence.
Qed.

(** ** Messages the server builds are encodable *)

Lemma ascii_string_ok (l : pystr) :
  Forall (fun c => 0 <= c <= 127) l -> len l <= 65535 -> string_ok l.
Proof.
  intros Hall Hlen. split.
  - eapply Forall_impl; [| exact Hall]. intros c Hc. cbn beta in Hc.
    split; [lia |].
    unfold is_surrogate. apply andb_false_iff. left. apply Z.leb_gt. lia.
  - assert (Hsame : utf8_len l = len l).
    { clear Hlen. induction Hall as [| c l Hc _ IH]; [reflexivity |].
      cbn [utf8_len]. rewrite IH. unfold utf8_cp_len, len. cbn [length].
      destruct (Z.ltb_spec c 128); lia. }
    lia.
Qed.

Lemma lit_ok_check s :
  forallb (fun c => (0 <=? c) && (c <=? 127)) (lit s) = true ->
  (len (lit s) <=? 65535) = true ->
  string_ok (lit s).
Proof.
  intros Hascii Hlen. apply Z.leb_le in Hlen. rewrite forallb_forall in Hascii.
  apply ascii_string_ok; [| exact Hlen].
  apply Forall_forall. intros c Hin. specialize (Hascii c Hin).
  apply andb_true_iff in Hascii. now rewrite !Z.leb_le in Hascii.
Qed.

Ltac lit_ok := apply lit_ok_check; reflexivity.

Ltac string_bounds :=
  repeat match goal with
    | H : string_ok ?s |- _ =>
        lazymatch goal with
        | _ : utf8_len s <= 65535 |- _ => fail
        | _ => pose proof (proj2 H)
        end
    end.

(** Closes [exists frame, encode_message msg = Ok frame] for a message
    without a list or a blob whose strings are known to be valid. *)
Ltac sendable :=
  apply encode_message_ok; unfold encodable;
  cbn [fields_ok entry_count payload_size]; unfold string_size, uint8_ok;
  string_bounds;
  repeat match goal with |- _ /\ _ => split end; try assumption; try lia.

Lemma response_sendable a c m :
  string_ok m -> exists frame, encode_message (ResponseMessage a c m) = Ok frame.
Proof. intros Hm. sendable. Qed.

Lemma error_sendable m :
  string_ok m -> exists frame, encode_message (ErrorMessage m) = Ok frame.
Proof. intros Hm. sendable. Qed.

Lemma ack_sendable i st :
  string_ok i -> exists frame, encode_message (MsgAckMessage i st) = Ok frame.
Proof. intros Hi. sendable. Qed.

Lemma receive_sendable f c i ts :
  string_ok f -> string_ok c -> string_ok i -> string_ok ts ->
  exists frame, encode_message (ReceiveMsgMessage f c i ts) = Ok frame.
Proof. intros Hf Hc Hi Hts. sendable. Qed.

Lemma presence_sendable u st :
  string_ok u -> exists frame, encode_message (PresenceMessage u st) = Ok frame.
Proof. intros Hu. sendable. Qed.

Lemma earthquake_recv_sendable f v :
  string_ok f -> 0 <= v <= 255 ->
  exists frame, encode_message (EarthquakeRecvMessage f v) = Ok frame.
Proof. intros Hf Hv. sendable. Qed.


Section Basics.
Context `{Environment}.

Lemma logged_nil w : logged w [] = w.
Proof. destruct w. unfold logged. cbn. now rewrite app_nil_r. Qed.

Lemma logged_logged w a b : logged (logged w a) b = logged w (a ++ b).
Proof. unfold logged. cbn. now rewrite app_assoc. Qed.

Lemma emit_run e w : emit e w = (Ok tt, logged w [e]).
Proof. reflexivity. Qed.

Lemma send_run to msg w :
  (exists frame, encode_message msg = Ok frame) ->
  send to msg w = (Ok (sock_ok w to), logged w [EvSend to msg (sock_ok w to)]).
Proof. intros [frame Hframe]. unfold send. now rewrite Hframe. Qed.

Lemma send_raises to msg w e :
  encode_message msg = Raise e -> send to msg w = (Raise e, w).
Proof. intros Hframe. unfold send. now rewrite Hframe. Qed.

Lemma registry_get_run name w :
  registry_get name w
  = (Ok (dict_get (clients w) name), logged w [EvLookup name]).
Proof. reflexivity. Qed.

Lemma registry_contains_run name w :
  registry_contains name w
  = (Ok (dict_contains (clients w) name), logged w [EvLookup name]).
Proof. reflexivity. Qed.

(** ** Sending a message *)

(** What [_handle_send_msg] does on an authenticated session, effect by
    effect, in each of its three cases. *)
Lemma send_msg_run w s u to content msg_id :
  authenticated (sessions w s) = true ->
  username (sessions w s) = Some u ->
  string_ok u -> string_ok content -> string_ok msg_id ->
  (forall n, string_ok (now_isoformat n)) ->
  let recipient := strip to in
  let ack st := EvSend s (MsgAckMessage msg_id st) (sock_ok w s) in
  (str_empty recipient || str_empty content = true ->
   _handle_send_msg s to content msg_id w
   = (Ok tt, logged w [ack INVALID_MESSAGE]))
  /\ (str_empty recipient || str_empty content = false ->
      forall rs, dict_get (clients w) recipient = Some rs ->
      _handle_send_msg s to content msg_id w
      = (Ok tt,
         logged w
           [EvLookup recipient;
            EvSend rs
              (ReceiveMsgMessage u content msg_id
                 (now_isoformat (length (log w) + 1)))
              (sock_ok w rs);
            ack (if sock_ok w rs then DELIVERED else DELIVERY_FAILED)]))
  /\ (str_empty recipient || str_empty content = false ->
      dict_get (clients w) recipient = None ->
      _handle_send_msg s to content msg_id w
      = (Ok tt, logged w [EvLookup recipient; ack USER_OFFLINE])).
Proof.
  intros Hauth Hname Hu Hcontent Hid Hclock recipient ack.
  unfold _handle_send_msg, mbind, get_session. rewrite Hauth. cbn [negb].
  fold recipient.
  split; [| split].
  - intros Hempty. rewrite Hempty.
    rewrite send_run by (apply ack_sendable; exact Hid). reflexivity.
  - intros Hfull rs Hrs. rewrite Hfull, registry_get_run, Hrs.
    unfold now, send_named. rewrite Hname.
    cbn [log logged]. rewrite length_app. cbn [length].
    rewrite send_run
      by (apply receive_sendable; [exact Hu | exact Hcontent | exact Hid
                                  | apply Hclock]).
    cbn [sock_ok logged].
    rewrite send_run by (apply ack_sendable; exact Hid).
    unfold mret. rewrite !logged_logged. reflexivity.
  - intros Hfull Hnone. rewrite Hfull, registry_get_run, Hnone.
    rewrite send_run by (apply ack_sendable; exact Hid).
    unfold mret. rewrite !logged_logged. reflexivity.
Qed.

(** ** The earthquake signal *)

(** What [_handle_earthquake] does on an authenticated session. *)
Lemma earthquake_run w s u to intensity :
  authenticated (sessions w s) = true ->
  username (sessions w s) = Some u ->
  string_ok u ->
  let recipient := strip to in
  let forward rs :=
    EvSend rs (EarthquakeRecvMessage u (Z.max 1 (Z.min 10 intensity)))
           (sock_ok w rs) in
  (forall rs, dict_get (clients w) recipient = Some rs ->
     _handle_earthquake s to intensity w
     = (Ok tt, logged w [EvLookup recipient; forward rs])
     /\ (sock_ok w rs = false ->
         delivered_to s [EvLookup recipient; forward rs] = []))
  /\ (dict_get (clients w) recipient = None ->
      _handle_earthquake s to intensity w
      = (Ok tt,
         logged w
           [EvLookup recipient;
            EvSend s (ErrorMessage (lit "User is offline")) (sock_ok w s)])).
Proof.
  intros Hauth Hname Hu recipient forward.
  unfold _handle_earthquake, mbind, get_session. rewrite Hauth. cbn [negb].
  fold recipient. rewrite registry_get_run.
  split.
  - intros rs Hrs. split.
    + rewrite Hrs. unfold send_named. rewrite Hname.
      rewrite send_run by (apply earthquake_recv_sendable; [exact Hu | lia]).
      unfold mret. rewrite !logged_logged. reflexivity.
    + intros Hfail. subst forward. cbn [delivered_to flat_map app].
      now rewrite Hfail.
  - intros Hnone. rewrite Hnone.
    rewrite send_run by (apply error_sendable; lit_ok).
    unfold mret. rewrite !logged_logged. reflexivity.
Qed.

(** ** The registry as a dict *)

Lemma dict_count_absent d k : ~ In k (map fst d) -> dict_count d k = 0%nat.
Proof.
  unfold dict_count. induction d as [| [k' v] d IH]; [reflexivity |].
  cbn [map fst In filter]. intros Hnot.
  destruct (str_eqb k' k) eqn:Heq.
  - apply str_eqb_eq in Heq. tauto.
  - apply IH. tauto.
Qed.

Lemma dict_count_present d k :
  dict_wf d -> dict_contains d k = true -> dict_count d k = 1%nat.
Proof.
  unfold dict_wf, dict_contains, dict_count.
  induction d as [| [k' v] d IH]; cbn [map fst dict_get filter].
  - discriminate.
  - intros Hwf Hin. inversion Hwf as [| ? ? Hfresh Hwf']; subst.
    destruct (str_eqb k' k) eqn:Heq.
    + apply str_eqb_eq in Heq. subst k'. cbn [length].
      f_equal. now apply dict_count_absent.
    + now apply IH.
Qed.

Lemma dict_set_absent d k v :
  dict_contains d k = false -> dict_set d k v = d ++ [(k, v)].
Proof.
  unfold dict_contains. induction d as [| [k' v'] d IH]; [reflexivity |].
  cbn [dict_get dict_set app]. destruct (str_eqb k' k); [discriminate |].
  intros Habs. now rewrite IH.
Qed.

Lemma dict_get_keys d k : dict_contains d k = true <-> In k (map fst d).
Proof.
  unfold dict_contains. induction d as [| [k' v'] d IH]; cbn [dict_get map fst In].
  - split; [discriminate | tauto].
  - destruct (str_eqb k' k) eqn:Heq.
    + apply str_eqb_eq in Heq. tauto.
    + apply str_eqb_neq in Heq. rewrite IH. tauto.
Qed.

Lemma dict_set_keys d k v :
  map fst (dict_set d k v)
  = if dict_contains d k then map fst d else map fst d ++ [k].
Proof.
  unfold dict_contains. induction d as [| [k' v'] d IH]; [reflexivity |].
  cbn [dict_get dict_set]. destruct (str_eqb k' k); [reflexivity |].
  cbn [map fst]. rewrite IH. now destruct (dict_get d k).
Qed.

Lemma dict_wf_set d k v : dict_wf d -> dict_wf (dict_set d k v).
Proof.
  unfold dict_wf. intros Hwf. rewrite dict_set_keys.
  destruct (dict_contains d k) eqn:Hin; [exact Hwf |].
  apply NoDup_app; [exact Hwf | repeat constructor; intros [] |].
  intros x Hx [<- | []].
  apply dict_get_keys in Hx. congruence.
Qed.

Lemma dict_del_keys_incl d k x :
  In x (map fst (dict_del d k)) -> In x (map fst d).
Proof.
  induction d as [| [k' v'] d IH]; [tauto |].
  cbn [dict_del]. destruct (str_eqb k' k); cbn [map fst In]; tauto.
Qed.

Lemma dict_wf_del d k : dict_wf d -> dict_wf (dict_del d k).
Proof.
  unfold dict_wf. induction d as [| [k' v'] d IH]; [trivial |].
  cbn [dict_del map fst]. intros Hwf.
  inversion Hwf as [| ? ? Hfresh Hwf']; subst.
  destruct (str_eqb k' k); [exact Hwf' |].
  cbn [map fst]. constructor; [| now apply IH].
  intros Hin. apply Hfresh. eapply dict_del_keys_incl. exact Hin.
Qed.

Lemma dict_del_removes d k :
  dict_wf d -> dict_contains (dict_del d k) k = false.
Proof.
  unfold dict_wf, dict_contains.
  induction d as [| [k' v'] d IH]; [reflexivity |].
  cbn [dict_del map fst]. intros Hwf.
  inversion Hwf as [| ? ? Hfresh Hwf']; subst.
  destruct (str_eqb k' k) eqn:Heq.
  - apply str_eqb_eq in Heq. subst k'.
    destruct (dict_get d k) eqn:Hget; [| reflexivity].
    exfalso. apply Hfresh. apply dict_get_keys.
    unfold dict_contains. now rewrite Hget.
  - cbn [dict_get]. rewrite Heq. now apply IH.
Qed.

(** ** Presence broadcast *)

Lemma broadcast_loop_run d own msg w :
  (exists frame, encode_message msg = Ok frame) ->
  broadcast_loop d own msg w = (Ok tt, logged w (presence_events w d own msg)).
Proof.
  intros Hmsg. revert w.
  induction d as [| [k c] d IH]; intros w.
  - cbn. now rewrite logged_nil.
  - cbn [broadcast_loop]. unfold mbind, presence_events.
    cbn [filter fst snd]. destruct (str_eqb k own); cbn [negb].
    + unfold mret. apply IH.
    + rewrite (send_run c msg w Hmsg). unfold mret.
      rewrite IH, logged_logged. reflexivity.
Qed.

(** The broadcast for a session that is logged in as [u]: one send, in
    registry order, to every entry whose key is not [u], whatever the
    sends return. *)
Lemma broadcast_presence_run w s u st :
  authenticated (sessions w s) = true ->
  username (sessions w s) = Some u ->
  string_ok u ->
  _broadcast_presence s st w
  = (Ok tt, logged w (presence_events w (clients w) u (PresenceMessage u st))).
Proof.
  intros Hauth Hname Hu.
  unfold _broadcast_presence, mbind, get_session, get_clients.
  rewrite Hauth, Hname. cbn [negb].
  apply broadcast_loop_run. now apply presence_sendable.
Qed.

(** ** Login *)

Lemma login_collision_run w s mu mp :
  dict_contains (clients w) (strip mu) = true ->
  _handle_login s mu mp w
  = (Ok tt,
     logged w
       [EvLookup (strip mu);
        EvSend s (ResponseMessage LOGIN FAIL (lit "User already logged in"))
               (sock_ok w s)]).
Proof.
  intros Hin. unfold _handle_login, mbind.
  rewrite registry_contains_run, Hin.
  rewrite send_run by (apply response_sendable; lit_ok).
  unfold mret. now rewrite logged_logged.
Qed.

Lemma login_after_check_failure w s u mp :
  (forall id, store_authenticate (db w) u mp <> AuthMatch id) ->
  exists reason,
    login_after_check s u mp w
    = (Ok tt,
       logged w [EvAuthenticate u false;
                 EvSend s (ResponseMessage LOGIN FAIL reason) (sock_ok w s)]).
Proof.
  intros Hfail. unfold login_after_check, mbind, authenticate_user.
  destruct (store_authenticate (db w) u mp) as [id | | |] eqn:Hauth;
    [now destruct (Hfail id) | | |];
    eexists; rewrite emit_run; cbn [fst snd];
    (rewrite send_run by (apply response_sendable; lit_ok));
    unfold mret; cbn [sock_ok logged]; rewrite logged_logged; reflexivity.
Qed.

Lemma login_after_check_success w s u mp id :
  string_ok u ->
  store_authenticate (db w) u mp = AuthMatch id ->
  let w' := mkWorld (db w)
              (fun s' => if Nat.eqb s' s then mkSession (Some u) (Some id) true
                         else sessions w s')
              (dict_set (clients w) u s) (sock_ok w) (log w) in
  login_after_check s u mp w
  = (Ok tt,
     logged w'
       ([EvAuthenticate u true; EvInsert u s;
         EvSend s (ResponseMessage LOGIN SUCCESS (lit "Login successful"))
                (sock_ok w s)]
        ++ presence_events w (dict_set (clients w) u s) u
             (PresenceMessage u ONLINE))).
Proof.
  intros Hu Hauth w'. unfold login_after_check, mbind, authenticate_user.
  rewrite Hauth. rewrite emit_run. cbn [fst snd].
  unfold set_session, registry_set, mbind, get_clients, set_clients.
  rewrite emit_run. cbn [db sessions clients sock_ok log logged].
  rewrite send_run by (apply response_sendable; lit_ok).
  rewrite (broadcast_presence_run _ s u ONLINE);
    [| cbn [sessions logged]; now rewrite Nat.eqb_refl ..| exact Hu].
  unfold logged, presence_events. cbn [db sessions clients sock_ok log].
  subst w'. cbn [db sessions clients sock_ok log].
  now rewrite <- !app_assoc.
Qed.


(** ** Commands before login *)

Lemma not_authenticated_run w s :
  not_authenticated s w
  = (Ok tt,
     logged w [EvSend s (ErrorMessage (lit "Not authenticated")) (sock_ok w s)]).
Proof.
  unfold not_authenticated, mbind.
  now rewrite send_run by (apply error_sendable; lit_ok).
Qed.

(** ** Cleanup *)

(** What [_cleanup_session] does for a session logged in as [u]: the entry
    for [u] is removed when there is one, OFFLINE goes to the entries that
    are left (those with a key other than [u]), the socket is closed. *)
Lemma cleanup_run w s u :
  authenticated (sessions w s) = true ->
  username (sessions w s) = Some u ->
  u <> [] ->
  string_ok u ->
  let d' := if dict_contains (clients w) u then dict_del (clients w) u
            else clients w in
  _cleanup_session s w
  = (Ok tt,
     mkWorld (db w) (sessions w) d'
       (fun s' => if Nat.eqb s' s then false else sock_ok w s')
       (log w
        ++ EvLookup u
           :: (if dict_contains (clients w) u then [EvRemove u] else [])
        ++ presence_events w d' u (PresenceMessage u OFFLINE)
        ++ [EvClose s])).
Proof.
  intros Hauth Hname Hne Hu d'.
  unfold _cleanup_session, mbind, get_session.
  rewrite Hname, Hauth.
  destruct u as [| c u']; [now destruct Hne |].
  cbn [str_empty negb andb].
  rewrite registry_contains_run. subst d'.
  destruct (dict_contains (clients w) (c :: u')).
  - unfold registry_del, mbind, get_clients, set_clients.
    rewrite emit_run. cbn [db sessions clients sock_ok log logged].
    rewrite (broadcast_presence_run _ s (c :: u') OFFLINE);
      [| exact Hauth | exact Hname | exact Hu].
    unfold close, logged, presence_events.
    cbn [db sessions clients sock_ok log].
    do 2 f_equal. rewrite <- !app_assoc. reflexivity.
  - unfold mret.
    rewrite (broadcast_presence_run _ s (c :: u') OFFLINE);
      [| exact Hauth | exact Hname | exact Hu].
    unfold close, logged, presence_events.
    cbn [db sessions clients sock_ok log].
    do 2 f_equal. rewrite <- !app_assoc. reflexivity.
Qed.

(** A session that never logged in is only closed. *)
Lemma cleanup_unauthenticated w s :
  authenticated (sessions w s) = false ->
  _cleanup_session s w
  = (Ok tt,
     mkWorld (db w) (sessions w) (clients w)
       (fun s' => if Nat.eqb s' s then false else sock_ok w s')
       (log w ++ [EvClose s])).
Proof.
  intros Hauth. unfold _cleanup_session, mbind, get_session.
  rewrite Hauth. now destruct (username (sessions w s)).
Qed.

(** The cleanup runs after the loop however the loop was left: by a
    logout, by [recv_message] returning [None], or by an exception. *)
Lemma handle_client_cleans_up s inbox w :
  _handle_client s inbox w
  = let '(r, w1) := read_loop s inbox w in
    match _cleanup_session s w1 with
    | (Ok _, w2) => (Ok tt, w2)
    | (Raise e, w2) => (Raise e, w2)
    end.
Proof.
  unfold _handle_client, try_finally, try_except.
  destruct (read_loop s inbox w) as [[[] | e] w1];
    now destruct (_cleanup_session s w1) as [[[] | e'] w2].
Qed.

End Basics.

End ServerProofs.

Module InvariantProofs.
Import Protocol Server CodecProofs ServerProofs.
Local Open Scope server_scope.

(** ** [strip] keeps a string valid *)

Lemma utf8_cp_len_pos c : 0 < utf8_cp_len c.
Proof.
  unfold utf8_cp_len. destruct (c <? 128), (c <? 2048), (c <? 65536); lia.
Qed.

Lemma utf8_len_app a b : utf8_len (a ++ b) = utf8_len a + utf8_len b.
Proof.
  induction a as [| c a IH]; cbn [app utf8_len]; [reflexivity | lia].
Qed.

Lemma utf8_len_rev s : utf8_len (rev s) = utf8_len s.
Proof.
  induction s as [| c s IH]; [reflexivity |].
  cbn [rev]. rewrite utf8_len_app, IH. cbn [utf8_len]. lia.
Qed.

Lemma lstrip_ok s :
  Forall scalar_value s ->
  Forall scalar_value (lstrip s) /\ utf8_len (lstrip s) <= utf8_len s.
Proof.
  induction 1 as [| c s Hc Hs IH]; cbn [lstrip utf8_len].
  - split; [constructor | lia].
  - destruct (is_space c).
    + pose proof (utf8_cp_len_pos c). split; [apply IH | lia].
    + split; [now constructor | cbn [utf8_len]; lia].
Qed.

Lemma strip_ok s : string_ok s -> string_ok (strip s).
Proof.
  intros [Hall Hlen]. unfold strip.
  destruct (lstrip_ok s Hall) as [H1 L1].
  destruct (lstrip_ok (rev (lstrip s)) (Forall_rev H1)) as [H2 L2].
  split.
  - now apply Forall_rev.
  - rewrite utf8_len_rev. rewrite utf8_len_rev in L2. lia.
Qed.

(** ** Invariants of the server state *)

Section Invariants.
Context `{Environment}.

Lemma stable_ret {A} (a : A) : stable (mret a).
Proof. intros w Hw. exact Hw. Qed.

Lemma stable_raise {A} e : stable (@raise _ A e).
Proof. intros w Hw. exact Hw. Qed.

Lemma stable_bind {A B} (m : M A) (k : A -> M B) :
  stable m -> (forall a, stable (k a)) -> stable (mbind m k).
Proof.
  intros Hm Hk w Hw. unfold mbind.
  specialize (Hm w Hw). destruct (m w) as [[a | e] w1]; cbn [snd] in *.
  - now apply Hk.
  - exact Hm.
Qed.

(** An effect that leaves sessions and registry alone. *)
Lemma stable_frame {A} (m : M A) :
  (forall w, sessions (snd (m w)) = sessions w
             /\ clients (snd (m w)) = clients w) ->
  stable m.
Proof.
  intros Hframe w (Hwf & Hnames & Hauth). destruct (Hframe w) as [Hs Hc].
  unfold server_inv, names_ok, auth_named. now rewrite Hc, Hs.
Qed.

Lemma stable_emit e : stable (emit e).
Proof. now apply stable_frame. Qed.

Lemma stable_send to msg : stable (send to msg).
Proof.
  apply stable_frame. intros w. unfold send.
  now destruct (encode_message msg).
Qed.

Lemma stable_send_named to name mk : stable (send_named to name mk).
Proof.
  unfold send_named. destruct name; [apply stable_send | apply stable_raise].
Qed.

Lemma stable_get_session s : stable (get_session s).
Proof. now apply stable_frame. Qed.

Lemma stable_get_clients : stable get_clients.
Proof. now apply stable_frame. Qed.

Lemma stable_now : stable now.
Proof. now apply stable_frame. Qed.

Lemma stable_close s : stable (close s).
Proof. now apply stable_frame. Qed.

Lemma stable_registry_contains name : stable (registry_contains name).
Proof. now apply stable_frame. Qed.

Lemma stable_registry_get name : stable (registry_get name).
Proof. now apply stable_frame. Qed.

Lemma stable_registry_set name s : stable (registry_set name s).
Proof.
  intros w [Hwf Hrest]. split; [| exact Hrest].
  cbn. now apply dict_wf_set.
Qed.

Lemma stable_registry_del name : stable (registry_del name).
Proof.
  intros w [Hwf Hrest]. split; [| exact Hrest].
  cbn. now apply dict_wf_del.
Qed.

Lemma stable_set_session s u uid :
  string_ok u -> stable (set_session s (mkSession (Some u) uid true)).
Proof.
  intros Hu w (Hwf & Hnames & Hauth). split; [exact Hwf | split].
  - intros s' u'. cbn [set_session snd sessions].
    destruct (Nat.eqb s' s).
    + cbn [username]. intros E. inversion E; subst. exact Hu.
    + apply Hnames.
  - intros s'. cbn [set_session snd sessions].
    destruct (Nat.eqb s' s).
    + cbn [username]. eauto.
    + apply Hauth.
Qed.

Lemma stable_register_user u p : stable (register_user u p).
Proof.
  apply stable_frame. intros w. unfold register_user.
  now destruct (store_register (db w) u p).
Qed.

Lemma stable_authenticate_user u p : stable (authenticate_user u p).
Proof. now apply stable_frame. Qed.

Lemma stable_add_contact uid c : stable (add_contact uid c).
Proof.
  apply stable_frame. intros w. unfold add_contact.
  now destruct (store_add_contact (db w) uid c).
Qed.

Lemma stable_remove_contact uid c : stable (remove_contact uid c).
Proof.
  apply stable_frame. intros w. unfold remove_contact.
  now destruct (store_remove_contact (db w) uid c).
Qed.

Lemma stable_get_contacts uid : stable (get_contacts uid).
Proof. now apply stable_frame. Qed.

Lemma stable_search_users q uid : stable (search_users q uid).
Proof. now apply stable_frame. Qed.

Lemma stable_set_avatar uid d : stable (set_avatar uid d).
Proof.
  apply stable_frame. intros w. unfold set_avatar.
  now destruct (store_set_avatar (db w) uid d).
Qed.

Lemma stable_get_avatar u : stable (get_avatar u).
Proof. now apply stable_frame. Qed.

Lemma stable_try_except m : stable m -> stable (try_except m).
Proof.
  intros Hm w Hw. unfold try_except. specialize (Hm w Hw).
  now destruct (m w) as [[[] | e] w1].
Qed.

Lemma stable_try_finally {A} (m : M A) f :
  stable m -> stable f -> stable (try_finally m f).
Proof.
  intros Hm Hf w Hw. unfold try_finally. specialize (Hm w Hw).
  destruct (m w) as [r w1]. cbn [snd] in Hm. specialize (Hf w1 Hm).
  now destruct (f w1) as [[[] | e] w2].
Qed.

End Invariants.

(** Decomposes a handler into its effects; [extra] closes the calls of
    other handlers. *)
Ltac stable_step extra :=
  cbv beta;
  lazymatch goal with
  | |- stable (mbind _ _) => apply stable_bind; [| intros ?]
  | |- stable (mret _) => apply stable_ret
  | |- stable (raise _) => apply stable_raise
  | |- stable (if ?b then _ else _) => destruct b
  | |- stable (match ?x with _ => _ end) => destruct x
  | |- stable (emit _) => apply stable_emit
  | |- stable (send _ _) => apply stable_send
  | |- stable (send_named _ _ _) => apply stable_send_named
  | |- stable (get_session _) => apply stable_get_session
  | |- stable get_clients => apply stable_get_clients
  | |- stable now => apply stable_now
  | |- stable (close _) => apply stable_close
  | |- stable (registry_contains _) => apply stable_registry_contains
  | |- stable (registry_get _) => apply stable_registry_get
  | |- stable (registry_set _ _) => apply stable_registry_set
  | |- stable (registry_del _) => apply stable_registry_del
  | |- stable (register_user _ _) => apply stable_register_user
  | |- stable (authenticate_user _ _) => apply stable_authenticate_user
  | |- stable (add_contact _ _) => apply stable_add_contact
  | |- stable (remove_contact _ _) => apply stable_remove_contact
  | |- stable (get_contacts _) => apply stable_get_contacts
  | |- stable (search_users _ _) => apply stable_search_users
  | |- stable (set_avatar _ _) => apply stable_set_avatar
  | |- stable (get_avatar _) => apply stable_get_avatar
  | |- stable _ => extra
  end.

Ltac stable_steps extra := repeat (stable_step extra).

Section HandlerInvariants.
Context `{Environment}.

Lemma stable_broadcast_loop d own msg : stable (broadcast_loop d own msg).
Proof.
  induction d as [| [k c] d IH]; cbn [broadcast_loop];
    stable_steps ltac:(exact IH).
Qed.

Lemma stable_broadcast_presence s st : stable (_broadcast_presence s st).
Proof.
  unfold _broadcast_presence.
  stable_steps ltac:(apply stable_broadcast_loop).
Qed.

Lemma stable_cleanup s : stable (_cleanup_session s).
Proof.
  unfold _cleanup_session.
  stable_steps ltac:(apply stable_broadcast_presence).
Qed.

Lemma stable_contact_statuses names : stable (contact_statuses names).
Proof.
  induction names as [| n names IH]; cbn [contact_statuses];
    stable_steps ltac:(exact IH).
Qed.

Lemma stable_not_authenticated s : stable (not_authenticated s).
Proof. unfold not_authenticated. stable_steps fail. Qed.

Lemma stable_get_contacts_handler s : stable (_handle_get_contacts s).
Proof.
  unfold _handle_get_contacts.
  stable_steps ltac:(first [ apply stable_contact_statuses
                           | apply stable_not_authenticated ]).
Qed.

Lemma stable_login_after_check s u p :
  string_ok u -> stable (login_after_check s u p).
Proof.
  intros Hu. unfold login_after_check.
  stable_steps ltac:(first [ apply stable_set_session; exact Hu
                           | apply stable_broadcast_presence ]).
Qed.

Lemma stable_dispatch s msg : fields_ok msg -> stable (dispatch s msg).
Proof.
  intros Hmsg.
  destruct msg; cbn [dispatch fields_ok] in *;
    unfold _handle_register, _handle_login, _handle_logout, _handle_send_msg,
           _handle_add_contact, _handle_remove_contact, _handle_search_user,
           _handle_earthquake, _handle_avatar_set, _handle_avatar_get;
    stable_steps ltac:(first [ apply stable_get_contacts_handler
                             | apply stable_not_authenticated
                             | apply stable_login_after_check;
                               apply strip_ok; apply Hmsg ]).
Qed.

Lemma stable_read_loop s inbox : inbox_ok inbox -> stable (read_loop s inbox).
Proof.
  induction 1 as [| [msg |] inbox Hmsg _ IH]; cbn [read_loop].
  - apply stable_ret.
  - apply stable_bind; [now apply stable_dispatch |].
    intros _. destruct (breaks msg); [apply stable_ret | exact IH].
  - apply stable_ret.
Qed.

(** Whatever a connection receives off the wire, its run leaves the
    registry a dict and the login names encodable. *)
Lemma stable_handle_client s inbox :
  inbox_ok inbox -> stable (_handle_client s inbox).
Proof.
  intros Hinbox. unfold _handle_client.
  apply stable_try_finally; [| apply stable_cleanup].
  apply stable_try_except. now apply stable_read_loop.
Qed.

End HandlerInvariants.

(** Every state the server gets into satisfies the invariant: the registry
    holds a name once, login names are valid strings, and an authenticated
    session has a name. *)
Lemma reachable_inv `{Environment} w : reachable w -> server_inv w.
Proof.
  induction 1
    as [w Hclients Hsessions | w s msg _ IH Hmsg | w s _ IH | w ok _ IH].
  - split; [| split].
    + unfold dict_wf. rewrite Hclients. constructor.
    + intros s u. rewrite Hsessions. discriminate.
    + intros s. rewrite Hsessions. discriminate.
  - exact (stable_dispatch s msg Hmsg w IH).
  - exact (stable_cleanup s w IH).
  - exact IH.
Qed.

Lemma fresh_world_reachable : reachable MemStore.fresh_world.
Proof. now apply reach_start. Qed.

End InvariantProofs.

(* ================================================================== *)
(** * Part V.  The handlers in the states the server gets into        *)
(* ================================================================== *)

Module ServerClaims.
Import Protocol Server CodecProofs ServerProofs InvariantProofs.
Local Open Scope server_scope.

Section Requests.
Context `{Environment}.

(** C3.  A send-message request received on an authenticated session, in
    any state the server gets into: with an empty (stripped) recipient or
    an empty content the sender is acked INVALID_MESSAGE and the registry
    is not looked at; with the recipient in the registry one
    receive-message event carrying the sender's name, the content, the
    same [msg_id] and the server's timestamp goes to the recipient's
    session, and the sender is acked DELIVERED when that write went
    through and DELIVERY_FAILED when it did not; with the recipient not in
    the registry the sender is acked USER_OFFLINE and nothing else is
    sent. *)
Theorem send_msg_outcomes w s to content msg_id :
  reachable w ->
  authenticated (sessions w s) = true ->
  fields_ok (SendMsgMessage to content msg_id) ->
  (forall n, string_ok (now_isoformat n)) ->
  exists u,
    username (sessions w s) = Some u
    /\ let recipient := strip to in
       let ack st := EvSend s (MsgAckMessage msg_id st) (sock_ok w s) in
       (str_empty recipient || str_empty content = true ->
        _handle_send_msg s to content msg_id w
        = (Ok tt, logged w [ack INVALID_MESSAGE]))
       /\ (str_empty recipient || str_empty content = false ->
           forall rs, dict_get (clients w) recipient = Some rs ->
           _handle_send_msg s to content msg_id w
           = (Ok tt,
              logged w
                [EvLookup recipient;
                 EvSend rs
                   (ReceiveMsgMessage u content msg_id
                      (now_isoformat (length (log w) + 1)))
                   (sock_ok w rs);
                 ack (if sock_ok w rs then DELIVERED else DELIVERY_FAILED)]))
       /\ (str_empty recipient || str_empty content = false ->
           dict_get (clients w) recipient = None ->
           _handle_send_msg s to content msg_id w
           = (Ok tt, logged w [EvLookup recipient; ack USER_OFFLINE])).
Proof.
  intros Hreach Hauth (_ & Hcontent & Hid) Hclock.
  destruct (reachable_inv w Hreach) as (_ & Hnames & Hnamed).
  destruct (Hnamed s Hauth) as [u Hu].
  exists u. split; [exact Hu |].
  exact (send_msg_run w s u to content msg_id Hauth Hu (Hnames s u Hu)
           Hcontent Hid Hclock).
Qed.

(** C4 (as amended).  What a login does, in order: it looks the stripped
    name up in the registry; when the name is there it replies with the
    failure, without asking the store and without touching the registry;
    when it is not, it asks the store, and only after the store has
    accepted the credentials does it write the registry entry (and then
    replies and broadcasts); when the store refuses, it replies with the
    failure and the registry is unchanged. *)
Theorem login_checks_registry_then_store w s mu mp :
  fields_ok (LoginMessage mu mp) ->
  let u := strip mu in
  let w' := exec (_handle_login s mu mp) w in
  (dict_contains (clients w) u = true ->
   log w' = log w
            ++ [EvLookup u;
                EvSend s
                  (ResponseMessage LOGIN FAIL (lit "User already logged in"))
                  (sock_ok w s)]
   /\ clients w' = clients w)
  /\ (dict_contains (clients w) u = false ->
      (forall id, store_authenticate (db w) u mp <> AuthMatch id) ->
      exists reason,
        log w' = log w
                 ++ [EvLookup u; EvAuthenticate u false;
                     EvSend s (ResponseMessage LOGIN FAIL reason) (sock_ok w s)]
        /\ clients w' = clients w)
  /\ (dict_contains (clients w) u = false ->
      forall id, store_authenticate (db w) u mp = AuthMatch id ->
      log w' = log w
               ++ [EvLookup u; EvAuthenticate u true; EvInsert u s;
                   EvSend s
                     (ResponseMessage LOGIN SUCCESS (lit "Login successful"))
                     (sock_ok w s)]
               ++ presence_events w (clients w ++ [(u, s)]) u
                    (PresenceMessage u ONLINE)
      /\ clients w' = clients w ++ [(u, s)]).
Proof.
  intros [Hmu _] u w'. assert (Hu : string_ok (strip mu)) by now apply strip_ok.
  subst w'. unfold exec. split; [| split].
  - intros Hin. fold u in Hu. subst u.
    rewrite (login_collision_run w s mu mp Hin). now cbn.
  - intros Hout Hfail.
    unfold _handle_login, mbind. fold u.
    rewrite registry_contains_run, Hout.
    destruct (login_after_check_failure (logged w [EvLookup u]) s u mp Hfail)
      as [reason Hrun].
    exists reason. rewrite Hrun. cbn [snd logged log clients].
    now rewrite <- app_assoc.
  - intros Hout id Hauth.
    unfold _handle_login, mbind. fold u.
    rewrite registry_contains_run, Hout.
    rewrite (login_after_check_success (logged w [EvLookup u]) s u mp id Hu Hauth).
    cbn [snd logged log clients sock_ok db sessions].
    rewrite (dict_set_absent _ _ _ Hout). split; [| reflexivity].
    now rewrite <- !app_assoc.
Qed.

(** C5.  A login for a name that is in the registry, in any state the
    server gets into: the reply is the login failure, the session is left
    as it was (so a session that was not authenticated still is not, and
    its [username] is still unset), the registry is unchanged, and it
    holds one entry for the name. *)
Theorem login_rejected_when_present w s mu mp :
  reachable w ->
  dict_contains (clients w) (strip mu) = true ->
  let w' := exec (_handle_login s mu mp) w in
  log w' = log w
           ++ [EvLookup (strip mu);
               EvSend s
                 (ResponseMessage LOGIN FAIL (lit "User already logged in"))
                 (sock_ok w s)]
  /\ sessions w' = sessions w
  /\ (authenticated (sessions w s) = false ->
      authenticated (sessions w' s) = false)
  /\ (username (sessions w s) = None -> username (sessions w' s) = None)
  /\ clients w' = clients w
  /\ dict_get (clients w') (strip mu) = dict_get (clients w) (strip mu)
  /\ dict_count (clients w') (strip mu) = 1%nat.
Proof.
  intros Hreach Hin w'. subst w'. unfold exec.
  destruct (reachable_inv w Hreach) as (Hwf & _ & _).
  rewrite (login_collision_run w s mu mp Hin).
  cbn [snd logged log sessions clients].
  repeat split; try tauto.
  now apply dict_count_present.
Qed.

(** C6 (as amended).  On a session that is not authenticated: a command
    that needs a login (send-message, add-contact, remove-contact,
    list-contacts, search-users, earthquake, set-avatar, get-avatar) is
    answered with the "Not authenticated" error and the loop goes on to the
    next frame; a message kind without a handler is answered with the
    "Unknown command" error and the loop goes on; a logout is not answered
    and ends the loop. *)
Theorem commands_before_login w s msg rest :
  authenticated (sessions w s) = false ->
  (needs_login msg = true ->
   read_loop s (Some msg :: rest) w
   = read_loop s rest
       (logged w [EvSend s (ErrorMessage (lit "Not authenticated"))
                         (sock_ok w s)]))
  /\ (unhandled msg = true ->
      read_loop s (Some msg :: rest) w
      = read_loop s rest
          (logged w [EvSend s (ErrorMessage (lit "Unknown command"))
                            (sock_ok w s)]))
  /\ (msg = LogoutMessage ->
      read_loop s (Some msg :: rest) w = (Ok tt, w)).
Proof.
  intros Hauth. split; [| split].
  - intros Hneeds. cbn [read_loop]. unfold mbind at 1.
    destruct msg; try discriminate Hneeds; cbn [dispatch breaks];
      unfold _handle_send_msg, _handle_add_contact, _handle_remove_contact,
             _handle_get_contacts, _handle_search_user, _handle_earthquake,
             _handle_avatar_set, _handle_avatar_get, mbind, get_session;
      rewrite Hauth; cbn [negb]; now rewrite not_authenticated_run.
  - intros Hun. cbn [read_loop]. unfold mbind at 1.
    destruct msg; try discriminate Hun; cbn [dispatch breaks];
      unfold mbind, build_error;
      (rewrite send_run by (apply error_sendable; lit_ok));
      reflexivity.
  - intros ->. cbn [read_loop dispatch breaks].
    unfold mbind, _handle_logout, mbind, get_session. now rewrite Hauth.
Qed.

(** C10.  An earthquake request received on an authenticated session, in
    any state the server gets into: with the recipient in the registry the
    only effect is the forward write to the recipient's session, whether
    it is delivered or not, so that after a failed forward nothing at all
    has reached the sender; the error reply to the sender is what an
    absent recipient produces. *)
Theorem earthquake_outcomes w s to intensity :
  reachable w ->
  authenticated (sessions w s) = true ->
  exists u,
    username (sessions w s) = Some u
    /\ let recipient := strip to in
       let forward rs :=
         EvSend rs (EarthquakeRecvMessage u (Z.max 1 (Z.min 10 intensity)))
                (sock_ok w rs) in
       (forall rs, dict_get (clients w) recipient = Some rs ->
          _handle_earthquake s to intensity w
          = (Ok tt, logged w [EvLookup recipient; forward rs])
          /\ (sock_ok w rs = false ->
              delivered_to s [EvLookup recipient; forward rs] = []))
       /\ (dict_get (clients w) recipient = None ->
           _handle_earthquake s to intensity w
           = (Ok tt,
              logged w
                [EvLookup recipient;
                 EvSend s (ErrorMessage (lit "User is offline"))
                        (sock_ok w s)])).
Proof.
  intros Hreach Hauth.
  destruct (reachable_inv w Hreach) as (_ & Hnames & Hnamed).
  destruct (Hnamed s Hauth) as [u Hu].
  exists u. split; [exact Hu |].
  exact (earthquake_run w s u to intensity Hauth Hu (Hnames s u Hu)).
Qed.

End Requests.

(** ** Runs on the in-memory store *)

Section Runs.
Import MemStore.

Lemma clock_ok : forall n, string_ok (now_isoformat n).
Proof. intros n. cbn [now_isoformat mem_env]. lit_ok. Qed.

Lemma alice_ok : string_ok alice.
Proof. unfold alice. lit_ok. Qed.

Lemma bob_ok : string_ok bob.
Proof. unfold bob. lit_ok. Qed.

Lemma w_alice_reachable : reachable w_alice.
Proof.
  apply (reach_dispatch fresh_world 1%nat (LoginMessage alice pw_a)).
  - apply fresh_world_reachable.
  - split; [exact alice_ok | unfold pw_a; lit_ok].
Qed.

Lemma w_alice_bob_reachable : reachable w_alice_bob.
Proof.
  apply (reach_dispatch w_alice 2%nat (LoginMessage bob pw_b)).
  - apply w_alice_reachable.
  - split; [exact bob_ok | unfold pw_b; lit_ok].
Qed.

Lemma send_msg_outcomes_witness :
  exists u,
    username (sessions w_alice_bob 1%nat) = Some u
    /\ _handle_send_msg 1%nat bob hi m1 w_alice_bob
       = (Ok tt,
          logged w_alice_bob
            [EvLookup bob;
             EvSend 2%nat
               (ReceiveMsgMessage u hi m1 (lit "2024-05-01T12:00:00.000000"))
               true;
             EvSend 1%nat (MsgAckMessage m1 DELIVERED) true]).
Proof.
  assert (Hauth : authenticated (sessions w_alice_bob 1%nat) = true)
    by reflexivity.
  assert (Hmsg : fields_ok (SendMsgMessage bob hi m1)).
  { split; [exact bob_ok | split; [unfold hi | unfold m1]; lit_ok]. }
  destruct (send_msg_outcomes w_alice_bob 1%nat bob hi m1
              w_alice_bob_reachable Hauth Hmsg clock_ok)
    as (u & Hu & _ & Hforward & _).
  exists u. split; [exact Hu |].
  exact (Hforward eq_refl 2%nat eq_refl).
Defined.

Lemma earthquake_outcomes_witness :
  exists u,
    username (sessions w_alice_bob 1%nat) = Some u
    /\ _handle_earthquake 1%nat bob 42 w_alice_bob
       = (Ok tt,
          logged w_alice_bob
            [EvLookup bob; EvSend 2%nat (EarthquakeRecvMessage u 10) true]).
Proof.
  assert (Hauth : authenticated (sessions w_alice_bob 1%nat) = true)
    by reflexivity.
  destruct (earthquake_outcomes w_alice_bob 1%nat bob 42
              w_alice_bob_reachable Hauth)
    as (u & Hu & Hforward & _).
  exists u. split; [exact Hu |].
  exact (proj1 (Hforward 2%nat eq_refl)).
Defined.

Lemma login_rejected_when_present_witness :
  dict_contains (clients w_alice) (strip alice) = true
  /\ clients (exec (_handle_login 2%nat alice pw_a) w_alice) = [(alice, 1%nat)]
  /\ username (sessions (exec (_handle_login 2%nat alice pw_a) w_alice) 2%nat)
     = None.
Proof.
  assert (Hin : dict_contains (clients w_alice) (strip alice) = true)
    by reflexivity.
  pose proof (login_rejected_when_present w_alice 2%nat alice pw_a
                w_alice_reachable Hin)
    as (_ & _ & _ & Hname & Hclients & _ & _).
  split; [exact Hin | split].
  - rewrite Hclients. reflexivity.
  - apply Hname. reflexivity.
Defined.

Lemma login_checks_registry_then_store_witness :
  fields_ok (LoginMessage alice pw_a)
  /\ clients (exec (_handle_login 1%nat alice pw_a) fresh_world)
     = [(alice, 1%nat)].
Proof.
  assert (Hmsg : fields_ok (LoginMessage alice pw_a)).
  { split; [exact alice_ok | unfold pw_a; lit_ok]. }
  split; [exact Hmsg |].
  exact (proj2 (proj2 (proj2
           (login_checks_registry_then_store fresh_world 1%nat alice pw_a
              Hmsg))
           eq_refl 1 eq_refl)).
Defined.

Lemma commands_before_login_witness :
  authenticated (sessions fresh_world 1%nat) = false
  /\ read_loop 1%nat [Some ContactListReqMessage; None] fresh_world
     = (Ok tt,
        logged fresh_world
          [EvSend 1%nat (ErrorMessage (lit "Not authenticated")) true]).
Proof.
  assert (Hauth : authenticated (sessions fresh_world 1%nat) = false)
    by reflexivity.
  split; [exact Hauth |].
  rewrite (proj1 (commands_before_login fresh_world 1%nat
                    ContactListReqMessage [None] Hauth) eq_refl).
  reflexivity.
Defined.

(** C4, counterexample.  With alice logged in on session 1, a login for
    alice on session 2 with a wrong password is turned down on the registry
    check alone, as "User already logged in": the store is never asked. *)
Lemma login_for_present_name_skips_store :
  ~ authenticates w_alice 2%nat alice (lit "guess")
  /\ skipn (length (log w_alice))
           (log (exec (_handle_login 2%nat alice (lit "guess")) w_alice))
     = [EvLookup alice;
        EvSend 2%nat
          (ResponseMessage LOGIN FAIL (lit "User already logged in")) true].
Proof.
  split; [| reflexivity].
  intros (ok & Hin). vm_compute in Hin.
  destruct Hin as [Hin | [Hin | []]]; discriminate Hin.
Qed.

(** C6, counterexample.  A logout as the first frame of a connection gets
    no reply and ends the loop: the login that follows it is never read,
    and all the connection leaves behind is the closing of its socket. *)
Lemma logout_before_login_ends_loop :
  ~ kept_open_with_auth_error fresh_world 1%nat LogoutMessage
      [Some (LoginMessage alice pw_a)]
  /\ log (exec (_handle_client 1%nat
                  [Some LogoutMessage; Some (LoginMessage alice pw_a)])
               fresh_world)
     = [EvClose 1%nat].
Proof.
  split; [| reflexivity].
  unfold kept_open_with_auth_error. intros Hrun.
  apply (f_equal (fun r => log (snd r))) in Hrun.
  vm_compute in Hrun. discriminate Hrun.
Qed.

(** C9, the failing input.  Two logins on one connection, first as alice,
    then as bob: the second one is accepted and the session's [username]
    goes from alice to bob. *)
Theorem relogin_rebinds_username :
  let w1 := exec (dispatch 1%nat (LoginMessage alice pw_a)) fresh_world in
  let w2 := exec (dispatch 1%nat (LoginMessage bob pw_b)) w1 in
  username (sessions w1 1%nat) = Some alice
  /\ username (sessions w2 1%nat) = Some bob
  /\ clients w2 = [(alice, 1%nat); (bob, 1%nat)].
Proof. repeat split. Qed.

(** C7, the failing input.  The same connection, closed by the peer after
    the second login: two names were inserted, one is removed, one OFFLINE
    broadcast is made, and alice's entry stays in the registry although
    the connection is gone. *)
Theorem relogin_cleanup_misses_first_login :
  let w' := exec (_handle_client 1%nat relogin_inbox) fresh_world in
  inserted_names (log w') = [alice; bob]
  /\ removed_names (log w') = [bob]
  /\ offline_names (log w') = [bob]
  /\ clients w' = [(alice, 1%nat)]
  /\ sock_ok w' 1%nat = false.
Proof. repeat split. Qed.

(** C8, the failing input.  At the second login the ONLINE event for bob is
    sent along the entry still held under alice, which leads to the very
    session that has just logged in as bob. *)
Theorem relogin_presence_reaches_own_session :
  let w1 := exec (dispatch 1%nat (LoginMessage alice pw_a)) fresh_world in
  let w2 := exec (dispatch 1%nat (LoginMessage bob pw_b)) w1 in
  username (sessions w2 1%nat) = Some bob
  /\ dict_get (clients w2) bob = Some 1%nat
  /\ skipn (length (log w1)) (log w2)
     = [EvLookup bob; EvAuthenticate bob true; EvInsert bob 1%nat;
        EvSend 1%nat (ResponseMessage LOGIN SUCCESS (lit "Login successful"))
               true;
        EvSend 1%nat (PresenceMessage bob ONLINE) true].
Proof. repeat split. Qed.

(** The window between the check and the insertion of [_handle_login]:
    when two logins for alice both pass the check before either inserts,
    both are accepted and the second insertion replaces the first. *)
Lemma login_race_overwrites :
  let w1 := exec (registry_contains alice) fresh_world in
  let w2 := exec (registry_contains alice) w1 in
  let w3 := exec (login_after_check 1%nat alice pw_a) w2 in
  let w4 := exec (login_after_check 2%nat alice pw_a) w3 in
  clients w3 = [(alice, 1%nat)]
  /\ clients w4 = [(alice, 2%nat)]
  /\ authenticated (sessions w4 1%nat) = true
  /\ authenticated (sessions w4 2%nat) = true.
Proof. repeat split. Qed.

End Runs.


End ServerClaims.

(* ================================================================== *)
(** * Part VI.  Further properties of the codec and of the server     *)
(* ================================================================== *)

(** ** Frames: what [encode_message] takes and what it produces *)

Module FrameProofs.
Import Protocol CodecProofs.

Lemma rbind_inv {A B} (r : result A) (k : A -> result B) b :
  rbind r k = Ok b -> exists a, r = Ok a /\ k a = Ok b.
Proof. destruct r as [a | e]; cbn [rbind]; [eauto | discriminate]. Qed.

Lemma utf8_encode_cp_scalar c bs : utf8_encode_cp c = Ok bs -> scalar_value c.
Proof.
  unfold utf8_encode_cp, scalar_value, is_surrogate.
  destruct (Z.ltb_spec c 0); [discriminate |].
  destruct (Z.ltb_spec c 128).
  { intros _. split; [lia |]. apply andb_false_iff. left. apply Z.leb_gt. lia. }
  destruct (Z.ltb_spec c 2048).
  { intros _. split; [lia |]. apply andb_false_iff. left. apply Z.leb_gt. lia. }
  destruct ((55296 <=? c) && (c <=? 57343)) eqn:Hsur; [discriminate |].
  destruct (Z.ltb_spec c 65536); [intros _; split; [lia | reflexivity] |].
  destruct (Z.ltb_spec c 1114112); [intros _; split; [lia | reflexivity] |].
  discriminate.
Qed.

Lemma utf8_encode_inv s : forall bs,
  utf8_encode s = Ok bs -> Forall scalar_value s /\ len bs = utf8_len s.
Proof.
  induction s as [| c s IH]; intros bs; cbn [utf8_encode utf8_len].
  - intros E. apply Ok_inj in E. subst bs. now split.
  - intros E. apply rbind_inv in E. destruct E as (e1 & Hc & E).
    apply rbind_inv in E. destruct E as (e2 & Hs & E).
    apply Ok_inj in E. subst bs.
    destruct (IH e2 Hs) as [Hall Hlen].
    split.
    + constructor; [now apply utf8_encode_cp_scalar with e1 | exact Hall].
    + rewrite len_app, Hlen, (utf8_encode_cp_len c e1 Hc). reflexivity.
Qed.

Lemma pack_B_inv v b : pack_B v = Ok b -> 0 <= v <= 255 /\ b = [v].
Proof.
  unfold pack_B.
  destruct (Z.leb_spec 0 v), (Z.leb_spec v 255); cbn [andb];
    try discriminate.
  intros E. apply Ok_inj in E. now split.
Qed.

Lemma pack_H_inv v b :
  pack_H v = Ok b -> 0 <= v <= 65535 /\ b = [v / 256; v mod 256].
Proof.
  unfold pack_H.
  destruct (Z.leb_spec 0 v), (Z.leb_spec v 65535); cbn [andb];
    try discriminate.
  intros E. apply Ok_inj in E. now split.
Qed.

Lemma pack_I_inv v b :
  pack_I v = Ok b ->
  0 <= v <= 4294967295
  /\ b = [v / 16777216; (v / 65536) mod 256; (v / 256) mod 256; v mod 256].
Proof.
  unfold pack_I.
  destruct (Z.leb_spec 0 v), (Z.leb_spec v 4294967295); cbn [andb];
    try discriminate.
  intros E. apply Ok_inj in E. now split.
Qed.

(** A write that went through appended to the buffer, and its value was in
    the range of the field. *)
Lemma write_uint8_inv v w w' :
  write_uint8 v w = Ok w' -> uint8_ok v /\ w' = w ++ [v].
Proof.
  unfold write_uint8. intros E. apply rbind_inv in E.
  destruct E as (b & Hb & E). apply pack_B_inv in Hb. destruct Hb as [Hv ->].
  apply Ok_inj in E. now split.
Qed.

Lemma write_string_inv s w w' :
  write_string s w = Ok w' ->
  string_ok s /\ exists e, w' = w ++ e /\ len e = string_size s.
Proof.
  unfold write_string, write_uint16. intros E.
  apply rbind_inv in E. destruct E as (enc & Henc & E).
  apply rbind_inv in E. destruct E as (w1 & Hw1 & E).
  apply rbind_inv in Hw1. destruct Hw1 as (b & Hb & Hw1).
  apply pack_H_inv in Hb. destruct Hb as [Hrange ->].
  apply Ok_inj in Hw1. apply Ok_inj in E. subst w1 w'.
  destruct (utf8_encode_inv s enc Henc) as [Hall Hlen].
  split; [split; [exact Hall | lia] |].
  exists ([len enc / 256; len enc mod 256] ++ enc).
  split; [now rewrite <- app_assoc |].
  rewrite len_app, Hlen. unfold string_size, len. cbn [length]. lia.
Qed.

Lemma write_bytes_inv b w w' :
  write_bytes b w = Ok w' ->
  len b <= 4294967295 /\ exists e, w' = w ++ e /\ len e = 4 + len b.
Proof.
  unfold write_bytes, write_uint32. intros E.
  apply rbind_inv in E. destruct E as (w1 & Hw1 & E).
  apply rbind_inv in Hw1. destruct Hw1 as (p & Hp & Hw1).
  apply pack_I_inv in Hp. destruct Hp as [Hrange ->].
  apply Ok_inj in Hw1. apply Ok_inj in E. subst w1 w'.
  split; [lia |].
  eexists. split; [now rewrite <- app_assoc |].
  rewrite len_app. unfold len at 1. cbn [length]. lia.
Qed.

Lemma write_contacts_inv cs : forall w w',
  write_contacts cs w = Ok w' ->
  Forall string_ok (map username cs)
  /\ exists e, w' = w ++ e /\ len e = contacts_size cs.
Proof.
  induction cs as [| c cs IH]; intros w w'; cbn [write_contacts map contacts_size].
  - intros E. apply Ok_inj in E. subst w'. split; [constructor |].
    exists []. now rewrite app_nil_r.
  - intros E. apply rbind_inv in E. destruct E as (w1 & H1 & E).
    apply rbind_inv in E. destruct E as (w2 & H2 & E).
    apply write_string_inv in H1. destruct H1 as (Hs & e1 & -> & L1).
    apply write_uint8_inv in H2. destruct H2 as (_ & ->).
    destruct (IH _ _ E) as (Hall & e3 & -> & L3).
    split; [now constructor |].
    exists (e1 ++ [PresenceStatus_value (status c)] ++ e3).
    split; [now rewrite <- !app_assoc |].
    rewrite !len_app, L1, L3. unfold len. cbn [length]. lia.
Qed.

Lemma write_users_inv us : forall w w',
  write_users us w = Ok w' ->
  Forall string_ok us /\ exists e, w' = w ++ e /\ len e = users_size us.
Proof.
  induction us as [| u us IH]; intros w w'; cbn [write_users users_size].
  - intros E. apply Ok_inj in E. subst w'. split; [constructor |].
    exists []. now rewrite app_nil_r.
  - intros E. apply rbind_inv in E. destruct E as (w1 & H1 & E).
    apply write_string_inv in H1. destruct H1 as (Hs & e1 & -> & L1).
    destruct (IH _ _ E) as (Hall & e3 & -> & L3).
    split; [now constructor |].
    exists (e1 ++ e3).
    split; [now rewrite <- !app_assoc |].
    rewrite !len_app, L1, L3. lia.
Qed.

(** Takes the writes of a payload apart, first to last. *)
Ltac unwrite :=
  repeat match goal with
    | E : rbind _ _ = Ok _ |- _ =>
        apply rbind_inv in E; destruct E as (? & ? & E)
    | E : write_string _ _ = Ok _ |- _ =>
        apply write_string_inv in E; destruct E as (? & ? & -> & ?)
    | E : write_uint8 _ _ = Ok _ |- _ =>
        apply write_uint8_inv in E; destruct E as (? & ->)
    | E : write_bytes _ _ = Ok _ |- _ =>
        apply write_bytes_inv in E; destruct E as (? & ? & -> & ?)
    | E : write_contacts _ _ = Ok _ |- _ =>
        apply write_contacts_inv in E; destruct E as (? & ? & -> & ?)
    | E : write_users _ _ = Ok _ |- _ =>
        apply write_users_inv in E; destruct E as (? & ? & -> & ?)
    | E : write_uint16 _ _ = Ok _ |- _ =>
        unfold write_uint16 in E
    | E : pack_H _ = Ok _ |- _ =>
        apply pack_H_inv in E; destruct E as (? & ->)
    | E : Ok _ = Ok _ |- _ => apply Ok_inj in E; subst
    end.

Ltac fields_all :=
  first [ assumption
        | repeat (apply Forall_cons; [assumption |]); apply Forall_nil ].

Lemma encode_payload_inv msg w w' :
  encode_payload msg w = Ok w' ->
  Forall string_ok (strings_of msg)
  /\ Forall uint8_ok (uint8s_of msg)
  /\ entry_count msg <= 65535
  /\ exists p, w' = w ++ p /\ len p = payload_size msg.
Proof.
  intros E.
  destruct msg;
    cbn [encode_payload strings_of uint8s_of entry_count payload_size] in *;
    unwrite;
    (split; [fields_all |]);
    (split; [fields_all |]);
    (split; [lia |]);
    eexists; (split; [rewrite <- ?app_assoc; try reflexivity;
                      rewrite ?app_nil_r; reflexivity |]);
    rewrite ?len_app;
    repeat match goal with H : len _ = _ |- _ => rewrite H; clear H end;
    unfold len; cbn [length]; lia.
Qed.

Lemma Forall_string_ok_contacts cs :
  Forall string_ok (map username cs) ->
  Forall (fun c => string_ok (username c)) cs.
Proof. intros Hall. exact (proj1 (Forall_map _ _ _) Hall). Qed.

Ltac str_of s e :=
  match goal with H : string_ok s |- _ => str_codec H e end.

Ltac u8_of v :=
  match goal with H : uint8_ok v |- _ => u8_codec H end.

Ltac written_done := split; [intros w; writes_steps | len_steps].

(** Valid strings, [uint8] values in range, a count and a payload length
    that fit their fields: the writes of the payload all go through. *)
Lemma encode_payload_total msg :
  wire_ok msg ->
  exists p, (forall w, encode_payload msg w = Ok (w ++ p))
            /\ len p = payload_size msg.
Proof.
  intros (Hs & Hu & Hcount & Hsize).
  destruct msg as [u p | u p | | t c i | f c i ts | i st | c | c | | cs | q
                  | us | u st | a rc m | m | t v | f v | d | u | u d];
    cbn [strings_of uint8s_of entry_count payload_size] in *;
    repeat match goal with
      | H : Forall _ (_ :: _) |- _ => inversion H; subst; clear H
      end.
  - str_of u eu. str_of p ep. exists (eu ++ ep ++ []). written_done.
  - str_of u eu. str_of p ep. exists (eu ++ ep ++ []). written_done.
  - exists []. written_done.
  - str_of t et. str_of c ec. str_of i ei.
    exists (et ++ ec ++ ei ++ []). written_done.
  - str_of f ef. str_of c ec. str_of i ei. str_of ts ets.
    exists (ef ++ ec ++ ei ++ ets ++ []). written_done.
  - str_of i ei. u8_codec (AckStatus_value_range st).
    exists (ei ++ [AckStatus_value st] ++ []). written_done.
  - str_of c ec. exists (ec ++ []). written_done.
  - str_of c ec. exists (ec ++ []). written_done.
  - exists []. written_done.
  - destruct (contacts_codec cs (Forall_string_ok_contacts cs Hs))
      as (e & Hw & _ & Hl).
    exists ([len cs / 256; len cs mod 256] ++ e ++ []). split.
    + intros w. cbn [encode_payload]. unfold write_uint16.
      rewrite pack_H_ok by (pose proof (len_nonneg cs); lia).
      cbn [rbind]. rewrite Hw. now rewrite <- !app_assoc, app_nil_r.
    + len_steps.
  - str_of q eqr. exists (eqr ++ []). written_done.
  - destruct (users_codec us Hs) as (e & Hw & _ & Hl).
    exists ([len us / 256; len us mod 256] ++ e ++ []). split.
    + intros w. cbn [encode_payload]. unfold write_uint16.
      rewrite pack_H_ok by (pose proof (len_nonneg us); lia).
      cbn [rbind]. rewrite Hw. now rewrite <- !app_assoc, app_nil_r.
    + len_steps.
  - str_of u eu. u8_codec (PresenceStatus_value_range st).
    exists (eu ++ [PresenceStatus_value st] ++ []). written_done.
  - str_of m em.
    u8_codec (ActionCode_value_range a). u8_codec (ResponseCode_value_range rc).
    exists ([ActionCode_value a] ++ [ResponseCode_value rc] ++ em ++ []).
    written_done.
  - str_of m em. exists (em ++ []). written_done.
  - str_of t et. u8_of v. exists (et ++ [v] ++ []). written_done.
  - str_of f ef. u8_of v. exists (ef ++ [v] ++ []). written_done.
  - assert (Hb : len d <= 4294967295) by lia.
    destruct (bytes_codec d Hb) as (e & Hw & _ & Hl).
    exists (e ++ []). written_done.
  - str_of u eu. exists (eu ++ []). written_done.
  - assert (Hb : len d <= 4294967295).
    { pose proof (utf8_len_nonneg u). unfold string_size in Hsize. lia. }
    destruct (bytes_codec d Hb) as (ed & Hwd & _ & Hld).
    str_of u eu. exists (eu ++ ed ++ []). written_done.
Qed.

(** What a frame that [encode_message] returned is made of. *)
Lemma encode_message_inv msg frame :
  encode_message msg = Ok frame ->
  wire_ok msg
  /\ exists payload,
       len payload = payload_size msg
       /\ frame
          = [81; 80; 1;
             Command_value (command msg) / 256;
             Command_value (command msg) mod 256;
             len payload / 16777216; (len payload / 65536) mod 256;
             (len payload / 256) mod 256; len payload mod 256]
            ++ payload.
Proof.
  unfold encode_message. intros E.
  apply rbind_inv in E. destruct E as (p & Hp & E).
  apply rbind_inv in E. destruct E as (c & Hc & E).
  apply rbind_inv in E. destruct E as (l & Hl & E).
  apply Ok_inj in E. subst frame.
  apply pack_H_inv in Hc. destruct Hc as [_ ->].
  apply pack_I_inv in Hl. destruct Hl as [Hrange ->].
  apply encode_payload_inv in Hp.
  destruct Hp as (Hs & Hu & Hcount & p' & Hp' & Hlen).
  cbn [app] in Hp'. subst p'.
  split.
  - repeat split; try assumption. lia.
  - exists p. split; [exact Hlen | reflexivity].
Qed.

(** X3.  [encode_message] returns a frame exactly for the messages whose
    strings are valid and at most 65535 bytes long in UTF-8, whose [uint8]
    fields are in range, whose list has at most 65535 entries and whose
    payload takes at most 2^32 - 1 bytes; on any other message it raises. *)
Theorem encode_message_domain msg :
  (exists frame, encode_message msg = Ok frame) <-> wire_ok msg.
Proof.
  split.
  - intros [frame Hframe]. exact (proj1 (encode_message_inv msg frame Hframe)).
  - intros Hok.
    destruct (encode_payload_total msg Hok) as (p & Hw & Hl).
    eexists. apply (encode_message_frame msg p Hw).
    destruct Hok as (_ & _ & _ & Hsize). lia.
Qed.

(** X4.  The frame of a message: the magic [QP], version 1, the command code
    and the payload length in big-endian, then the payload; nine bytes more
    than the payload. *)
Theorem encode_message_layout msg frame :
  encode_message msg = Ok frame ->
  let c := Command_value (command msg) in
  let n := payload_size msg in
  firstn 9 frame
  = [81; 80; 1; c / 256; c mod 256;
     n / 16777216; (n / 65536) mod 256; (n / 256) mod 256; n mod 256]
  /\ len frame = 9 + n
  /\ unpack_H (slice frame 3 5) = Ok c
  /\ unpack_I (slice frame 5 9) = Ok n.
Proof.
  intros Hframe c n.
  destruct (encode_message_inv msg frame Hframe) as (_ & p & Hlen & ->).
  fold c. rewrite Hlen. fold n.
  split; [reflexivity | split; [| split]].
  - rewrite len_app, Hlen. reflexivity.
  - unfold slice. cbn [app skipn firstn Nat.sub unpack_H].
    now rewrite be16_join.
  - unfold slice. cbn [app skipn firstn Nat.sub unpack_I].
    now rewrite be32_join.
Qed.

End FrameProofs.

(** ** Streams: [send_message], [_recv_exactly], [recv_message] *)

Module StreamProofs.
Import Protocol CodecProofs WireProofs FrameProofs.

Lemma arrives_nil_inv sock : arrives [] sock -> sock = [].
Proof.
  intros [Hcat Hne]. destruct sock as [| c rest]; [reflexivity |].
  inversion Hne as [| ? ? Hc _]; subst.
  cbn [concat] in Hcat. apply app_eq_nil in Hcat. now destruct Hcat.
Qed.

(** [_recv_exactly] puts the next [n] bytes of the stream together,
    however they are cut into chunks, and leaves the rest to be read. *)
Lemma recv_exactly_loop_arrives sock : forall fuel n acc bs later,
  arrives (bs ++ later) sock ->
  (length acc + length bs = n)%nat ->
  (length sock < fuel)%nat ->
  exists sock',
    recv_exactly_loop fuel n acc sock = (Some (acc ++ bs), sock')
    /\ arrives later sock'.
Proof.
  induction sock as [| chunk rest IH]; intros fuel n acc bs later Harr Hlen Hfuel.
  - destruct Harr as [Hcat _]. cbn [concat] in Hcat.
    symmetry in Hcat. apply app_eq_nil in Hcat. destruct Hcat as [-> ->].
    exists []. rewrite app_nil_r.
    destruct fuel; cbn [recv_exactly_loop];
      (replace (length acc <? n)%nat with false
         by (symmetry; apply Nat.ltb_ge; cbn [length] in Hlen; lia));
      (split; [reflexivity | split; [reflexivity | constructor]]).
  - destruct bs as [| b bs'].
    + exists (chunk :: rest). rewrite app_nil_r.
      destruct fuel; cbn [recv_exactly_loop];
        (replace (length acc <? n)%nat with false
           by (symmetry; apply Nat.ltb_ge; cbn [length] in Hlen; lia));
        (split; [reflexivity | exact Harr]).
    + destruct fuel as [| fuel]; [cbn [length] in Hfuel; lia |].
      cbn [recv_exactly_loop].
      replace (length acc <? n)%nat with true
        by (symmetry; apply Nat.ltb_lt; cbn [length] in Hlen; lia).
      replace (n - length acc)%nat with (length (b :: bs')) by lia.
      destruct Harr as [Hcat Hne].
      pose proof (Forall_inv Hne) as Hchunk.
      pose proof (Forall_inv_tail Hne) as Hrest. cbn beta in Hchunk.
      cbn [concat] in Hcat. unfold sock_recv.
      destruct (Nat.leb_spec (length chunk) (length (b :: bs'))) as [Hle | Hgt].
      * (* the whole chunk is taken *)
        apply app_eq_app in Hcat.
        destruct Hcat as [l [[Hc Hl] | [Hc Hl]]].
        -- (* chunk = (b :: bs') ++ l, so [l] is empty *)
           assert (l = []).
           { apply (f_equal (@length Z)) in Hc. rewrite length_app in Hc.
             destruct l; [reflexivity | cbn [length] in *; lia]. }
           subst l. rewrite app_nil_r in Hc. cbn [app] in Hl. subst chunk.
           destruct (IH fuel n (acc ++ b :: bs') [] later) as (sock' & Hrun & Harr').
           { split; [now symmetry | exact Hrest]. }
           { rewrite length_app. cbn [length] in *. lia. }
           { cbn [length] in Hfuel. lia. }
           exists sock'. rewrite app_nil_r in Hrun. now split.
        -- destruct chunk as [| c0 chunk']; [contradiction |].
           destruct (IH fuel n (acc ++ c0 :: chunk') l later)
             as (sock' & Hrun & Harr').
           { split; [exact Hl | exact Hrest]. }
           { rewrite length_app. apply (f_equal (@length Z)) in Hc.
             rewrite length_app in Hc. lia. }
           { cbn [length] in Hfuel. lia. }
           exists sock'. rewrite Hrun, <- app_assoc, Hc. now split.
      * (* the chunk holds more than is asked for *)
        apply app_eq_app in Hcat.
        destruct Hcat as [l [[Hc Hl] | [Hc Hl]]].
        -- subst chunk. rewrite firstn_pre, skipn_pre.
           destruct l as [| x l'].
           { rewrite app_nil_r in Hgt. lia. }
           exists ((x :: l') :: rest).
           assert (Hfull : (length (acc ++ b :: bs') <? n)%nat = false).
           { apply Nat.ltb_ge. rewrite length_app. lia. }
           destruct fuel; cbn [recv_exactly_loop]; rewrite Hfull;
             (split; [reflexivity |]);
             (split; [cbn [concat]; now symmetry
                     | constructor; [discriminate | exact Hrest]]).
        -- apply (f_equal (@length Z)) in Hc. rewrite length_app in Hc. lia.
Qed.

Lemma recv_exactly_arrives sock bs later :
  arrives (bs ++ later) sock ->
  exists sock',
    _recv_exactly sock (length bs) = (Some bs, sock') /\ arrives later sock'.
Proof.
  intros Harr. unfold _recv_exactly.
  destruct (recv_exactly_loop_arrives sock (S (length bs + length sock))
              (length bs) [] bs later Harr)
    as (sock' & Hrun & Harr'); [reflexivity | lia |].
  exists sock'. now split.
Qed.

(** When the peer closes before [n] bytes have come, [_recv_exactly]
    returns [None]. *)
Lemma recv_exactly_loop_short sock : forall fuel n acc,
  Forall (fun chunk => chunk <> []) sock ->
  (length acc + length (concat sock) < n)%nat ->
  (length sock < fuel)%nat ->
  recv_exactly_loop fuel n acc sock = (None, []).
Proof.
  induction sock as [| chunk rest IH]; intros fuel n acc Hne Hlen Hfuel;
    (destruct fuel as [| fuel]; [cbn [length] in Hfuel; lia |]);
    cbn [recv_exactly_loop];
    (replace (length acc <? n)%nat with true
       by (symmetry; apply Nat.ltb_lt; lia)).
  - reflexivity.
  - pose proof (Forall_inv Hne) as Hchunk.
    pose proof (Forall_inv_tail Hne) as Hrest. cbn beta in Hchunk.
    cbn [concat] in Hlen. rewrite length_app in Hlen.
    unfold sock_recv.
    replace (length chunk <=? n - length acc)%nat with true
      by (symmetry; apply Nat.leb_le; lia).
    destruct chunk as [| c0 chunk']; [contradiction |].
    apply IH; [exact Hrest | rewrite length_app; lia
              | cbn [length] in Hfuel; lia].
Qed.

Lemma recv_exactly_short sock bs n :
  arrives bs sock -> (length bs < n)%nat -> _recv_exactly sock n = (None, []).
Proof.
  intros [Hcat Hne] Hlen. unfold _recv_exactly.
  apply recv_exactly_loop_short; [exact Hne | | ].
  - rewrite Hcat. cbn [length]. lia.
  - apply Nat.lt_succ_r, Nat.le_add_l.
Qed.


Lemma wire_ok_fields_ok msg :
  wire_ok msg -> payload_size msg <= MAX_MESSAGE_SIZE -> fields_ok msg.
Proof.
  intros (Hs & Hu & _ & _) Hsize.
  destruct msg as [u p | u p | | t c i | f c i ts | i st | c | c | | cs | q
                  | us | u st | a rc m | m | t v | f v | d | u | u d];
    cbn [strings_of uint8s_of fields_ok payload_size] in *;
    repeat match goal with
      | H : Forall _ (_ :: _) |- _ => inversion H; subst; clear H
      end;
    unfold blob_ok;
    repeat match goal with |- _ /\ _ => split end;
    try assumption; try exact I.
  - now apply Forall_string_ok_contacts.
  - lia.
  - pose proof (utf8_len_nonneg u). unfold string_size in Hsize. lia.
Qed.

(** The frame of a message that fits a frame decodes to the message. *)
Lemma frame_decodes msg frame :
  encode_message msg = Ok frame ->
  payload_size msg <= MAX_MESSAGE_SIZE ->
  decode_message frame = Ok (Some msg).
Proof.
  intros Hframe Hsize.
  destruct (encode_message_inv msg frame Hframe) as (Hok & _).
  pose proof (wire_ok_fields_ok msg Hok Hsize) as Hf.
  destruct Hok as (_ & _ & Hcount & Hbig).
  destruct (payload_codec msg Hf Hcount Hbig) as (p & Hr & Hw & Hl).
  rewrite (encode_message_frame msg p Hw) in Hframe by lia.
  apply Ok_inj in Hframe. subst frame.
  rewrite decode_message_header.
  rewrite magic_eqb_refl. cbn [negb].
  change (1 =? PROTOCOL_VERSION) with true. cbn [negb].
  rewrite be16_join, Command_of_value. cbn [rbind].
  rewrite be32_join, to_nat_len, firstn_all.
  rewrite (reads_whole _ _ _ Hr). reflexivity.
Qed.

(** X5.  What one side wrote with [encode_message] the other side gets from
    [recv_message], however the stream is cut into chunks, and the bytes
    that follow the frame stay to be read. *)
Theorem recv_message_reassembles msg frame later sock :
  encode_message msg = Ok frame ->
  payload_size msg <= MAX_MESSAGE_SIZE ->
  arrives (frame ++ later) sock ->
  exists sock',
    recv_message sock = (Ok (Some msg), sock') /\ arrives later sock'.
Proof.
  intros Hframe Hsize Harr.
  pose proof (frame_decodes msg frame Hframe Hsize) as Hdec.
  destruct (encode_message_inv msg frame Hframe) as (_ & p & Hlen & Hshape).
  set (header := [81; 80; 1;
                  Command_value (command msg) / 256;
                  Command_value (command msg) mod 256;
                  len p / 16777216; (len p / 65536) mod 256;
                  (len p / 256) mod 256; len p mod 256]) in *.
  rewrite Hshape, <- app_assoc in Harr.
  destruct (recv_exactly_arrives sock header (p ++ later) Harr)
    as (sock1 & Hhead & Harr1).
  unfold recv_message. change HEADER_SIZE with (length header).
  rewrite Hhead. cbn [falsy header].
  change (slice header 0 2) with [81; 80].
  rewrite magic_eqb_refl. cbn [negb].
  replace (unpack_I (slice header 5 9)) with (Ok (len p))
    by (unfold slice, header; cbn [skipn firstn Nat.sub unpack_I];
        now rewrite be32_join).
  replace (MAX_MESSAGE_SIZE <? len p) with false
    by (symmetry; apply Z.ltb_ge; lia).
  destruct (Z.ltb_spec 0 (len p)) as [Hpos | Hzero].
  - rewrite to_nat_len.
    destruct (recv_exactly_arrives sock1 p later Harr1)
      as (sock2 & Hpay & Harr2).
    rewrite Hpay.
    destruct p as [| b p']; [unfold len in Hpos; cbn [length] in Hpos; lia |].
    cbn [andb falsy]. rewrite <- Hshape, Hdec.
    exists sock2. now split.
  - assert (p = []).
    { destruct p; [reflexivity | unfold len in Hzero; cbn [length] in Hzero; lia]. }
    subst p. cbn [andb]. rewrite <- Hshape, Hdec.
    exists sock1. now split.
Qed.

(** X6.  A header with another magic than [QP], or one that announces a payload
    of more than [MAX_MESSAGE_SIZE] bytes, makes [recv_message] return
    [None] once its nine bytes are in: the payload is left unread. *)
Theorem recv_message_drops_after_header header later sock :
  length header = HEADER_SIZE ->
  arrives (header ++ later) sock ->
  slice header 0 2 <> PROTOCOL_MAGIC
  \/ (exists plen, unpack_I (slice header 5 9) = Ok plen
                   /\ MAX_MESSAGE_SIZE < plen) ->
  exists sock', recv_message sock = (Ok None, sock') /\ arrives later sock'.
Proof.
  intros Hlen Harr Hbad.
  destruct (recv_exactly_arrives sock header later Harr)
    as (sock1 & Hhead & Harr1).
  exists sock1. split; [| exact Harr1].
  unfold recv_message. rewrite <- Hlen, Hhead.
  destruct header as [| b header']; [discriminate Hlen |].
  cbn [falsy].
  unfold bytes_eqb at 1.
  destruct (list_eq_dec Z.eq_dec (slice (b :: header') 0 2) PROTOCOL_MAGIC)
    as [Hmagic | Hmagic]; cbn [negb]; [| reflexivity].
  destruct Hbad as [Hwrong | (plen & Hplen & Hbig)]; [contradiction |].
  rewrite Hplen. apply Z.ltb_lt in Hbig. now rewrite Hbig.
Qed.

(** X7.  When the peer closes in the middle of a frame, within the header or
    before the announced payload is complete, [recv_message] returns
    [None]: it never hands out a message made of the part that came. *)
Theorem recv_message_truncated bs sock :
  arrives bs sock ->
  (length bs < HEADER_SIZE)%nat
  \/ (exists header rest plen,
        bs = header ++ rest
        /\ length header = HEADER_SIZE
        /\ unpack_I (slice header 5 9) = Ok plen
        /\ (length rest < Z.to_nat plen)%nat) ->
  fst (recv_message sock) = Ok None.
Proof.
  intros Harr [Hshort | (header & rest & plen & -> & Hlen & Hplen & Hrest)].
  - unfold recv_message.
    now rewrite (recv_exactly_short sock bs HEADER_SIZE Harr Hshort).
  - destruct (recv_exactly_arrives sock header rest Harr)
      as (sock1 & Hhead & Harr1).
    unfold recv_message. rewrite <- Hlen, Hhead.
    destruct header as [| b header']; [discriminate Hlen |].
    cbn [falsy].
    destruct (negb (bytes_eqb _ _)); [reflexivity |].
    rewrite Hplen.
    destruct (MAX_MESSAGE_SIZE <? plen); [reflexivity |].
    replace (0 <? plen) with true by (symmetry; apply Z.ltb_lt; lia).
    rewrite (recv_exactly_short sock1 rest (Z.to_nat plen) Harr1 Hrest).
    reflexivity.
Qed.

(** *** What the encoder raises *)

Lemma rbind_raise_inv {A B} (r : result A) (k : A -> result B) e :
  rbind r k = Raise e -> r = Raise e \/ exists a, r = Ok a /\ k a = Raise e.
Proof. destruct r as [a | e']; cbn [rbind]; [eauto | intros [= ->]; now left]. Qed.

Lemma pack_B_raises v e : pack_B v = Raise e -> e = StructError.
Proof. unfold pack_B. destruct (_ && _); [discriminate | now intros [= <-]]. Qed.

Lemma pack_H_raises v e : pack_H v = Raise e -> e = StructError.
Proof. unfold pack_H. destruct (_ && _); [discriminate | now intros [= <-]]. Qed.

Lemma pack_I_raises v e : pack_I v = Raise e -> e = StructError.
Proof. unfold pack_I. destruct (_ && _); [discriminate | now intros [= <-]]. Qed.

Lemma utf8_encode_cp_raises c e :
  utf8_encode_cp c = Raise e -> e = UnicodeEncodeError.
Proof.
  unfold utf8_encode_cp.
  repeat match goal with
    | |- (if ?b then _ else _) = _ -> _ => destruct b
    end; solve [discriminate | now intros [= <-]].
Qed.

Lemma utf8_encode_raises s e : utf8_encode s = Raise e -> e = UnicodeEncodeError.
Proof.
  induction s as [| c s IH]; cbn [utf8_encode]; [discriminate |].
  intros E. apply rbind_raise_inv in E.
  destruct E as [E | (bs & _ & E)]; [now apply utf8_encode_cp_raises in E |].
  apply rbind_raise_inv in E.
  destruct E as [E | (rest & _ & E)]; [now apply IH | discriminate].
Qed.

Ltac raised :=
  repeat match goal with
    | E : rbind _ _ = Raise _ |- _ =>
        apply rbind_raise_inv in E; destruct E as [E | (? & _ & E)]
    | E : Ok _ = Raise _ |- _ => discriminate E
    | E : pack_B _ = Raise _ |- _ => apply pack_B_raises in E; now left
    | E : pack_H _ = Raise _ |- _ => apply pack_H_raises in E; now left
    | E : pack_I _ = Raise _ |- _ => apply pack_I_raises in E; now left
    | E : utf8_encode _ = Raise _ |- _ =>
        apply utf8_encode_raises in E; now right
    end.

Lemma write_uint8_raises v w e : write_uint8 v w = Raise e -> encoder_exn e.
Proof. unfold write_uint8. intros E. raised. Qed.

Lemma write_uint16_raises v w e : write_uint16 v w = Raise e -> encoder_exn e.
Proof. unfold write_uint16. intros E. raised. Qed.

Lemma write_string_raises s w e : write_string s w = Raise e -> encoder_exn e.
Proof. unfold write_string, write_uint16. intros E. raised. Qed.

Lemma write_bytes_raises b w e : write_bytes b w = Raise e -> encoder_exn e.
Proof. unfold write_bytes, write_uint32. intros E. raised. Qed.

Lemma write_contacts_raises cs : forall w e,
  write_contacts cs w = Raise e -> encoder_exn e.
Proof.
  induction cs as [| c cs IH]; intros w e; cbn [write_contacts];
    [discriminate |].
  intros E. apply rbind_raise_inv in E.
  destruct E as [E | (w1 & _ & E)]; [now apply write_string_raises in E |].
  apply rbind_raise_inv in E.
  destruct E as [E | (w2 & _ & E)]; [now apply write_uint8_raises in E |].
  now apply IH in E.
Qed.

Lemma write_users_raises us : forall w e,
  write_users us w = Raise e -> encoder_exn e.
Proof.
  induction us as [| u us IH]; intros w e; cbn [write_users];
    [discriminate |].
  intros E. apply rbind_raise_inv in E.
  destruct E as [E | (w1 & _ & E)]; [now apply write_string_raises in E |].
  now apply IH in E.
Qed.

Lemma encode_payload_raises msg w e :
  encode_payload msg w = Raise e -> encoder_exn e.
Proof.
  intros E. destruct msg; cbn [encode_payload] in E;
    repeat match goal with
      | E : rbind _ _ = Raise _ |- _ =>
          apply rbind_raise_inv in E; destruct E as [E | (? & _ & E)]
      end;
    first [ discriminate E
          | now apply write_string_raises in E
          | now apply write_uint8_raises in E
          | now apply write_uint16_raises in E
          | now apply write_bytes_raises in E
          | now apply write_contacts_raises in E
          | now apply write_users_raises in E ].
Qed.

Lemma encode_message_raises msg e :
  encode_message msg = Raise e -> encoder_exn e.
Proof.
  unfold encode_message. intros E.
  apply rbind_raise_inv in E.
  destruct E as [E | (p & _ & E)]; [now apply encode_payload_raises in E |].
  raised.
Qed.

Lemma wire_ok_encodes msg :
  wire_ok msg -> exists frame, encode_message msg = Ok frame.
Proof.
  intros Hok.
  destruct (encode_payload_total msg Hok) as (p & Hw & Hl).
  eexists. apply (encode_message_frame msg p Hw).
  destruct Hok as (_ & _ & _ & Hsize). lia.
Qed.

(** X8.  [send_message]: [True] when the frame of the message was written in
    full; [False] when the socket failed, with part of the frame written;
    and for a message [encode_message] does not take, an exception that
    [send_message] does not catch, with nothing written. *)
Theorem send_message_outcomes sock msg :
  match send_message sock msg with
  | (Ok true, sock') =>
      exists frame,
        encode_message msg = Ok frame
        /\ written sock' = written sock ++ frame
  | (Ok false, sock') =>
      exists frame k,
        encode_message msg = Ok frame
        /\ room sock = Some k /\ (k < length frame)%nat
        /\ written sock' = written sock ++ firstn k frame
  | (Raise e, sock') =>
      ~ wire_ok msg
      /\ (e = StructError \/ e = UnicodeEncodeError)
      /\ sock' = sock
  end.
Proof.
  unfold send_message.
  destruct (encode_message msg) as [frame | e] eqn:Hframe.
  - unfold sendall. destruct (room sock) as [k |] eqn:Hroom.
    + destruct (Nat.leb_spec (length frame) k) as [Hfits | Hfull].
      * exists frame. now split.
      * exists frame, k. now repeat split.
    + exists frame. now split.
  - split; [| split; [exact (encode_message_raises msg e Hframe) | reflexivity]].
    intros Hok. destruct (wire_ok_encodes msg Hok) as [frame Hok'].
    rewrite Hok' in Hframe. discriminate.
Qed.

End StreamProofs.

(** ** Headers *)

Module HeaderProofs.
Import Protocol CodecProofs WireProofs.

Lemma Command_of_inv v c : Command_of v = Ok c -> Command_value c = v.
Proof.
  unfold Command_of.
  destruct (find _ all_commands) as [c' |] eqn:Hfind; [| discriminate].
  intros E. apply Ok_inj in E. subst c'.
  apply find_some in Hfind. now apply Z.eqb_eq.
Qed.

(** The variant [decode_body] builds is the one of the command. *)
Lemma decode_body_command cmd r msg r' :
  decode_body cmd r = Ok (msg, r') -> command msg = cmd.
Proof.
  intros Hdec.
  destruct cmd; cbn [decode_body] in Hdec;
    repeat match goal with
      | H : bind _ _ _ = Ok _ |- _ =>
          apply bind_inv in H; destruct H as (? & ? & _ & H)
      end;
    first [ apply ret_inv in Hdec; destruct Hdec as [-> _]; reflexivity
          | unfold lift in Hdec; discriminate Hdec ].
Qed.

(** X9.  A frame from which [decode_message] returns a message has a full
    header with the magic [QP] and version 1, and its command code is the
    one of the message's variant. *)
Theorem decoded_message_matches_header data msg :
  decode_message data = Ok (Some msg) ->
  (HEADER_SIZE <= length data)%nat
  /\ slice data 0 2 = PROTOCOL_MAGIC
  /\ nth 2 data 0 = PROTOCOL_VERSION
  /\ nth 3 data 0 * 256 + nth 4 data 0 = Command_value (command msg).
Proof.
  intros Hdec.
  destruct (Nat.lt_ge_cases (length data) HEADER_SIZE) as [Hshort | Hfull].
  { rewrite (decode_short_frame data Hshort) in Hdec. discriminate. }
  split; [exact Hfull |].
  destruct (frame_shape data Hfull)
    as (m1 & m0 & v & c1 & c0 & l3 & l2 & l1 & l0 & p & ->).
  rewrite decode_message_header in Hdec.
  unfold bytes_eqb in Hdec.
  destruct (list_eq_dec Z.eq_dec [m1; m0] PROTOCOL_MAGIC) as [Hmagic |];
    [| discriminate].
  destruct (Z.eqb_spec v PROTOCOL_VERSION) as [Hv |]; [| discriminate].
  cbn [negb] in Hdec.
  destruct (Command_of (c1 * 256 + c0)) as [cmd |] eqn:Hcmd; [| discriminate].
  cbn [rbind] in Hdec.
  destruct (decode_body cmd _) as [[msg' r'] |] eqn:Hbody; [| discriminate].
  cbn [rbind fst] in Hdec. apply Ok_inj in Hdec. inversion Hdec; subst msg'.
  split; [exact Hmagic | split; [exact Hv |]].
  cbn [nth]. rewrite (decode_body_command _ _ _ _ Hbody).
  symmetry. now apply Command_of_inv.
Qed.

(** X10.  What [decode_message] does with a bad header: fewer than nine
    bytes give [None]; nine bytes or more with another magic than [QP],
    another version than 1, a command code that is no member of [Command],
    or one of the two members the decoder has no branch for
    ([QPROTO_USER_LIST_REQ], [QPROTO_USER_LIST]) raise [ValueError],
    whatever the payload. *)
Theorem decode_message_header_errors data :
  let code := nth 3 data 0 * 256 + nth 4 data 0 in
  (length data < HEADER_SIZE)%nat
  \/ slice data 0 2 <> PROTOCOL_MAGIC
  \/ nth 2 data 0 <> PROTOCOL_VERSION
  \/ (forall c, Command_value c <> code)
  \/ code = Command_value QPROTO_USER_LIST_REQ
  \/ code = Command_value QPROTO_USER_LIST ->
  decode_message data
  = if (length data <? HEADER_SIZE)%nat then Ok None else Raise ValueError.
Proof.
  intros code Hbad.
  destruct (Nat.ltb_spec (length data) HEADER_SIZE) as [Hshort | Hfull].
  { now apply decode_short_frame. }
  destruct Hbad as [Hs | [Hm | [Hv | [Hc | Hunhandled]]]].
  - lia.
  - now apply decode_wrong_magic.
  - now apply decode_wrong_version.
  - now apply decode_unknown_command.
  - destruct (frame_shape data Hfull)
      as (m1 & m0 & v & c1 & c0 & l3 & l2 & l1 & l0 & p & ->).
    rewrite decode_message_header. subst code. cbn [nth] in Hunhandled.
    destruct (negb (bytes_eqb [m1; m0] PROTOCOL_MAGIC)); [reflexivity |].
    destruct (negb (v =? PROTOCOL_VERSION)); [reflexivity |].
    destruct Hunhandled as [-> | ->]; rewrite Command_of_value; reflexivity.
Qed.

(** X11.  [decode_message] looks at the header and at as many bytes after it
    as the header announces: what follows them in the data changes
    nothing. *)
Theorem decode_message_ignores_trailing header payload extra plen :
  length header = HEADER_SIZE ->
  unpack_I (slice header 5 9) = Ok plen ->
  (Z.to_nat plen <= length payload)%nat ->
  decode_message (header ++ payload ++ extra) = decode_message (header ++ payload).
Proof.
  intros Hlen Hplen Hpay.
  destruct (frame_shape header) as
    (m1 & m0 & v & c1 & c0 & l3 & l2 & l1 & l0 & tl & ->); [lia |].
  cbn [length] in Hlen. unfold HEADER_SIZE in Hlen.
  destruct tl; [| cbn [length] in Hlen; lia].
  unfold slice in Hplen. cbn [skipn firstn Nat.sub unpack_I] in Hplen.
  apply Ok_inj in Hplen. subst plen.
  cbn [app]. rewrite !decode_message_header.
  rewrite firstn_app.
  replace (Z.to_nat (((l3 * 256 + l2) * 256 + l1) * 256 + l0) - length payload)%nat
    with 0%nat by lia.
  cbn [firstn]. now rewrite app_nil_r.
Qed.

End HeaderProofs.

(** ** What was received can be sent *)

Module ReencodeProofs.
Import Protocol CodecProofs WireProofs.

Lemma skipn_cons_length {A} n (l : list A) x t :
  skipn n l = x :: t -> (n + 1 + length t = length l)%nat.
Proof.
  intros E. apply (f_equal (@length A)) in E.
  rewrite length_skipn in E. cbn [length] in E. lia.
Qed.

Lemma read_uint8_consumed r v r' :
  read_uint8 r = Ok (v, r') ->
  data r' = data r /\ consumed r' = consumed r + 1.
Proof.
  unfold read_uint8, unpack_from_B.
  destruct (skipn (offset r) (data r)) as [| b0 t] eqn:E; [discriminate |].
  cbn [rbind]. intros H. apply Ok_inj in H. inversion H; subst v r'.
  apply skipn_cons_length in E.
  unfold consumed. cbn [data offset]. split; [reflexivity | lia].
Qed.

Lemma read_uint16_consumed r v r' :
  read_uint16 r = Ok (v, r') ->
  unpack_from_H (data r) (offset r) = Ok v
  /\ r' = mkReader (data r) (offset r + 2)
  /\ (offset r + 2 <= length (data r))%nat
  /\ consumed r' = consumed r + 2.
Proof.
  unfold read_uint16, unpack_from_H.
  destruct (skipn (offset r) (data r)) as [| b1 [| b0 t]] eqn:E;
    try discriminate.
  cbn [rbind]. intros H. apply Ok_inj in H. inversion H; subst v r'.
  apply skipn_cons_length in E. cbn [length] in E.
  unfold consumed. cbn [data offset]. repeat split; lia.
Qed.

Lemma read_uint32_consumed r v r' :
  read_uint32 r = Ok (v, r') ->
  r' = mkReader (data r) (offset r + 4)
  /\ (offset r + 4 <= length (data r))%nat
  /\ consumed r' = consumed r + 4.
Proof.
  unfold read_uint32, unpack_from_I.
  destruct (skipn (offset r) (data r)) as [| b3 [| b2 [| b1 [| b0 t]]]] eqn:E;
    try discriminate.
  cbn [rbind]. intros H. apply Ok_inj in H. inversion H; subst v r'.
  apply skipn_cons_length in E. cbn [length] in E.
  unfold consumed. cbn [data offset]. repeat split; lia.
Qed.

(** The bytes a length-prefixed field takes: those that are there. *)
Lemma take_consumed (d : bytes) o n :
  (o <= length d)%nat ->
  len (slice d o (o + n))
  = consumed (mkReader d (o + n)) - consumed (mkReader d o).
Proof.
  intros Ho. unfold slice, len, consumed. cbn [data offset].
  rewrite length_firstn, length_skipn. lia.
Qed.

Lemma read_string_consumed r s r' :
  read_string r = Ok (s, r') ->
  data r' = data r /\ string_size s = consumed r' - consumed r.
Proof.
  intros Hread. unfold read_string in Hread.
  apply bind_inv in Hread. destruct Hread as (n & r1 & Hn & Hread).
  apply read_uint16_consumed in Hn. destruct Hn as (_ & -> & Hin & Hc).
  apply bind_inv in Hread. destruct Hread as (raw & r2 & Hraw & Hread).
  unfold peek in Hraw. apply Ok_inj in Hraw. inversion Hraw; subst raw r2.
  apply bind_inv in Hread. destruct Hread as (v & r3 & Hv & Hread).
  apply lift_inv in Hv. destruct Hv as [Hv ->].
  apply bind_inv in Hread. destruct Hread as ([] & r4 & Hadv & Hread).
  unfold advance in Hadv. apply Ok_inj in Hadv. inversion Hadv; subst r4.
  apply ret_inv in Hread. destruct Hread as [-> ->].
  cbn [data offset] in *. split; [reflexivity |].
  destruct (utf8_decode_valid _ _ Hv) as [_ Hlen].
  unfold string_size. rewrite Hlen, take_consumed by exact Hin. lia.
Qed.

Lemma read_bytes_consumed r b r' :
  read_bytes r = Ok (b, r') ->
  data r' = data r /\ 4 + len b = consumed r' - consumed r.
Proof.
  intros Hread. unfold read_bytes in Hread.
  apply bind_inv in Hread. destruct Hread as (n & r1 & Hn & Hread).
  apply read_uint32_consumed in Hn. destruct Hn as (-> & Hin & Hc).
  apply bind_inv in Hread. destruct Hread as (raw & r2 & Hraw & Hread).
  unfold peek in Hraw. apply Ok_inj in Hraw. inversion Hraw; subst raw r2.
  apply bind_inv in Hread. destruct Hread as ([] & r4 & Hadv & Hread).
  unfold advance in Hadv. apply Ok_inj in Hadv. inversion Hadv; subst r4.
  apply ret_inv in Hread. destruct Hread as [-> ->].
  cbn [data offset] in *. split; [reflexivity |].
  rewrite take_consumed by exact Hin. lia.
Qed.

Lemma read_contacts_consumed n : forall r cs r',
  read_contacts n r = Ok (cs, r') ->
  data r' = data r
  /\ length cs = n
  /\ contacts_size cs = consumed r' - consumed r.
Proof.
  induction n as [| n IH]; intros r cs r' Hread; cbn [read_contacts] in Hread.
  - apply ret_inv in Hread. destruct Hread as [-> ->].
    cbn [contacts_size length]. repeat split; lia.
  - apply bind_inv in Hread. destruct Hread as (name & r1 & Hname & Hread).
    apply read_string_consumed in Hname. destruct Hname as [D1 S1].
    apply bind_inv in Hread. destruct Hread as (st & r2 & Hst & Hread).
    apply read_uint8_consumed in Hst. destruct Hst as [D2 S2].
    apply bind_inv in Hread. destruct Hread as (st' & r3 & Hst' & Hread).
    apply lift_inv in Hst'. destruct Hst' as [_ ->].
    apply bind_inv in Hread. destruct Hread as (rest & r4 & Hrest & Hread).
    apply ret_inv in Hread. destruct Hread as [-> ->].
    destruct (IH _ _ _ Hrest) as (D3 & L3 & S3).
    cbn [contacts_size length Protocol.username].
    repeat split; [congruence | lia | lia].
Qed.

Lemma read_users_consumed n : forall r us r',
  read_users n r = Ok (us, r') ->
  data r' = data r
  /\ length us = n
  /\ users_size us = consumed r' - consumed r.
Proof.
  induction n as [| n IH]; intros r us r' Hread; cbn [read_users] in Hread.
  - apply ret_inv in Hread. destruct Hread as [-> ->].
    cbn [users_size length]. repeat split; lia.
  - apply bind_inv in Hread. destruct Hread as (u & r1 & Hu & Hread).
    apply read_string_consumed in Hu. destruct Hu as [D1 S1].
    apply bind_inv in Hread. destruct Hread as (rest & r4 & Hrest & Hread).
    apply ret_inv in Hread. destruct Hread as [-> ->].
    destruct (IH _ _ _ Hrest) as (D3 & L3 & S3).
    cbn [users_size length].
    repeat split; [congruence | lia | lia].
Qed.

(** Takes a successful run of a decoder apart, keeping for each read how
    far it moved the reader. *)
Ltac eat :=
  repeat match goal with
    | H : bind _ _ _ = Ok _ |- _ =>
        apply bind_inv in H; destruct H as (? & ? & ? & H)
    | H : ret _ _ = Ok _ |- _ =>
        apply ret_inv in H; destruct H as [-> ->]
    | H : lift _ _ = Ok _ |- _ =>
        apply lift_inv in H; destruct H as [? ->]
    | H : read_string _ = Ok _ |- _ =>
        apply read_string_consumed in H; destruct H as [? ?]
    | H : read_uint8 _ = Ok _ |- _ =>
        apply read_uint8_consumed in H; destruct H as [? ?]
    | H : read_uint16 _ = Ok _ |- _ =>
        apply read_uint16_consumed in H; destruct H as (? & -> & ? & ?)
    | H : read_bytes _ = Ok _ |- _ =>
        apply read_bytes_consumed in H; destruct H as [? ?]
    | H : read_contacts _ _ = Ok _ |- _ =>
        apply read_contacts_consumed in H; destruct H as (? & ? & ?)
    | H : read_users _ _ = Ok _ |- _ =>
        apply read_users_consumed in H; destruct H as (? & ? & ?)
    end.

(** The payload of a decoded message is as long as the part of the data
    the decoder went over, and its list is as long as its count said. *)
Lemma decode_body_size cmd r msg r' :
  bytes_ok (data r) ->
  decode_body cmd r = Ok (msg, r') ->
  payload_size msg = consumed r' - consumed r /\ entry_count msg <= 65535.
Proof.
  intros Hd Hdec.
  destruct cmd; cbn [decode_body] in Hdec; eat; try discriminate;
    cbn [payload_size entry_count data offset] in *;
    (split; [lia |]);
    try lia;
    match goal with
    | Hv : unpack_from_H _ _ = Ok ?v, Hl : length _ = Z.to_nat ?v |- _ =>
        apply (unpack_from_H_range _ _ _ Hd) in Hv; unfold len; lia
    end.
Qed.

Lemma decode_body_data cmd r msg r' :
  decode_body cmd r = Ok (msg, r') -> data r' = data r.
Proof.
  intros Hdec.
  destruct cmd; cbn [decode_body] in Hdec; eat; try discriminate;
    cbn [data] in *; congruence.
Qed.

Lemma consumed_bounds r : 0 <= consumed r <= len (data r).
Proof. unfold consumed, len. lia. Qed.

(** What was decoded from a frame within the size limit can be encoded
    again, to a frame that is not longer and decodes to the same
    message. *)
Lemma decoded_message_reencodes frame msg :
  bytes_ok frame ->
  len frame <= Z.of_nat HEADER_SIZE + MAX_MESSAGE_SIZE ->
  decode_message frame = Ok (Some msg) ->
  exists frame',
    encode_message msg = Ok frame'
    /\ decode_message frame' = Ok (Some msg)
    /\ len frame' <= len frame.
Proof.
  intros Hok Hmax Hdec.
  pose proof (decode_message_fields_ok frame msg Hok Hmax Hdec) as Hf.
  destruct (Nat.lt_ge_cases (length frame) HEADER_SIZE) as [Hshort | Hfull].
  { rewrite (decode_short_frame frame Hshort) in Hdec. discriminate. }
  destruct (frame_shape frame Hfull)
    as (m1 & m0 & v & c1 & c0 & l3 & l2 & l1 & l0 & p & ->).
  rewrite decode_message_header in Hdec.
  destruct (negb (bytes_eqb [m1; m0] PROTOCOL_MAGIC)); [discriminate |].
  destruct (negb (v =? PROTOCOL_VERSION)); [discriminate |].
  destruct (Command_of (c1 * 256 + c0)) as [cmd |]; [| discriminate].
  cbn [rbind] in Hdec.
  destruct (decode_body cmd _) as [[msg' r'] |] eqn:Hbody; [| discriminate].
  cbn [rbind fst] in Hdec. apply Ok_inj in Hdec. inversion Hdec; subst msg'.
  set (n := Z.to_nat (((l3 * 256 + l2) * 256 + l1) * 256 + l0)) in *.
  assert (Hp : bytes_ok (firstn n p)).
  { apply bytes_ok_firstn. unfold bytes_ok in *.
    do 9 (inversion Hok as [| ? ? _ Hok']; subst; clear Hok;
          rename Hok' into Hok).
    exact Hok. }
  destruct (decode_body_size cmd (mkReader (firstn n p) 0) msg r' Hp Hbody)
    as [Hsize Hcount].
  pose proof (decode_body_data _ _ _ _ Hbody) as Hdata. cbn [data] in Hdata.
  pose proof (consumed_bounds r') as Hr'. rewrite Hdata in Hr'.
  unfold consumed at 2 in Hsize. cbn [data offset Nat.min] in Hsize.
  assert (Hlen : payload_size msg <= len p).
  { unfold len in *. rewrite length_firstn in Hr'. lia. }
  unfold len in Hmax. cbn [length] in Hmax. unfold HEADER_SIZE in Hmax.
  assert (Hbig : payload_size msg <= 4294967295)
    by (unfold len, MAX_MESSAGE_SIZE in *; lia).
  destruct (payload_codec msg Hf Hcount Hbig) as (q & Hr & Hw & Hl).
  eexists. split; [apply (encode_message_frame msg q Hw); lia |].
  split.
  - rewrite decode_message_header.
    rewrite magic_eqb_refl. cbn [negb].
    change (1 =? PROTOCOL_VERSION) with true. cbn [negb].
    rewrite be16_join, Command_of_value. cbn [rbind].
    rewrite be32_join, to_nat_len, firstn_all.
    rewrite (reads_whole _ _ _ Hr). reflexivity.
  - unfold len in *. cbn [length]. lia.
Qed.

(** X12.  A message [recv_message] returns, from a socket that delivers
    bytes, has valid fields and is one [encode_message] takes: its frame
    has at most [MAX_MESSAGE_SIZE] payload bytes and decodes to the same
    message.  What a peer got through to the server the server can send
    on. *)
Theorem received_message_reencodes sock msg sock' :
  Forall bytes_ok sock ->
  recv_message sock = (Ok (Some msg), sock') ->
  fields_ok msg
  /\ exists frame,
       encode_message msg = Ok frame
       /\ decode_message frame = Ok (Some msg)
       /\ len frame <= Z.of_nat HEADER_SIZE + MAX_MESSAGE_SIZE.
Proof.
  intros Hsock Hrecv.
  split; [exact (recv_message_fields_ok sock msg sock' Hsock Hrecv) |].
  unfold recv_message in Hrecv.
  destruct (_recv_exactly sock HEADER_SIZE) as [[header |] sock1] eqn:Hhead;
    [| discriminate].
  destruct (recv_exactly_ok _ _ _ _ Hsock Hhead) as (Hh & Hhlen & Hsock1).
  destruct (falsy (Some header)); [discriminate |].
  destruct (negb (bytes_eqb _ _)); [discriminate |].
  destruct (unpack_I (slice header 5 9)) as [plen | e];
    [| unfold recv_except in Hrecv; destruct (recv_catches e); discriminate].
  destruct (Z.ltb_spec MAX_MESSAGE_SIZE plen) as [Hbig | Hsmall];
    [discriminate |].
  assert (Hfinish : forall payload,
             bytes_ok payload -> len payload <= MAX_MESSAGE_SIZE ->
             recv_except (decode_message (header ++ payload)) = Ok (Some msg) ->
             exists frame,
               encode_message msg = Ok frame
               /\ decode_message frame = Ok (Some msg)
               /\ len frame <= Z.of_nat HEADER_SIZE + MAX_MESSAGE_SIZE).
  { intros payload Hp Hplen Hdec. unfold recv_except in Hdec.
    destruct (decode_message (header ++ payload)) as [[m |] | e] eqn:Hd;
      try discriminate; [| destruct (recv_catches e); discriminate].
    apply Ok_inj in Hdec. inversion Hdec; subst m.
    assert (Hframe : len (header ++ payload)
                     <= Z.of_nat HEADER_SIZE + MAX_MESSAGE_SIZE)
      by (rewrite len_app; unfold len at 1; rewrite Hhlen; lia).
    destruct (decoded_message_reencodes (header ++ payload) msg) as
      (frame & Henc & Hback & Hle); [| exact Hframe | exact Hd |].
    { unfold bytes_ok in *. now apply Forall_app. }
    exists frame. repeat split; [exact Henc | exact Hback | lia]. }
  destruct (Z.ltb_spec 0 plen) as [Hpos | Hzero].
  - destruct (_recv_exactly sock1 (Z.to_nat plen)) as [[payload |] sock2]
      eqn:Hpay; cbn [andb falsy] in Hrecv; [| discriminate].
    destruct (recv_exactly_ok _ _ _ _ Hsock1 Hpay) as (Hp & Hplen & _).
    destruct payload as [| b payload']; [discriminate |].
    pose proof (f_equal fst Hrecv) as Hdec. cbn [fst] in Hdec.
    apply (Hfinish (b :: payload') Hp); [| exact Hdec].
    unfold len. rewrite Hplen. lia.
  - cbn [andb] in Hrecv. pose proof (f_equal fst Hrecv) as Hdec. cbn [fst] in Hdec.
    apply (Hfinish [] ltac:(constructor)); [| exact Hdec].
    unfold len, MAX_MESSAGE_SIZE. cbn [length]. lia.
Qed.

End ReencodeProofs.

(** ** What the handlers leave alone *)

Module FrameRules.
Import Protocol Server CodecProofs ServerProofs InvariantProofs.
Local Open Scope server_scope.

Section Keeps.
Context `{Environment} {X : Type} (f : World -> X).

Lemma keeps_ret {A} (a : A) : keeps f (mret a).
Proof. intros w. reflexivity. Qed.

Lemma keeps_raise {A} e : keeps f (@raise _ A e).
Proof. intros w. reflexivity. Qed.

Lemma keeps_bind {A B} (m : M A) (k : A -> M B) :
  keeps f m -> (forall a, keeps f (k a)) -> keeps f (mbind m k).
Proof.
  intros Hm Hk w. unfold exec, mbind. specialize (Hm w). unfold exec in Hm.
  destruct (m w) as [[a | e] w1]; cbn [snd] in *.
  - rewrite <- Hm. apply Hk.
  - exact Hm.
Qed.

Lemma keeps_get_session s : keeps f (get_session s).
Proof. intros w. reflexivity. Qed.

Lemma keeps_get_clients : keeps f get_clients.
Proof. intros w. reflexivity. Qed.

Lemma keeps_now : keeps f now.
Proof. intros w. reflexivity. Qed.

Lemma keeps_get_contacts uid : keeps f (get_contacts uid).
Proof. intros w. reflexivity. Qed.

Lemma keeps_search_users q uid : keeps f (search_users q uid).
Proof. intros w. reflexivity. Qed.

Lemma keeps_get_avatar u : keeps f (get_avatar u).
Proof. intros w. reflexivity. Qed.

Lemma keeps_try_except m : keeps f m -> keeps f (try_except m).
Proof.
  intros Hm w. specialize (Hm w). unfold exec, try_except in *.
  now destruct (m w) as [[[] | e] w1].
Qed.

Lemma keeps_try_finally {A} (m : M A) g :
  keeps f m -> keeps f g -> keeps f (try_finally m g).
Proof.
  intros Hm Hg w. specialize (Hm w). unfold exec, try_finally in *.
  destruct (m w) as [r w1]. cbn [snd] in Hm.
  specialize (Hg w1). unfold exec in Hg.
  destruct (g w1) as [[[] | e] w2]; cbn [snd] in *; now rewrite Hg.
Qed.

(** What is written to the log and what becomes of the sockets does not
    show in [f]. *)
Section Quiet.
Hypothesis f_quiet :
  forall w ok l, f (mkWorld (db w) (sessions w) (clients w) ok l) = f w.

Lemma keeps_emit e : keeps f (emit e).
Proof. intros w. apply f_quiet. Qed.

Lemma keeps_close s : keeps f (close s).
Proof. intros w. apply f_quiet. Qed.

Lemma keeps_send to msg : keeps f (send to msg).
Proof.
  intros w. unfold exec, send.
  destruct (encode_message msg); [apply f_quiet | reflexivity].
Qed.

Lemma keeps_send_named to name mk : keeps f (send_named to name mk).
Proof.
  unfold send_named. destruct name; [apply keeps_send | apply keeps_raise].
Qed.

Lemma keeps_registry_contains name : keeps f (registry_contains name).
Proof. intros w. apply f_quiet. Qed.

Lemma keeps_registry_get name : keeps f (registry_get name).
Proof. intros w. apply f_quiet. Qed.

Lemma keeps_authenticate_user u p : keeps f (authenticate_user u p).
Proof. intros w. apply f_quiet. Qed.

End Quiet.
End Keeps.

Section KeepsParts.
Context `{Environment}.

Lemma keeps_sessions_registry_set name s : keeps sessions (registry_set name s).
Proof. intros w. reflexivity. Qed.

Lemma keeps_sessions_registry_del name : keeps sessions (registry_del name).
Proof. intros w. reflexivity. Qed.

Lemma keeps_db_registry_set name s : keeps db (registry_set name s).
Proof. intros w. reflexivity. Qed.

Lemma keeps_db_registry_del name : keeps db (registry_del name).
Proof. intros w. reflexivity. Qed.

Lemma keeps_db_set_session s cs : keeps db (set_session s cs).
Proof. intros w. reflexivity. Qed.

Lemma keeps_register_user {X} (f : World -> X) u p :
  (forall w d, f (mkWorld d (sessions w) (clients w) (sock_ok w) (log w)) = f w) ->
  keeps f (register_user u p).
Proof.
  intros Hf w. unfold exec, register_user.
  destruct (store_register (db w) u p). apply Hf.
Qed.

Lemma keeps_add_contact {X} (f : World -> X) uid c :
  (forall w d, f (mkWorld d (sessions w) (clients w) (sock_ok w) (log w)) = f w) ->
  keeps f (add_contact uid c).
Proof.
  intros Hf w. unfold exec, add_contact.
  destruct (store_add_contact (db w) uid c). apply Hf.
Qed.

Lemma keeps_remove_contact {X} (f : World -> X) uid c :
  (forall w d, f (mkWorld d (sessions w) (clients w) (sock_ok w) (log w)) = f w) ->
  keeps f (remove_contact uid c).
Proof.
  intros Hf w. unfold exec, remove_contact.
  destruct (store_remove_contact (db w) uid c). apply Hf.
Qed.

Lemma keeps_set_avatar {X} (f : World -> X) uid d :
  (forall w d, f (mkWorld d (sessions w) (clients w) (sock_ok w) (log w)) = f w) ->
  keeps f (set_avatar uid d).
Proof.
  intros Hf w. unfold exec, set_avatar.
  destruct (store_set_avatar (db w) uid d). apply Hf.
Qed.

End KeepsParts.

(** Decomposes a handler into its effects; [extra] closes the calls of
    other handlers. *)
Ltac quiet := intros; reflexivity.

Ltac keeps_step extra :=
  cbv beta;
  lazymatch goal with
  | |- keeps _ (mbind _ _) => apply keeps_bind; [| intros ?]
  | |- keeps _ (mret _) => apply keeps_ret
  | |- keeps _ (raise _) => apply keeps_raise
  | |- keeps _ (if ?b then _ else _) => destruct b
  | |- keeps _ (match ?x with _ => _ end) => destruct x
  | |- keeps _ (emit _) => apply keeps_emit; quiet
  | |- keeps _ (send _ _) => apply keeps_send; quiet
  | |- keeps _ (send_named _ _ _) => apply keeps_send_named; quiet
  | |- keeps _ (get_session _) => apply keeps_get_session
  | |- keeps _ get_clients => apply keeps_get_clients
  | |- keeps _ now => apply keeps_now
  | |- keeps _ (close _) => apply keeps_close; quiet
  | |- keeps _ (registry_contains _) => apply keeps_registry_contains; quiet
  | |- keeps _ (registry_get _) => apply keeps_registry_get; quiet
  | |- keeps _ (authenticate_user _ _) => apply keeps_authenticate_user; quiet
  | |- keeps _ (get_contacts _) => apply keeps_get_contacts
  | |- keeps _ (search_users _ _) => apply keeps_search_users
  | |- keeps _ (get_avatar _) => apply keeps_get_avatar
  | |- keeps _ (register_user _ _) => apply keeps_register_user; quiet
  | |- keeps _ (add_contact _ _) => apply keeps_add_contact; quiet
  | |- keeps _ (remove_contact _ _) => apply keeps_remove_contact; quiet
  | |- keeps _ (set_avatar _ _) => apply keeps_set_avatar; quiet
  | |- keeps sessions (registry_set _ _) => apply keeps_sessions_registry_set
  | |- keeps sessions (registry_del _) => apply keeps_sessions_registry_del
  | |- keeps db (registry_set _ _) => apply keeps_db_registry_set
  | |- keeps db (registry_del _) => apply keeps_db_registry_del
  | |- keeps db (set_session _ _) => apply keeps_db_set_session
  | |- keeps _ _ => extra
  end.

Ltac keeps_steps extra := repeat (keeps_step extra).

Section HandlerFrames.
Context `{Environment}.

Lemma keeps_broadcast_loop {X} (f : World -> X) d own msg :
  (forall w ok l, f (mkWorld (db w) (sessions w) (clients w) ok l) = f w) ->
  keeps f (broadcast_loop d own msg).
Proof.
  intros Hf. induction d as [| [k c] d IH]; cbn [broadcast_loop].
  - apply keeps_ret.
  - apply keeps_bind; [| intros _; exact IH].
    destruct (negb (str_eqb k own)); [| apply keeps_ret].
    apply keeps_bind; [now apply keeps_send | intros _; apply keeps_ret].
Qed.

Lemma keeps_broadcast_presence {X} (f : World -> X) s st :
  (forall w ok l, f (mkWorld (db w) (sessions w) (clients w) ok l) = f w) ->
  keeps f (_broadcast_presence s st).
Proof.
  intros Hf. unfold _broadcast_presence.
  keeps_steps ltac:(now apply keeps_broadcast_loop).
Qed.

Lemma keeps_contact_statuses {X} (f : World -> X) names :
  (forall w ok l, f (mkWorld (db w) (sessions w) (clients w) ok l) = f w) ->
  keeps f (contact_statuses names).
Proof.
  intros Hf. induction names as [| n names IH]; cbn [contact_statuses].
  - apply keeps_ret.
  - apply keeps_bind; [now apply keeps_registry_contains | intros online].
    apply keeps_bind; [exact IH | intros tl; apply keeps_ret].
Qed.

Lemma keeps_not_authenticated {X} (f : World -> X) s :
  (forall w ok l, f (mkWorld (db w) (sessions w) (clients w) ok l) = f w) ->
  keeps f (not_authenticated s).
Proof.
  intros Hf. unfold not_authenticated.
  apply keeps_bind; [now apply keeps_send | intros _; apply keeps_ret].
Qed.

Lemma keeps_get_contacts_handler {X} (f : World -> X) s :
  (forall w ok l, f (mkWorld (db w) (sessions w) (clients w) ok l) = f w) ->
  keeps f (_handle_get_contacts s).
Proof.
  intros Hf. unfold _handle_get_contacts.
  apply keeps_bind; [apply keeps_get_session | intros cs].
  destruct (negb (authenticated cs)); [now apply keeps_not_authenticated |].
  apply keeps_bind; [apply keeps_get_contacts | intros names].
  apply keeps_bind; [now apply keeps_contact_statuses | intros contacts].
  apply keeps_bind; [now apply keeps_send | intros _; apply keeps_ret].
Qed.

Ltac handlers :=
  unfold _handle_register, _handle_login, login_after_check, _handle_logout,
         _handle_send_msg, _handle_add_contact, _handle_remove_contact,
         _handle_search_user, _handle_earthquake, _handle_avatar_set,
         _handle_avatar_get.

Ltac inner :=
  first [ apply keeps_get_contacts_handler; quiet
        | apply keeps_not_authenticated; quiet
        | apply keeps_broadcast_presence; quiet ].

Lemma dispatch_keeps_sessions s msg :
  is_login msg = false -> keeps sessions (dispatch s msg).
Proof.
  intros Hmsg. destruct msg; try discriminate Hmsg;
    cbn [dispatch]; handlers; keeps_steps inner.
Qed.

Lemma dispatch_keeps_clients s msg :
  is_login msg = false -> keeps clients (dispatch s msg).
Proof.
  intros Hmsg. destruct msg; try discriminate Hmsg;
    cbn [dispatch]; handlers; keeps_steps inner.
Qed.

Lemma dispatch_keeps_db s msg :
  writes_store msg = false -> keeps db (dispatch s msg).
Proof.
  intros Hmsg. destruct msg; try discriminate Hmsg;
    cbn [dispatch]; handlers; keeps_steps inner.
Qed.

Lemma cleanup_keeps_sessions s : keeps sessions (_cleanup_session s).
Proof. unfold _cleanup_session. keeps_steps inner. Qed.

Lemma cleanup_keeps_db s : keeps db (_cleanup_session s).
Proof. unfold _cleanup_session. keeps_steps inner. Qed.

End HandlerFrames.

End FrameRules.

(** ** Whole connections *)

Module ConnectionProofs.
Import Protocol Server CodecProofs ServerProofs InvariantProofs FrameRules.
Local Open Scope server_scope.

Section Connections.
Context `{Environment}.

Lemma exec_bind {A B} (m : M A) (k : A -> M B) w :
  exec (mbind m k) w
  = match m w with
    | (Ok a, w1) => exec (k a) w1
    | (Raise _, w1) => w1
    end.
Proof. unfold exec, mbind. now destruct (m w) as [[a | e] w1]. Qed.

Lemma exec_handle_client s inbox w :
  exec (_handle_client s inbox) w
  = exec (_cleanup_session s) (exec (read_loop s inbox) w).
Proof.
  unfold exec. rewrite handle_client_cleans_up.
  destruct (read_loop s inbox w) as [r w1]. cbn [snd].
  now destruct (_cleanup_session s w1) as [[[] | e] w2].
Qed.

(** ** What a login does to the sessions and the registry *)

Lemma login_step s mu mp w :
  let w' := exec (_handle_login s mu mp) w in
  ((dict_contains (clients w) (strip mu) = true
    \/ forall id, store_authenticate (db w) (strip mu) mp <> AuthMatch id)
   /\ sessions w' = sessions w /\ clients w' = clients w)
  \/ (exists id,
        store_authenticate (db w) (strip mu) mp = AuthMatch id
        /\ dict_contains (clients w) (strip mu) = false
        /\ sessions w'
           = (fun s' => if Nat.eqb s' s
                        then mkSession (Some (strip mu)) (Some id) true
                        else sessions w s')
        /\ clients w' = dict_set (clients w) (strip mu) s).
Proof.
  intros w'. subst w'. unfold _handle_login. rewrite exec_bind.
  rewrite registry_contains_run.
  destruct (dict_contains (clients w) (strip mu)) eqn:Hin.
  - left. split; [now left | split].
    + transitivity (sessions (logged w [EvLookup (strip mu)])); [| reflexivity].
      apply (keeps_bind sessions);
        [apply keeps_send; quiet | intros _; apply keeps_ret].
    + transitivity (clients (logged w [EvLookup (strip mu)])); [| reflexivity].
      apply (keeps_bind clients);
        [apply keeps_send; quiet | intros _; apply keeps_ret].
  - unfold login_after_check. rewrite exec_bind.
    unfold authenticate_user. cbn [db logged].
    destruct (store_authenticate (db w) (strip mu) mp) as [id | | |] eqn:Hauth;
      cbn [fst snd].
    2-4: left; split; [right; intros id; discriminate |];
      split;
      [ match goal with
        | |- sessions (exec ?m ?w0) = _ =>
            transitivity (sessions w0); [| reflexivity];
            apply (keeps_bind sessions);
              [apply keeps_send; quiet | intros _; apply keeps_ret]
        end
      | match goal with
        | |- clients (exec ?m ?w0) = _ =>
            transitivity (clients w0); [| reflexivity];
            apply (keeps_bind clients);
              [apply keeps_send; quiet | intros _; apply keeps_ret]
        end ].
    right. exists id. split; [reflexivity | split; [reflexivity |]].
    rewrite exec_bind. cbn [set_session].
    rewrite exec_bind. cbn [registry_set mbind emit get_clients set_clients
                            db sessions clients sock_ok log].
    split.
    + match goal with
      | |- sessions (exec ?m ?w0) = _ =>
          transitivity (sessions w0); [| reflexivity];
          apply (keeps_bind sessions);
            [apply keeps_send; quiet
            | intros _; apply keeps_broadcast_presence; quiet]
      end.
    + match goal with
      | |- clients (exec ?m ?w0) = _ =>
          transitivity (clients w0); [| reflexivity];
          apply (keeps_bind clients);
            [apply keeps_send; quiet
            | intros _; apply keeps_broadcast_presence; quiet]
      end.
Qed.


(** ** Runs of the read loop *)

Lemma read_loop_keeps_db s inbox :
  read_only inbox -> keeps db (read_loop s inbox).
Proof.
  induction 1 as [| [msg |] inbox Hmsg _ IH]; cbn [read_loop].
  - apply keeps_ret.
  - apply keeps_bind; [now apply dispatch_keeps_db |].
    intros _. destruct (breaks msg); [apply keeps_ret | exact IH].
  - apply keeps_ret.
Qed.

Lemma read_loop_keeps_logins s inbox :
  login_count inbox = 0%nat ->
  keeps sessions (read_loop s inbox) /\ keeps clients (read_loop s inbox).
Proof.
  unfold login_count.
  induction inbox as [| [msg |] inbox IH]; cbn [read_loop filter].
  - intros _. split; apply keeps_ret.
  - destruct (is_login msg) eqn:Hmsg; [discriminate |].
    intros Hrest. destruct (IH Hrest) as [IHs IHc].
    split; (apply keeps_bind;
            [first [ now apply dispatch_keeps_sessions
                   | now apply dispatch_keeps_clients ]
            | intros _; destruct (breaks msg);
              [apply keeps_ret | assumption]]).
  - intros _. split; apply keeps_ret.
Qed.

(** The state a read loop leaves when the connection was not logged in
    and asks to log in at most once: either nothing changed in sessions and
    registry, or the session is logged in under a name that was entered
    into the registry at its end. *)
Lemma read_loop_single_login s inbox : forall w,
  (login_count inbox <= 1)%nat ->
  logins_named inbox ->
  let w1 := exec (read_loop s inbox) w in
  (sessions w1 = sessions w /\ clients w1 = clients w)
  \/ (exists u id,
        u <> []
        /\ dict_contains (clients w) u = false
        /\ sessions w1 s = mkSession (Some u) (Some id) true
        /\ clients w1 = dict_set (clients w) u s).
Proof.
  unfold login_count.
  induction inbox as [| [msg |] inbox IH]; intros w Hcount Hnamed;
    cbn [read_loop filter] in *.
  - left. now split.
  - pose proof (Forall_inv Hnamed) as Hmsg.
    pose proof (Forall_inv_tail Hnamed) as Hrest. cbn beta in Hmsg.
    rewrite exec_bind.
    destruct (is_login msg) eqn:Hlogin.
    + destruct msg as [? ? | mu mp | | ? ? ? | ? ? ? ? | ? ? | ? | ? | | ? | ?
                      | ? | ? ? | ? ? ? | ? | ? ? | ? ? | ? | ? | ? ?];
        try discriminate Hlogin.
      cbn [length] in Hcount. cbn [dispatch breaks].
      assert (Hnone : login_count inbox = 0%nat) by (unfold login_count; lia).
      destruct (read_loop_keeps_logins s inbox Hnone) as [Ks Kc].
      pose proof (login_step s mu mp w) as Hstep.
      cbn zeta in Hstep. unfold exec in Hstep at 1 2 3 4.
      destruct (_handle_login s mu mp w) as [[[] | e] w'];
        cbn [snd] in Hstep.
      * rewrite (Ks w'), (Kc w').
        destruct Hstep as [[_ Hsame] | (id & _ & Hnew & Hs & Hc)];
          [now left |].
        right. exists (strip mu), id.
        rewrite Hs, Hc, Nat.eqb_refl. now repeat split.
      * destruct Hstep as [[_ Hsame] | (id & _ & Hnew & Hs & Hc)];
          [now left |].
        right. exists (strip mu), id.
        rewrite Hs, Hc, Nat.eqb_refl. now repeat split.
    + pose proof (dispatch_keeps_sessions s msg Hlogin w) as Ks.
      pose proof (dispatch_keeps_clients s msg Hlogin w) as Kc.
      unfold exec in Ks, Kc.
      destruct (dispatch s msg w) as [[[] | e] w']; cbn [snd] in Ks, Kc.
      * destruct (breaks msg); [left; now split |].
        specialize (IH w' Hcount Hrest). cbn zeta in IH.
        rewrite Ks, Kc in IH. exact IH.
      * left. now split.
  - left. now split.
Qed.

Lemma dict_del_set_absent d k v :
  dict_contains d k = false -> dict_del (dict_set d k v) k = d.
Proof.
  unfold dict_contains. induction d as [| [k' v'] d IH].
  - intros _. cbn [dict_set dict_del]. now rewrite str_eqb_refl.
  - cbn [dict_get dict_set]. destruct (str_eqb k' k) eqn:Heq; [discriminate |].
    intros Habs. cbn [dict_del]. rewrite Heq. now rewrite IH.
Qed.

Lemma dict_contains_set d k v : dict_contains (dict_set d k v) k = true.
Proof.
  unfold dict_contains. induction d as [| [k' v'] d IH].
  - cbn [dict_set dict_get]. now rewrite str_eqb_refl.
  - cbn [dict_set]. destruct (str_eqb k' k) eqn:Heq;
      cbn [dict_get]; rewrite Heq; [reflexivity | exact IH].
Qed.

(** X13.  A connection that was not logged in when it started and asks to
    log in at most once (and not under the empty name) leaves the registry,
    when it ends, exactly as it found it: what its login entered its
    cleanup takes out, whatever else it asked for in between and however
    it ended. *)
Theorem connection_restores_registry w s inbox :
  authenticated (sessions w s) = false ->
  (login_count inbox <= 1)%nat ->
  logins_named inbox ->
  clients (exec (_handle_client s inbox) w) = clients w.
Proof.
  intros Hfresh Hcount Hnamed.
  rewrite exec_handle_client.
  pose proof (read_loop_single_login s inbox w Hcount Hnamed) as Hloop.
  cbn zeta in Hloop. set (w1 := exec (read_loop s inbox) w) in *.
  destruct Hloop as [[Hs Hc] | (u & id & Hne & Habs & Hs & Hc)].
  - unfold exec. rewrite cleanup_unauthenticated by now rewrite Hs.
    exact Hc.
  - unfold exec, _cleanup_session, mbind, get_session.
    rewrite Hs. cbn [username authenticated andb].
    destruct u as [| c u']; [now destruct Hne |]. cbn [str_empty negb].
    rewrite registry_contains_run, Hc, dict_contains_set.
    unfold registry_del, mbind, get_clients, set_clients.
    rewrite emit_run. cbn [db sessions clients sock_ok log logged].
    rewrite Hc, dict_del_set_absent by exact Habs.
    match goal with
    | |- context [_broadcast_presence s OFFLINE ?w0] =>
        pose proof (keeps_broadcast_presence clients s OFFLINE
                      ltac:(quiet) w0) as Kb;
        unfold exec in Kb;
        destruct (_broadcast_presence s OFFLINE w0) as [[[] | e] w2];
        cbn [snd] in Kb
    end.
    + cbn [close snd clients]. exact Kb.
    + exact Kb.
Qed.

(** X14.  Only a login request changes who is logged in: any other request,
    in any state and whether its handler returns or raises, leaves every
    session record and the registry as they were. *)
Theorem only_login_changes_sessions w s msg :
  is_login msg = false ->
  sessions (exec (dispatch s msg) w) = sessions w
  /\ clients (exec (dispatch s msg) w) = clients w.
Proof.
  intros Hmsg. split.
  - now apply dispatch_keeps_sessions.
  - now apply dispatch_keeps_clients.
Qed.

(** X15.  A connection that makes no register, add-contact, remove-contact
    or set-avatar request leaves the store as it was: logins, messages,
    searches, listings and the cleanup at the end only read it. *)
Theorem read_only_connection_keeps_store w s inbox :
  read_only inbox ->
  db (exec (_handle_client s inbox) w) = db w.
Proof.
  intros Hinbox. rewrite exec_handle_client.
  rewrite (cleanup_keeps_db s).
  now apply read_loop_keeps_db.
Qed.

End Connections.

End ConnectionProofs.

(** ** The registry and the end of a connection *)

Module SessionProofs.
Import Protocol Server CodecProofs ServerProofs InvariantProofs FrameRules
       ConnectionProofs.
Local Open Scope server_scope.

Section Registry.
Context `{Environment}.

Lemma dict_set_in d k v n s :
  In (n, s) (dict_set d k v) -> (n = k /\ s = v) \/ In (n, s) d.
Proof.
  induction d as [| [k' v'] d IH]; cbn [dict_set].
  - intros [E | []]. inversion E. now left.
  - destruct (str_eqb k' k) eqn:Heq.
    + apply str_eqb_eq in Heq. subst k'.
      intros [E | Hin]; [inversion E; now left | right; now right].
    + intros [E | Hin]; [right; now left |].
      destruct (IH Hin) as [Hnew | Hold]; [now left | right; now right].
Qed.

Lemma dict_del_in d k n s : In (n, s) (dict_del d k) -> In (n, s) d.
Proof.
  induction d as [| [k' v'] d IH]; cbn [dict_del]; [tauto |].
  destruct (str_eqb k' k); cbn [In]; tauto.
Qed.

Lemma registry_ok_same w w' :
  sessions w' = sessions w -> clients w' = clients w ->
  registry_ok w -> registry_ok w'.
Proof. unfold registry_ok. intros -> ->. trivial. Qed.

Lemma registry_ok_dispatch s msg w :
  fields_ok msg -> registry_ok w -> registry_ok (exec (dispatch s msg) w).
Proof.
  intros Hmsg Hw.
  destruct (is_login msg) eqn:Hlogin.
  - destruct msg as [? ? | mu mp | | ? ? ? | ? ? ? ? | ? ? | ? | ? | | ? | ?
                    | ? | ? ? | ? ? ? | ? | ? ? | ? ? | ? | ? | ? ?];
      try discriminate Hlogin.
    cbn [dispatch].
    destruct (login_step s mu mp w)
      as [(_ & Hs & Hc) | (id & _ & _ & Hs & Hc)].
    + now apply (registry_ok_same w).
    + intros n c Hin. rewrite Hc in Hin. rewrite Hs.
      apply dict_set_in in Hin. destruct Hin as [[-> ->] | Hold].
      * rewrite Nat.eqb_refl. split; [| reflexivity].
        apply strip_ok. apply Hmsg.
      * destruct (Hw n c Hold) as [Hn Hauth]. split; [exact Hn |].
        now destruct (Nat.eqb c s).
  - apply (registry_ok_same w); [| | exact Hw].
    + now apply dispatch_keeps_sessions.
    + now apply dispatch_keeps_clients.
Qed.

Lemma cleanup_clients_incl s w n c :
  In (n, c) (clients (exec (_cleanup_session s) w)) -> In (n, c) (clients w).
Proof.
  unfold exec, _cleanup_session, mbind, get_session.
  destruct (username (sessions w s)) as [name |]; [| now cbn].
  destruct (authenticated (sessions w s) && negb (str_empty name));
    [| now cbn].
  rewrite registry_contains_run.
  destruct (dict_contains (clients w) name).
  - unfold registry_del, mbind, get_clients, set_clients.
    rewrite emit_run. cbn [db sessions clients sock_ok log logged].
    match goal with
    | |- context [_broadcast_presence s OFFLINE ?w0] =>
        pose proof (keeps_broadcast_presence clients s OFFLINE
                      ltac:(quiet) w0) as Kb;
        unfold exec in Kb;
        destruct (_broadcast_presence s OFFLINE w0) as [[[] | e] w2];
        cbn [snd clients] in Kb
    end; cbn [close snd clients]; rewrite Kb; apply dict_del_in.
  - unfold mret.
    match goal with
    | |- context [_broadcast_presence s OFFLINE ?w0] =>
        pose proof (keeps_broadcast_presence clients s OFFLINE
                      ltac:(quiet) w0) as Kb;
        unfold exec in Kb;
        destruct (_broadcast_presence s OFFLINE w0) as [[[] | e] w2];
        cbn [snd clients logged] in Kb
    end; cbn [close snd clients]; rewrite Kb; trivial.
Qed.

Lemma registry_ok_cleanup s w :
  registry_ok w -> registry_ok (exec (_cleanup_session s) w).
Proof.
  intros Hw n c Hin. rewrite (cleanup_keeps_sessions s).
  apply Hw. now apply cleanup_clients_incl in Hin.
Qed.

(** X16.  In every state the server gets into, each registry entry has a
    valid string for its key and leads to a session that has logged in. *)
Theorem registry_holds_logged_in_sessions w name s :
  reachable w ->
  In (name, s) (clients w) ->
  string_ok name /\ authenticated (sessions w s) = true.
Proof.
  intros Hreach. revert name s. change (registry_ok w).
  induction Hreach
    as [w Hclients Hsessions | w s msg _ IH Hmsg | w s _ IH | w ok _ IH].
  - intros n c Hin. rewrite Hclients in Hin. destruct Hin.
  - now apply registry_ok_dispatch.
  - now apply registry_ok_cleanup.
  - exact IH.
Qed.


(** ** The end of a connection *)

Lemma dict_get_del_other d k n :
  n <> k -> dict_get (dict_del d k) n = dict_get d n.
Proof.
  intros Hne. induction d as [| [k' v'] d IH]; [reflexivity |].
  cbn [dict_del dict_get]. destruct (str_eqb k' k) eqn:Hk.
  - apply str_eqb_eq in Hk. subst k'.
    destruct (str_eqb k n) eqn:Hn; [| reflexivity].
    apply str_eqb_eq in Hn. congruence.
  - cbn [dict_get]. now rewrite IH.
Qed.

Lemma filter_others_absent d u :
  dict_contains d u = false ->
  filter (fun kv => negb (str_eqb (fst kv) u)) d = d.
Proof.
  unfold dict_contains. induction d as [| [k v] d IH]; [reflexivity |].
  cbn [dict_get filter fst]. destruct (str_eqb k u); [discriminate |].
  intros Habs. cbn [negb]. now rewrite IH.
Qed.

Lemma cleanup_returns_closed s w :
  names_ok w ->
  fst (_cleanup_session s w) = Ok tt
  /\ sock_ok (exec (_cleanup_session s) w) s = false
  /\ exists evs, log (exec (_cleanup_session s) w) = evs ++ [EvClose s].
Proof.
  intros Hnames.
  destruct (username (sessions w s)) as [u |] eqn:Hname.
  - destruct (authenticated (sessions w s)) eqn:Hauth.
    + destruct u as [| c u'].
      * unfold exec, _cleanup_session, mbind, get_session.
        rewrite Hname, Hauth. cbn [str_empty negb andb mret close fst snd
                                   sock_ok log].
        rewrite Nat.eqb_refl. repeat split. now eexists.
      * assert (Hne : c :: u' <> []) by discriminate.
        pose proof (cleanup_run w s (c :: u') Hauth Hname Hne
                      (Hnames s _ Hname)) as Hrun.
        cbn zeta in Hrun. unfold exec. rewrite Hrun.
        cbn [fst snd sock_ok log]. rewrite Nat.eqb_refl.
        repeat split.
        eexists. rewrite app_comm_cons, !app_assoc. reflexivity.
    + unfold exec. rewrite (cleanup_unauthenticated w s Hauth).
      cbn [fst snd sock_ok log]. rewrite Nat.eqb_refl.
      repeat split. now eexists.
  - unfold exec, _cleanup_session, mbind, get_session.
    rewrite Hname. cbn [mret close fst snd sock_ok log].
    rewrite Nat.eqb_refl. repeat split. now eexists.
Qed.

Lemma read_loop_reachable s inbox : forall w,
  reachable w -> inbox_ok inbox -> reachable (exec (read_loop s inbox) w).
Proof.
  induction inbox as [| [msg |] inbox IH]; intros w Hw Hinbox;
    cbn [read_loop]; try exact Hw.
  pose proof (Forall_inv Hinbox) as Hmsg.
  pose proof (Forall_inv_tail Hinbox) as Hrest. cbn beta in Hmsg.
  rewrite exec_bind.
  pose proof (reach_dispatch w s msg Hw Hmsg) as Hnext. unfold exec in Hnext.
  destruct (dispatch s msg w) as [[[] | e] w1]; cbn [snd] in Hnext;
    [| exact Hnext].
  destruct (breaks msg); [exact Hnext | now apply IH].
Qed.

(** X17.  A connection of a server in a state it gets into, receiving
    messages with valid fields: [_handle_client] returns normally whatever
    the handlers did (an exception of a handler ends the loop and is
    swallowed), the state it leaves is again one the server gets into, the
    socket is closed, and closing it is the last thing done. *)
Theorem connection_ends_closed w s inbox :
  reachable w ->
  inbox_ok inbox ->
  let w' := exec (_handle_client s inbox) w in
  fst (_handle_client s inbox w) = Ok tt
  /\ reachable w'
  /\ sock_ok w' s = false
  /\ exists evs, log w' = evs ++ [EvClose s].
Proof.
  intros Hw Hinbox w'.
  pose proof (read_loop_reachable s inbox w Hw Hinbox) as Hloop.
  assert (Hw' : w' = exec (_cleanup_session s) (exec (read_loop s inbox) w))
    by apply exec_handle_client.
  destruct (cleanup_returns_closed s (exec (read_loop s inbox) w))
    as (Hok & Hclosed & Hlast).
  { apply (reachable_inv _ Hloop). }
  split; [| split; [| split]].
  - rewrite handle_client_cleans_up. unfold exec in Hok.
    destruct (read_loop s inbox w) as [r w1]. cbn [snd] in Hok.
    destruct (_cleanup_session s w1) as [[[] | e] w2]; [reflexivity |].
    discriminate Hok.
  - rewrite Hw'. now apply reach_cleanup.
  - now rewrite Hw'.
  - now rewrite Hw'.
Qed.

(** X18.  The cleanup of a session that is logged in as [u], in a state the
    server gets into: it returns normally; [u] is no longer in the registry
    and every other name is where it was; an OFFLINE event for [u] is sent
    to every session left in the registry, in registry order and whether
    or not a send goes through; then the socket is closed. *)
Theorem cleanup_removes_and_announces w s u :
  reachable w ->
  authenticated (sessions w s) = true ->
  username (sessions w s) = Some u ->
  u <> [] ->
  let w' := exec (_cleanup_session s) w in
  fst (_cleanup_session s w) = Ok tt
  /\ dict_contains (clients w') u = false
  /\ (forall n, n <> u -> dict_get (clients w') n = dict_get (clients w) n)
  /\ sock_ok w' s = false
  /\ skipn (length (log w)) (log w')
     = EvLookup u
       :: (if dict_contains (clients w) u then [EvRemove u] else [])
       ++ map (fun kv => EvSend (snd kv) (PresenceMessage u OFFLINE)
                                (sock_ok w (snd kv)))
              (clients w')
       ++ [EvClose s].
Proof.
  intros Hw Hauth Hname Hne w'.
  destruct (reachable_inv w Hw) as (Hwf & Hnames & _).
  pose proof (cleanup_run w s u Hauth Hname Hne (Hnames s u Hname)) as Hrun.
  cbn zeta in Hrun. subst w'. unfold exec. rewrite Hrun.
  cbn [fst snd clients sock_ok log].
  assert (Hgone : dict_contains
                    (if dict_contains (clients w) u
                     then dict_del (clients w) u else clients w) u = false).
  { destruct (dict_contains (clients w) u) eqn:Hin;
      [now apply dict_del_removes | exact Hin]. }
  split; [reflexivity | split; [exact Hgone | split; [| split]]].
  - intros n Hn. destruct (dict_contains (clients w) u); [| reflexivity].
    now apply dict_get_del_other.
  - now rewrite Nat.eqb_refl.
  - rewrite skipn_pre. unfold presence_events.
    now rewrite (filter_others_absent _ u Hgone).
Qed.

(** X19.  An exception in a handler ends the connection: the request gets
    no reply of its own, the frames that follow it are not handled, and
    the cleanup runs in the state the handler left, just as if the peer had
    closed the connection there. *)
Theorem handler_exception_ends_connection w s msg rest e :
  fst (dispatch s msg w) = Raise e ->
  _handle_client s (Some msg :: rest) w
  = _handle_client s [] (exec (dispatch s msg) w).
Proof.
  intros Hraise. rewrite !handle_client_cleans_up.
  cbn [read_loop]. unfold mbind, mret, exec.
  destruct (dispatch s msg w) as [[[] | e'] w1]; cbn [fst snd] in *;
    [discriminate Hraise | reflexivity].
Qed.

End Registry.

End SessionProofs.

(** ** Requests *)

Module RequestProofs.
Import Protocol Server CodecProofs ServerProofs InvariantProofs.
Local Open Scope server_scope.

Section RequestRules.
Context `{Environment}.

Lemma len_lt_1 {A} (l : list A) : (len l <? 1) = true <-> l = [].
Proof.
  unfold len. destruct l as [| a l]; cbn [length].
  - split; reflexivity.
  - split; [| discriminate]. intros Hlt. apply Z.ltb_lt in Hlt. lia.
Qed.


(** X20.  A register request is checked in this order, on the name with
    surrounding white space stripped and on the password as it came: the
    name has 3 to 20 characters, the password at least 4, the name is
    alphanumeric.  The first check that fails is answered with its own
    FAIL response and the store is not touched; when all pass the store is
    asked once and the response is SUCCESS exactly when it inserted the
    account.  Neither case needs or changes a login. *)
Theorem register_validation w s mu mp :
  let u := strip mu in
  let refuse text :=
    (Ok tt, logged w [EvSend s (ResponseMessage REGISTER FAIL text)
                             (sock_ok w s)]) in
  (len u < 3 \/ 20 < len u ->
   _handle_register s mu mp w = refuse (lit "Username must be 3-20 characters"))
  /\ (3 <= len u <= 20 -> len mp < 4 ->
      _handle_register s mu mp w
      = refuse (lit "Password must be at least 4 characters"))
  /\ (3 <= len u <= 20 -> 4 <= len mp -> isalnum u = false ->
      _handle_register s mu mp w = refuse (lit "Username must be alphanumeric"))
  /\ (3 <= len u <= 20 -> 4 <= len mp -> isalnum u = true ->
      exists code text,
        _handle_register s mu mp w
        = (Ok tt,
           mkWorld (fst (store_register (db w) u mp)) (sessions w) (clients w)
             (sock_ok w)
             (log w ++ [EvSend s (ResponseMessage REGISTER code text)
                               (sock_ok w s)]))
        /\ (code = SUCCESS <-> snd (store_register (db w) u mp) = RegInserted)).
Proof.
  intros u refuse. subst refuse. unfold _handle_register. fold u.
  split; [| split; [| split]].
  - intros Hlen.
    replace ((len u <? 3) || (20 <? len u)) with true
      by (symmetry; apply orb_true_iff;
          destruct Hlen; [left; apply Z.ltb_lt | right; apply Z.ltb_lt]; lia).
    unfold mbind. rewrite send_run by (apply response_sendable; lit_ok).
    reflexivity.
  - intros Hlen Hpw.
    replace ((len u <? 3) || (20 <? len u)) with false
      by (symmetry; apply orb_false_iff; split; apply Z.ltb_ge; lia).
    replace (len mp <? 4) with true by (symmetry; apply Z.ltb_lt; lia).
    unfold mbind. rewrite send_run by (apply response_sendable; lit_ok).
    reflexivity.
  - intros Hlen Hpw Halnum.
    replace ((len u <? 3) || (20 <? len u)) with false
      by (symmetry; apply orb_false_iff; split; apply Z.ltb_ge; lia).
    replace (len mp <? 4) with false by (symmetry; apply Z.ltb_ge; lia).
    rewrite Halnum. cbn [negb].
    unfold mbind. rewrite send_run by (apply response_sendable; lit_ok).
    reflexivity.
  - intros Hlen Hpw Halnum.
    replace ((len u <? 3) || (20 <? len u)) with false
      by (symmetry; apply orb_false_iff; split; apply Z.ltb_ge; lia).
    replace (len mp <? 4) with false by (symmetry; apply Z.ltb_ge; lia).
    rewrite Halnum. cbn [negb].
    unfold mbind, register_user.
    destruct (store_register (db w) u mp) as [d o]. cbn [fst snd].
    destruct o; cbn [fst snd set_db];
      (rewrite send_run by (apply response_sendable; lit_ok));
      do 2 eexists; (split; [reflexivity |]);
      split; (reflexivity || discriminate).
Qed.

(** X21.  A set-avatar request of a logged-in session: more than 512 KiB are
    refused with a FAIL response and the store is not touched; up to and
    including 512 KiB the store is asked to save the image for the
    session's user id, and the response tells whether it did. *)
Theorem avatar_set_size_limit w s d :
  authenticated (sessions w s) = true ->
  let reply code text :=
    EvSend s (ResponseMessage AVATAR_SET code text) (sock_ok w s) in
  let saved := store_set_avatar (db w) (user_id (sessions w s)) d in
  (MAX_AVATAR_SIZE < len d ->
   _handle_avatar_set s d w
   = (Ok tt, logged w [reply FAIL (lit "Avatar too large (max 512KB)")]))
  /\ (len d <= MAX_AVATAR_SIZE ->
      _handle_avatar_set s d w
      = (Ok tt,
         mkWorld (fst saved) (sessions w) (clients w) (sock_ok w)
           (log w ++ [if snd saved then reply SUCCESS (lit "Avatar updated")
                      else reply FAIL (lit "Failed to update avatar")]))).
Proof.
  intros Hauth reply saved. subst reply saved.
  unfold _handle_avatar_set, mbind, get_session. rewrite Hauth. cbn [negb].
  split.
  - intros Hbig. apply Z.ltb_lt in Hbig. rewrite Hbig.
    rewrite send_run by (apply response_sendable; lit_ok). reflexivity.
  - intros Hfits. apply Z.ltb_ge in Hfits. rewrite Hfits.
    unfold set_avatar.
    destruct (store_set_avatar (db w) (user_id (sessions w s)) d) as [d' ok].
    cbn [fst snd set_db].
    destruct ok; (rewrite send_run by (apply response_sendable; lit_ok));
      reflexivity.
Qed.

(** X22.  A search request of a logged-in session: a query that is empty
    once stripped is answered with an empty result without the store being
    asked; any other query is answered with what the store finds for it
    (the session's own user id excluded); and when the store raises, the
    handler raises with nothing sent. *)
Theorem search_outcomes w s q :
  authenticated (sessions w s) = true ->
  let found := store_search_users (db w) (strip q) (user_id (sessions w s)) in
  let result users :=
    EvSend s (UserSearchResultMessage users) (sock_ok w s) in
  (strip q = [] ->
   _handle_search_user s q w = (Ok tt, logged w [result []]))
  /\ (strip q <> [] -> forall users,
      found = Ok users ->
      (exists frame, encode_message (UserSearchResultMessage users) = Ok frame) ->
      _handle_search_user s q w = (Ok tt, logged w [result users]))
  /\ (strip q <> [] -> forall e,
      found = Raise e -> _handle_search_user s q w = (Raise e, w)).
Proof.
  intros Hauth found result. subst found result.
  unfold _handle_search_user, mbind, get_session. rewrite Hauth. cbn [negb].
  split; [| split].
  - intros Hq. rewrite (proj2 (len_lt_1 (strip q)) Hq).
    rewrite send_run; [reflexivity |].
    apply encode_message_ok. split; [constructor | cbn; lia].
  - intros Hq users Hfound Hsend.
    destruct (len (strip q) <? 1) eqn:Hlen;
      [now apply len_lt_1 in Hlen |].
    unfold search_users. rewrite Hfound.
    now rewrite send_run.
  - intros Hq e Hfound.
    destruct (len (strip q) <? 1) eqn:Hlen;
      [now apply len_lt_1 in Hlen |].
    unfold search_users. now rewrite Hfound.
Qed.

(** ** The contact list *)

Lemma contact_statuses_run names : forall w,
  contact_statuses names w
  = (Ok (map (fun n => mkContactInfo n (if dict_contains (clients w) n
                                        then ONLINE else OFFLINE)) names),
     logged w (map EvLookup names)).
Proof.
  induction names as [| n names IH]; intros w; cbn [contact_statuses map].
  - unfold mret. now rewrite logged_nil.
  - unfold mbind. rewrite registry_contains_run, IH.
    unfold mret. cbn [clients logged]. now rewrite logged_logged.
Qed.

(** X23.  The contact list sent to a logged-in session holds the names the
    store lists for the session's user id, in the store's order, each
    marked ONLINE when the name is in the registry at that moment and
    OFFLINE when it is not. *)
Theorem contact_list_shows_who_is_online w s names :
  authenticated (sessions w s) = true ->
  store_get_contacts (db w) (user_id (sessions w s)) = Ok names ->
  let contacts :=
    map (fun n => mkContactInfo n (if dict_contains (clients w) n
                                   then ONLINE else OFFLINE)) names in
  (exists frame, encode_message (ContactListMessage contacts) = Ok frame) ->
  _handle_get_contacts s w
  = (Ok tt,
     logged w (map EvLookup names
               ++ [EvSend s (ContactListMessage contacts) (sock_ok w s)])).
Proof.
  intros Hauth Hnames contacts Hsend.
  unfold _handle_get_contacts, mbind, get_session. rewrite Hauth. cbn [negb].
  unfold get_contacts. rewrite Hnames, contact_statuses_run.
  fold contacts. rewrite send_run by exact Hsend.
  unfold mret. cbn [sock_ok logged]. now rewrite logged_logged.
Qed.


End RequestRules.

End RequestProofs.

(** ** Login, logout and the avatar request *)

Module SessionRequestProofs.
Import Protocol Server CodecProofs ServerProofs InvariantProofs FrameRules
       ConnectionProofs.
Local Open Scope server_scope.

Section SessionRequests.
Context `{Environment}.

Lemma dict_get_set_same d k v : dict_get (dict_set d k v) k = Some v.
Proof.
  induction d as [| [k' v'] d IH].
  - cbn [dict_set dict_get]. now rewrite str_eqb_refl.
  - cbn [dict_set]. destruct (str_eqb k' k) eqn:Heq;
      cbn [dict_get]; rewrite Heq; [reflexivity | exact IH].
Qed.

(** X25.  What a login request changes.  When the stripped name is not in
    the registry and the store accepts the password, the session gets that
    name, the user id the store gave and the authenticated flag, the
    registry leads from the name to the session, and every other session
    is as it was; in every other case sessions and registry are
    unchanged.  The store is never written. *)
Theorem login_binds_session w s mu mp :
  let u := strip mu in
  let w' := exec (_handle_login s mu mp) w in
  db w' = db w
  /\ (forall id,
        dict_contains (clients w) u = false ->
        store_authenticate (db w) u mp = AuthMatch id ->
        sessions w' s = mkSession (Some u) (Some id) true
        /\ (forall s', s' <> s -> sessions w' s' = sessions w s')
        /\ dict_get (clients w') u = Some s)
  /\ (dict_contains (clients w) u = true
      \/ (forall id, store_authenticate (db w) u mp <> AuthMatch id) ->
      sessions w' = sessions w /\ clients w' = clients w).
Proof.
  intros u w'. subst u w'.
  split; [| split].
  - exact (dispatch_keeps_db s (LoginMessage mu mp) eq_refl w).
  - intros id Habs Hauth.
    destruct (login_step s mu mp w)
      as [([Hin | Hno] & _) | (id' & Hauth' & _ & Hs & Hc)].
    + congruence.
    + now destruct (Hno id).
    + rewrite Hauth in Hauth'. inversion Hauth'; subst id'.
      rewrite Hs, Hc, Nat.eqb_refl. split; [reflexivity | split].
      * intros s' Hne. apply Nat.eqb_neq in Hne. now rewrite Hne.
      * apply dict_get_set_same.
  - intros Hrefused.
    destruct (login_step s mu mp w)
      as [(_ & Hsame) | (id' & Hauth' & Habs & _)]; [exact Hsame |].
    destruct Hrefused as [Hin | Hno]; [congruence | now destruct (Hno id')].
Qed.

(** X26.  A logout request ends the read loop whatever frames follow it:
    a logged-in session is first sent the LOGOUT response [Goodbye!], a
    session that is not logged in is sent nothing; the connection is then
    cleaned up as when the peer closes. *)
Theorem logout_ends_connection w s rest :
  let goodbye :=
    EvSend s (ResponseMessage LOGOUT SUCCESS (lit "Goodbye!")) (sock_ok w s) in
  let w1 := if authenticated (sessions w s) then logged w [goodbye] else w in
  read_loop s (Some LogoutMessage :: rest) w = (Ok tt, w1)
  /\ _handle_client s (Some LogoutMessage :: rest) w = _handle_client s [] w1.
Proof.
  intros goodbye w1.
  assert (Hloop : read_loop s (Some LogoutMessage :: rest) w = (Ok tt, w1)).
  { cbn [read_loop dispatch breaks]. unfold _handle_logout, mbind, get_session.
    subst w1. destruct (authenticated (sessions w s)); [| reflexivity].
    rewrite send_run by (apply response_sendable; lit_ok). reflexivity. }
  split; [exact Hloop |].
  rewrite !handle_client_cleans_up, Hloop. reflexivity.
Qed.

(** X27.  An avatar request of a logged-in session is answered with the
    stripped name and the stored image, or with an empty image when the
    store has none for that name (no such user, or no avatar set); when
    the store raises, the handler raises with nothing sent. *)
Theorem avatar_get_outcomes w s mu :
  authenticated (sessions w s) = true ->
  let u := strip mu in
  let reply data := EvSend s (AvatarDataMessage u data) (sock_ok w s) in
  (forall stored,
     store_get_avatar (db w) u = Ok stored ->
     let data := match stored with Some (b :: bs) => b :: bs | _ => [] end in
     (exists frame, encode_message (AvatarDataMessage u data) = Ok frame) ->
     _handle_avatar_get s mu w = (Ok tt, logged w [reply data]))
  /\ (forall e,
        store_get_avatar (db w) u = Raise e ->
        _handle_avatar_get s mu w = (Raise e, w)).
Proof.
  intros Hauth u reply. subst reply.
  unfold _handle_avatar_get, mbind, get_session, get_avatar.
  rewrite Hauth. cbn [negb]. fold u.
  split.
  - intros stored Hstored. cbn zeta. intros Hsend. rewrite Hstored.
    now rewrite send_run.
  - intros e Hraise. now rewrite Hraise.
Qed.

End SessionRequests.

End SessionRequestProofs.

(** ** Runs on sample frames and on the in-memory store *)

Module FurtherRuns.
Import Protocol Server MemStore.
Import CodecProofs WireProofs ServerProofs InvariantProofs ServerClaims.
Import FrameProofs StreamProofs HeaderProofs ReencodeProofs.
Import FrameRules ConnectionProofs SessionProofs RequestProofs.
Import SessionRequestProofs.
Local Open Scope server_scope.

Ltac chunks_ok :=
  repeat (first [apply Forall_nil | apply Forall_cons]);
  first [discriminate | unfold is_byte; lia].

Lemma encode_message_layout_witness :
  encode_message demo_contacts = Ok demo_frame
  /\ firstn 9 demo_frame = [81; 80; 1; 2; 3; 0; 0; 0; 18]
  /\ len demo_frame = 27.
Proof.
  assert (Hframe : encode_message demo_contacts = Ok demo_frame)
    by reflexivity.
  pose proof (encode_message_layout demo_contacts demo_frame Hframe)
    as (Hhead & Hlen & _).
  split; [exact Hframe | split; [exact Hhead | exact Hlen]].
Defined.

Lemma recv_message_reassembles_witness :
  arrives (demo_frame ++ [81; 80])
          [[81; 80; 1; 2]; [3; 0; 0; 0; 18; 0; 2; 0; 10; 97; 195];
           [169; 226; 130; 172; 240; 159; 152; 128; 1; 0; 0; 0; 81; 80]]
  /\ exists sock',
       recv_message
         [[81; 80; 1; 2]; [3; 0; 0; 0; 18; 0; 2; 0; 10; 97; 195];
          [169; 226; 130; 172; 240; 159; 152; 128; 1; 0; 0; 0; 81; 80]]
       = (Ok (Some demo_contacts), sock')
       /\ arrives [81; 80] sock'.
Proof.
  assert (Harr : arrives (demo_frame ++ [81; 80])
                   [[81; 80; 1; 2]; [3; 0; 0; 0; 18; 0; 2; 0; 10; 97; 195];
                    [169; 226; 130; 172; 240; 159; 152; 128; 1; 0; 0; 0;
                     81; 80]]).
  { split; [reflexivity | chunks_ok]. }
  split; [exact Harr |].
  apply (recv_message_reassembles demo_contacts demo_frame [81; 80]);
    [reflexivity | vm_compute; discriminate | exact Harr].
Defined.

Lemma recv_message_drops_after_header_witness :
  exists sock',
    recv_message [[81; 80; 1; 7; 0; 255]; [255; 255; 255; 1; 2]]
    = (Ok None, sock')
    /\ arrives [1; 2] sock'.
Proof.
  apply (recv_message_drops_after_header huge_header [1; 2]).
  - reflexivity.
  - split; [reflexivity | chunks_ok].
  - right. exists 4294967295. split; [reflexivity | reflexivity].
Defined.

Lemma recv_message_truncated_witness :
  fst (recv_message [[81; 80]; [1]]) = Ok None.
Proof.
  apply (recv_message_truncated [81; 80; 1]).
  - split; [reflexivity | chunks_ok].
  - left. unfold HEADER_SIZE. cbn [length]. lia.
Defined.

Lemma decode_message_header_errors_witness :
  decode_message user_list_req_frame = Raise ValueError
  /\ decode_message [81; 80; 1] = Ok None.
Proof.
  split.
  - apply (decode_message_header_errors user_list_req_frame).
    right. right. right. right. left. reflexivity.
  - apply (decode_message_header_errors [81; 80; 1]).
    left. unfold HEADER_SIZE. cbn [length]. lia.
Defined.

Lemma decoded_message_matches_header_witness :
  nth 3 short_error_frame 0 * 256 + nth 4 short_error_frame 0
  = Command_value QPROTO_ERROR.
Proof.
  exact (proj2 (proj2 (proj2
           (decoded_message_matches_header short_error_frame
              (ErrorMessage [97]) eq_refl)))).
Defined.

Lemma decode_message_ignores_trailing_witness :
  decode_message (logout_frame ++ [] ++ [1; 2; 3])
  = decode_message (logout_frame ++ []).
Proof.
  apply (decode_message_ignores_trailing logout_frame [] [1; 2; 3] 0);
    [reflexivity | reflexivity | cbn [length]; lia].
Defined.

Lemma overrun_caught_by_next_read_witness :
  read_string short_field = Ok ([97], mkReader [0; 5; 97] 7)
  /\ read_uint8 (mkReader [0; 5; 97] 7) = Raise StructError.
Proof.
  assert (Hread : read_string short_field = Ok ([97], mkReader [0; 5; 97] 7))
    by reflexivity.
  split; [exact Hread |].
  refine (proj1 (overrun_caught_by_next_read short_field [97]
                   (mkReader [0; 5; 97] 7) 5 Hread eq_refl _)).
  cbn. lia.
Defined.

Lemma received_message_reencodes_witness :
  exists frame,
    encode_message LogoutMessage = Ok frame
    /\ decode_message frame = Ok (Some LogoutMessage)
    /\ len frame <= Z.of_nat HEADER_SIZE + MAX_MESSAGE_SIZE.
Proof.
  refine (proj2 (received_message_reencodes
                   [[81; 80; 1; 0]; [3; 0; 0; 0; 0]] LogoutMessage [] _
                   eq_refl)).
  repeat (first [apply Forall_nil | apply Forall_cons]);
    unfold is_byte; lia.
Defined.

Lemma only_login_changes_sessions_witness :
  clients (exec (dispatch 1%nat (SendMsgMessage bob hi m1)) w_alice_bob)
  = [(alice, 1%nat); (bob, 2%nat)].
Proof.
  rewrite (proj2 (only_login_changes_sessions w_alice_bob 1%nat
                    (SendMsgMessage bob hi m1) eq_refl)).
  reflexivity.
Defined.

Lemma read_only_connection_keeps_store_witness :
  read_only visit_inbox
  /\ db (exec (_handle_client 2%nat visit_inbox) w_alice) = demo_tables.
Proof.
  assert (Hinbox : read_only visit_inbox)
    by (repeat constructor).
  split; [exact Hinbox |].
  rewrite (read_only_connection_keeps_store w_alice 2%nat visit_inbox Hinbox).
  reflexivity.
Defined.

Lemma registry_holds_logged_in_sessions_witness :
  string_ok bob /\ authenticated (sessions w_alice_bob 2%nat) = true.
Proof.
  apply (registry_holds_logged_in_sessions w_alice_bob bob 2%nat).
  - exact w_alice_bob_reachable.
  - right. left. reflexivity.
Defined.

Lemma connection_restores_registry_witness :
  clients (exec (_handle_client 2%nat visit_inbox) w_alice) = [(alice, 1%nat)].
Proof.
  rewrite (connection_restores_registry w_alice 2%nat visit_inbox).
  - reflexivity.
  - reflexivity.
  - cbn. lia.
  - repeat constructor; discriminate.
Defined.

Lemma visit_inbox_ok : inbox_ok visit_inbox.
Proof.
  unfold visit_inbox, inbox_ok.
  apply Forall_cons; [split; [exact bob_ok | unfold pw_b; lit_ok] |].
  apply Forall_cons;
    [split; [exact alice_ok | split; [unfold hi | unfold m1]; lit_ok] |].
  apply Forall_cons; [exact I | apply Forall_nil].
Qed.

Lemma connection_ends_closed_witness :
  fst (_handle_client 2%nat visit_inbox w_alice) = Ok tt
  /\ sock_ok (exec (_handle_client 2%nat visit_inbox) w_alice) 2%nat = false.
Proof.
  pose proof (connection_ends_closed w_alice 2%nat visit_inbox
                w_alice_reachable visit_inbox_ok) as (Hok & _ & Hclosed & _).
  split; [exact Hok | exact Hclosed].
Defined.

Lemma cleanup_removes_and_announces_witness :
  dict_contains (clients (exec (_cleanup_session 1%nat) w_alice_bob)) alice
  = false
  /\ skipn (length (log w_alice_bob))
           (log (exec (_cleanup_session 1%nat) w_alice_bob))
     = [EvLookup alice; EvRemove alice;
        EvSend 2%nat (PresenceMessage alice OFFLINE) true; EvClose 1%nat].
Proof.
  assert (Hne : alice <> []) by discriminate.
  pose proof (cleanup_removes_and_announces w_alice_bob 1%nat alice
                w_alice_bob_reachable eq_refl eq_refl Hne)
    as (_ & Hgone & _ & _ & Hlog).
  split; [exact Hgone |].
  rewrite Hlog. reflexivity.
Defined.

Lemma handler_exception_ends_connection_witness :
  fst (dispatch 1%nat (SendMsgMessage bob hi [55296]) w_alice)
  = Raise UnicodeEncodeError
  /\ _handle_client 1%nat
       [Some (SendMsgMessage bob hi [55296]); Some ContactListReqMessage]
       w_alice
     = _handle_client 1%nat []
         (exec (dispatch 1%nat (SendMsgMessage bob hi [55296])) w_alice).
Proof.
  assert (Hraise : fst (dispatch 1%nat (SendMsgMessage bob hi [55296]) w_alice)
                   = Raise UnicodeEncodeError) by reflexivity.
  split; [exact Hraise |].
  exact (handler_exception_ends_connection w_alice 1%nat
           (SendMsgMessage bob hi [55296]) [Some ContactListReqMessage]
           UnicodeEncodeError Hraise).
Defined.

Lemma avatar_set_size_limit_witness :
  _handle_avatar_set 1%nat [1; 2; 3] w_alice
  = (Ok tt,
     mkWorld (fst (store_set_avatar (db w_alice) (Some 1) [1; 2; 3]))
       (sessions w_alice) (clients w_alice) (sock_ok w_alice)
       (log w_alice
        ++ [EvSend 1%nat
              (ResponseMessage AVATAR_SET SUCCESS (lit "Avatar updated"))
              true])).
Proof.
  refine (proj2 (avatar_set_size_limit w_alice 1%nat [1; 2; 3] eq_refl) _).
  vm_compute. discriminate.
Defined.

Lemma search_outcomes_witness :
  _handle_search_user 1%nat (lit "  ") w_alice
  = (Ok tt, logged w_alice [EvSend 1%nat (UserSearchResultMessage []) true]).
Proof.
  exact (proj1 (search_outcomes w_alice 1%nat (lit "  ") eq_refl) eq_refl).
Defined.

Lemma contact_list_shows_who_is_online_witness :
  _handle_get_contacts 1%nat w_friends
  = (Ok tt,
     logged w_friends
       [EvLookup bob;
        EvSend 1%nat (ContactListMessage [mkContactInfo bob ONLINE]) true]).
Proof.
  apply (contact_list_shows_who_is_online w_friends 1%nat [bob]).
  - reflexivity.
  - reflexivity.
  - eexists. reflexivity.
Defined.


Lemma avatar_get_outcomes_witness :
  _handle_avatar_get 1%nat bob w_alice
  = (Ok tt, logged w_alice [EvSend 1%nat (AvatarDataMessage bob []) true]).
Proof.
  refine (proj1 (avatar_get_outcomes w_alice 1%nat bob eq_refl)
            None eq_refl _).
  eexists. reflexivity.
Defined.

End FurtherRuns.
